(** * SmartRoute routing core: a shallow embedding and its properties

    The development follows the four Python modules of the routing core:

    - [score_calculator.py]   (module [Score]):   the three 0-10 scores;
    - [route_optimizer.py]    (weight functions and [generate_routes]);
    - [subway_graph.py]       (module [Topology] and [_build_graph]);
    - [dijkstra_router.py]    ([_dijkstra], [_extract_route],
                               [find_shortest_path]).

    Numbers.  Python [int]s are [Z].  Python [float]s are modelled by exact
    rationals [Q]: every float the code handles is a small sum, product or
    quotient of integers, and the properties below are about the order of
    such values and about rounding to the nearest integer, so the model
    reads [/] as exact division and [round] as Python 3's [round]
    (round-half-to-even).  Results that the code returns as [int] are [Z]. *)

From Stdlib Require Import QArith Qround Qminmax Lqa ZArith Lia.
From stdpp Require Import gmap mapset strings list fin_maps sorting pretty.

Local Open Scope Z_scope.

(** ** Python arithmetic helpers *)

(** [round(x)] with one argument: nearest integer, ties to the even one. *)
Definition py_round (x : Q) : Z :=
  let f := Qfloor x in
  match (x - inject_Z f ?= 1 # 2)%Q with
  | Lt => f
  | Gt => f + 1
  | Eq => if Z.even f then f else f + 1
  end.

(** [min(a, b)] and [max(a, b)] return the first argument unless the second
    is strictly smaller (resp. larger). *)
Definition py_min (a b : Q) : Q :=
  match (b ?= a)%Q with Lt => b | _ => a end.

Definition py_max (a b : Q) : Q :=
  match (b ?= a)%Q with Gt => b | _ => a end.

Definition Qltb (a b : Q) : bool :=
  match (a ?= b)%Q with Lt => true | _ => false end.

Definition Qleb (a b : Q) : bool :=
  match (a ?= b)%Q with Gt => false | _ => true end.

(** [sum(l)] over numbers. *)
Definition py_sum (l : list Q) : Q := foldl Qplus 0%Q l.

(** [len(l)] as a number. *)
Definition py_len {A} (l : list A) : Q := inject_Z (Z.of_nat (length l)).

(** [sum(1 for x in l if p x)] *)
Definition py_count {A} (p : A → bool) (l : list A) : Q :=
  inject_Z (Z.of_nat (length (filter (λ x, p x = true) l))).

(** ** score_calculator.py *)

Module Score.

(** A value of the [line_performance] dict: either a dict that may carry an
    ["on_time_percent"] entry, or a plain number. *)
Inductive line_data :=
  | PerfDict (on_time_percent : option Q)
  | PerfPlain (percent : Q).

(** The fields of a [ScoreCalculator] that the score methods read.  The
    baselines are computed once in [__init__]; [update_crime_data] and
    [update_line_performance] replace the maps and leave them alone, so they
    are fields of their own. *)
Record ScoreCalculator := {
  crime_data : gmap string Z;
  line_performance : gmap string line_data;
  crime_baseline_mean : Q;
  reliability_baseline_mean : Q;
}.

(** [list(d.values())] *)
Definition values {V} (d : gmap string V) : list V := (map_to_list d).*2.

(** [statistics.mean] *)
Definition mean (l : list Q) : Q := (py_sum l / py_len l)%Q.

(** The ['mean'] entry of [_calculate_crime_baseline]. *)
Definition _calculate_crime_baseline_mean (cd : gmap string Z) : Q :=
  match values cd with
  | [] => 5%Q
  | crimes => mean (inject_Z <$> crimes)
  end.

Definition perf_or (dflt : Q) (d : line_data) : Q :=
  match d with
  | PerfDict o => default dflt o
  | PerfPlain v => v
  end.

(** The ['mean'] entry of [_calculate_reliability_baseline]. *)
Definition _calculate_reliability_baseline_mean (lp : gmap string line_data) : Q :=
  match values lp with
  | [] => 85%Q
  | ds => mean (perf_or 85%Q <$> ds)
  end.

(** [ScoreCalculator(crime_data, line_performance)] *)
Definition new (cd : gmap string Z) (lp : gmap string line_data) : ScoreCalculator :=
  {| crime_data := cd;
     line_performance := lp;
     crime_baseline_mean := _calculate_crime_baseline_mean cd;
     reliability_baseline_mean := _calculate_reliability_baseline_mean lp |}.

Definition update_crime_data (cd : gmap string Z) (sc : ScoreCalculator) : ScoreCalculator :=
  {| crime_data := cd;
     line_performance := line_performance sc;
     crime_baseline_mean := crime_baseline_mean sc;
     reliability_baseline_mean := reliability_baseline_mean sc |}.

Definition update_line_performance (lp : gmap string line_data) (sc : ScoreCalculator)
  : ScoreCalculator :=
  {| crime_data := crime_data sc;
     line_performance := lp;
     crime_baseline_mean := crime_baseline_mean sc;
     reliability_baseline_mean := reliability_baseline_mean sc |}.

(** The five-tier map from a percentile to a score before rounding; the
    same [if]/[elif] chain ends both score methods. *)
Definition tier (percentile : Q) : Q :=
  if Qleb 90 percentile then 10
  else if Qleb 75 percentile then 8 + (percentile - 75) / 15
  else if Qleb 50 percentile then 6 + (percentile - 50) / 25
  else if Qleb 25 percentile then 4 + (percentile - 25) / 25
  else 2 + percentile / 25.

(** [route_avg_crime] of [calculate_safety_score], for a non-empty list. *)
Definition route_avg_crime (sc : ScoreCalculator) (stations : list string) : Q :=
  let crimes_list :=
    (λ station, match crime_data sc !! station with
                | Some c => inject_Z c
                | None => crime_baseline_mean sc
                end) <$> stations in
  (py_sum crimes_list / py_len crimes_list)%Q.

(** [percentile] of [calculate_safety_score]. *)
Definition safety_percentile (sc : ScoreCalculator) (stations : list string) : Q :=
  let avg := route_avg_crime sc stations in
  match values (crime_data sc) with
  | [] => if Qleb avg (crime_baseline_mean sc) then 50 else 30
  | all_crimes =>
      let crime_count := py_count (λ c, Qleb avg (inject_Z c)) all_crimes in
      ((py_len all_crimes - crime_count) / py_len all_crimes * 100)%Q
  end.

Definition calculate_safety_score (sc : ScoreCalculator) (stations : list string) : Z :=
  match stations with
  | [] => 5
  | _ => py_round (tier (safety_percentile sc stations))
  end.

(** [route_avg_performance] of [calculate_reliability_score]. *)
Definition route_avg_performance (sc : ScoreCalculator) (lines : list string) : Q :=
  let performance_list :=
    (λ line, match line_performance sc !! line with
             | Some d => perf_or (reliability_baseline_mean sc) d
             | None => reliability_baseline_mean sc
             end) <$> lines in
  (py_sum performance_list / py_len performance_list)%Q.

(** [percentile] of [calculate_reliability_score]. *)
Definition reliability_percentile (sc : ScoreCalculator) (lines : list string) : Q :=
  let avg := route_avg_performance sc lines in
  match perf_or 85%Q <$> values (line_performance sc) with
  | [] => if Qleb (reliability_baseline_mean sc) avg then 50 else 30
  | all_perfs =>
      let better_count := py_count (λ p, Qltb p avg) all_perfs in
      (better_count / py_len all_perfs * 100)%Q
  end.

Definition calculate_reliability_score (sc : ScoreCalculator) (lines : list string) : Z :=
  match lines with
  | [] => 5
  | _ => py_round (tier (reliability_percentile sc lines))
  end.

Definition calculate_efficiency_score (num_transfers travel_time_minutes : Z) : Z :=
  let transfer_penalty := py_min (inject_Z num_transfers * (3 # 2)) 10 in
  let efficiency_score := py_max 0 (py_min 10 (10 - transfer_penalty)) in
  py_round efficiency_score.

(** The percentile as the specification words it: the share of all known
    crime values that are at least the route average, times 100. *)
Definition spec_safety_percentile (sc : ScoreCalculator) (stations : list string) : Q :=
  let avg := route_avg_crime sc stations in
  let all_crimes := values (crime_data sc) in
  (py_count (λ c, Qleb avg (inject_Z c)) all_crimes / py_len all_crimes * 100)%Q.

End Score.

(** ** subway_graph.py *)

(** A search node is a [(station, line)] pair; an adjacency entry is
    [(next_station, next_line, travel_time_minutes)]. *)
Definition node : Type := string * string.
Definition edge : Type := string * string * Z.

Module Topology.

Definition SUBWAY_LINES : list (string * list string) :=
  [ ("1",
      [ "South Ferry"; "Rector Street"; "Cortlandt Street"; "Chambers Street";
        "Franklin Street"; "Canal Street"; "Spring Street"; "Houston Street";
        "14th Street"; "18th Street"; "23rd Street"; "28th Street";
        "34th Street-Herald Square"; "42nd Street-Times Square"; "49th Street";
        "59th Street-Columbus Circle"; "72nd Street"; "79th Street" ]);
    ("2",
      [ "Bowling Green"; "Wall Street"; "Fulton Street"; "Park Place";
        "Chambers Street"; "Franklin Street"; "Canal Street"; "Spring Street";
        "Houston Street"; "14th Street"; "18th Street"; "23rd Street"; "28th Street";
        "34th Street-Herald Square"; "42nd Street-Times Square"; "49th Street";
        "59th Street-Columbus Circle"; "72nd Street" ]);
    ("3",
      [ "Bowling Green"; "Wall Street"; "Fulton Street"; "Park Place";
        "Chambers Street"; "Franklin Street"; "Canal Street"; "Spring Street";
        "Houston Street"; "14th Street"; "18th Street"; "23rd Street"; "28th Street";
        "34th Street-Herald Square"; "42nd Street-Times Square"; "49th Street";
        "59th Street-Columbus Circle"; "72nd Street" ]);
    ("4",
      [ "Bowling Green"; "Wall Street"; "Fulton Street"; "Park Place";
        "Chambers Street"; "Brooklyn Bridge-City Hall"; "Spring Street";
        "Canal Street"; "14th Street-Union Square"; "18th Street";
        "23rd Street-Lexington"; "28th Street-Lexington"; "33rd Street";
        "Grand Central-42nd Street"; "59th Street"; "86th Street" ]);
    ("5",
      [ "Bowling Green"; "Wall Street"; "Fulton Street"; "Park Place";
        "Chambers Street"; "Brooklyn Bridge-City Hall"; "Spring Street";
        "Canal Street"; "14th Street-Union Square"; "18th Street";
        "23rd Street-Lexington"; "28th Street-Lexington"; "33rd Street";
        "Grand Central-42nd Street"; "59th Street"; "86th Street" ]);
    ("6",
      [ "Bowling Green"; "Wall Street"; "Fulton Street"; "Park Place";
        "Chambers Street"; "Brooklyn Bridge-City Hall"; "Spring Street";
        "Canal Street"; "14th Street-Union Square"; "18th Street";
        "23rd Street-Lexington"; "28th Street-Lexington"; "33rd Street";
        "Grand Central-42nd Street"; "59th Street" ]);
    ("A",
      [ "Inwood-207th Street"; "175th Street"; "145th Street"; "125th Street";
        "59th Street-Columbus Circle"; "42nd Street-Port Authority";
        "34th Street-Penn Station"; "14th Street"; "8th Avenue-14th Street";
        "West 4th Street"; "Spring Street"; "Canal Street"; "Chambers Street";
        "Fulton Street"; "Jay Street-MetroTech"; "High Street-Brooklyn Bridge";
        "Hoyt-Schermerhorn"; "Carroll Street"; "Nostrand Avenue";
        "Kingston-Throop Avenues" ]);
    ("C",
      [ "168th Street"; "145th Street"; "125th Street"; "110th Street"; "72nd Street";
        "59th Street-Columbus Circle"; "42nd Street-Port Authority";
        "34th Street-Penn Station"; "14th Street"; "8th Avenue-14th Street";
        "West 4th Street"; "Spring Street"; "Canal Street"; "Chambers Street";
        "Fulton Street"; "Jay Street-MetroTech"; "Hoyt-Schermerhorn"; "Carroll Street";
        "Nostrand Avenue" ]);
    ("E",
      [ "Jamaica Center-Parsons/Archer"; "Forest Hills-71st Avenue";
        "Jackson Heights-Roosevelt Avenue"; "42nd Street-Port Authority";
        "34th Street-Penn Station"; "14th Street"; "8th Avenue-14th Street";
        "West 4th Street"; "Spring Street"; "Canal Street"; "World Trade Center" ]);
    ("F",
      [ "Jamaica Center-Parsons/Archer"; "Forest Hills-71st Avenue";
        "Jackson Heights-Roosevelt Avenue"; "23rd Street-Broadway-Lafayette";
        "14th Street-Broadway-Lafayette"; "West 4th Street"; "Broadway-Lafayette";
        "Spring Street"; "Canal Street"; "Chambers Street"; "Jay Street-MetroTech";
        "Carroll Street"; "Court Street"; "Bergen Street"; "Hoyt-Schermerhorn" ]);
    ("N",
      [ "Astoria-Ditmars Boulevard"; "30th Avenue"; "Astoria Boulevard";
        "Queensboro Plaza"; "Lexington Avenue"; "Herald Square";
        "28th Street-Broadway"; "23rd Street-Broadway"; "14th Street"; "8th Street";
        "Union Square-14th Street"; "Canal Street"; "Chambers Street";
        "Cortlandt Street"; "Rector Street"; "Whitehall Terminal" ]);
    ("Q",
      [ "96th Street"; "72nd Street"; "57th Street"; "42nd Street-Times Square";
        "34th Street"; "Herald Square"; "28th Street-Broadway"; "23rd Street-Broadway";
        "14th Street"; "Canal Street"; "Chambers Street"; "Cortlandt Street";
        "Bowling Green" ]);
    ("R",
      [ "Forest Hills-71st Avenue"; "Jackson Heights-Roosevelt Avenue";
        "Queensboro Plaza"; "Lexington Avenue"; "Herald Square";
        "28th Street-Broadway"; "23rd Street-Broadway"; "14th Street"; "8th Street";
        "Canal Street"; "Chambers Street"; "Cortlandt Street"; "Rector Street";
        "Whitehall Terminal" ]);
    ("W",
      [ "Astoria-Ditmars Boulevard"; "30th Avenue"; "Astoria Boulevard";
        "Queensboro Plaza"; "Lexington Avenue"; "Herald Square";
        "28th Street-Broadway"; "23rd Street-Broadway"; "14th Street"; "Canal Street";
        "Chambers Street"; "Cortlandt Street"; "Whitehall Terminal" ]);
    ("L",
      [ "8th Avenue-14th Street"; "6th Avenue"; "Union Square-14th Street";
        "1st Avenue"; "Bedford Avenue"; "Lorimer Street"; "Graham Avenue";
        "Jefferson Street"; "Myrtle Avenue" ]);
    ("G",
      [ "Court Square"; "Greenpoint Avenue"; "Nassau Avenue"; "Metropolitan Avenue";
        "Broadway"; "Myrtle-Willoughby Avenues"; "Clinton-Washington";
        "Classon Avenue"; "Nostrand Avenue"; "Bedford-Stuyvesant"; "Hoyt-Schermerhorn";
        "Carroll Street"; "Fulton Street" ]);
    ("S",
      [ "42nd Street-Times Square"; "Grand Central-42nd Street" ]);
    ("7",
      [ "Flushing-Main Street"; "Woodside"; "Jackson Heights-Roosevelt Avenue";
        "Queens Plaza"; "Lexington Avenue"; "Grand Central-42nd Street";
        "34th Street-Herald Square"; "28th Street"; "23rd Street"; "18th Street";
        "14th Street"; "42nd Street-Times Square" ]) ].

Definition TRANSFER_POINTS : list (node * list edge) :=
  [ (("Canal Street", "1"),
      [ ("Canal Street", "2", 1); ("Canal Street", "3", 1); ("Canal Street", "4", 2);
        ("Canal Street", "5", 2); ("Canal Street", "6", 2); ("Canal Street", "A", 2);
        ("Canal Street", "C", 2) ]);
    (("Canal Street", "N"),
      [ ("Canal Street", "R", 1); ("Canal Street", "W", 1); ("Canal Street", "A", 2);
        ("Canal Street", "C", 2); ("Canal Street", "1", 2); ("Canal Street", "2", 2);
        ("Canal Street", "6", 2) ]);
    (("42nd Street-Times Square", "1"),
      [ ("42nd Street-Times Square", "2", 1); ("42nd Street-Times Square", "3", 1);
        ("42nd Street-Times Square", "Q", 2); ("42nd Street-Times Square", "N", 2);
        ("42nd Street-Times Square", "R", 2); ("42nd Street-Times Square", "W", 2);
        ("42nd Street-Times Square", "S", 1); ("Grand Central-42nd Street", "4", 3);
        ("Grand Central-42nd Street", "5", 3); ("Grand Central-42nd Street", "6", 3);
        ("Grand Central-42nd Street", "7", 3) ]);
    (("42nd Street-Times Square", "S"),
      [ ("Grand Central-42nd Street", "4", 1); ("Grand Central-42nd Street", "5", 1);
        ("Grand Central-42nd Street", "6", 1); ("Grand Central-42nd Street", "7", 1) ]);
    (("Grand Central-42nd Street", "4"),
      [ ("42nd Street-Times Square", "1", 3); ("42nd Street-Times Square", "3", 3);
        ("42nd Street-Times Square", "S", 1) ]);
    (("Grand Central-42nd Street", "5"),
      [ ("42nd Street-Times Square", "1", 3); ("42nd Street-Times Square", "3", 3);
        ("42nd Street-Times Square", "S", 1) ]);
    (("Grand Central-42nd Street", "6"),
      [ ("42nd Street-Times Square", "1", 3); ("42nd Street-Times Square", "3", 3);
        ("42nd Street-Times Square", "S", 1) ]);
    (("Grand Central-42nd Street", "7"),
      [ ("42nd Street-Times Square", "1", 3); ("42nd Street-Times Square", "S", 1) ]);
    (("Grand Central-42nd Street", "S"),
      [ ("42nd Street-Times Square", "1", 1); ("42nd Street-Times Square", "3", 1) ]);
    (("14th Street", "1"),
      [ ("14th Street", "2", 1); ("14th Street", "3", 1);
        ("14th Street-Union Square", "4", 2); ("14th Street-Union Square", "5", 2);
        ("14th Street-Union Square", "6", 2); ("14th Street-Union Square", "L", 1);
        ("14th Street", "N", 2); ("14th Street", "Q", 2); ("14th Street", "R", 2);
        ("14th Street", "W", 2); ("8th Avenue-14th Street", "A", 2);
        ("8th Avenue-14th Street", "C", 2); ("8th Avenue-14th Street", "E", 2);
        ("8th Avenue-14th Street", "L", 2) ]);
    (("Jay Street-MetroTech", "A"),
      [ ("Jay Street-MetroTech", "C", 1); ("Jay Street-MetroTech", "F", 2);
        ("Jay Street-MetroTech", "R", 2); ("High Street-Brooklyn Bridge", "A", 1) ]);
    (("Jay Street-MetroTech", "C"),
      [ ("Jay Street-MetroTech", "A", 1); ("Jay Street-MetroTech", "F", 2);
        ("Jay Street-MetroTech", "R", 2) ]);
    (("Fulton Street", "2"),
      [ ("Fulton Street", "3", 1); ("Fulton Street", "4", 1);
        ("Fulton Street", "5", 1); ("Fulton Street", "6", 1);
        ("Fulton Street", "A", 1); ("Fulton Street", "C", 1) ]);
    (("Fulton Street", "3"),
      [ ("Fulton Street", "2", 1); ("Fulton Street", "4", 1);
        ("Fulton Street", "5", 1); ("Fulton Street", "6", 1);
        ("Fulton Street", "A", 1); ("Fulton Street", "C", 1) ]);
    (("Fulton Street", "4"),
      [ ("Fulton Street", "2", 1); ("Fulton Street", "3", 1);
        ("Fulton Street", "5", 1); ("Fulton Street", "6", 1);
        ("Fulton Street", "A", 1); ("Fulton Street", "C", 1) ]);
    (("Fulton Street", "5"),
      [ ("Fulton Street", "2", 1); ("Fulton Street", "3", 1);
        ("Fulton Street", "4", 1); ("Fulton Street", "6", 1);
        ("Fulton Street", "A", 1); ("Fulton Street", "C", 1) ]);
    (("Fulton Street", "6"),
      [ ("Fulton Street", "2", 1); ("Fulton Street", "3", 1);
        ("Fulton Street", "4", 1); ("Fulton Street", "5", 1);
        ("Fulton Street", "A", 1); ("Fulton Street", "C", 1) ]);
    (("Fulton Street", "A"),
      [ ("Fulton Street", "C", 1); ("Fulton Street", "2", 1);
        ("Fulton Street", "3", 1); ("Fulton Street", "4", 1);
        ("Fulton Street", "5", 1); ("Fulton Street", "6", 1) ]);
    (("Fulton Street", "C"),
      [ ("Fulton Street", "A", 1); ("Fulton Street", "2", 1);
        ("Fulton Street", "3", 1); ("Fulton Street", "4", 1);
        ("Fulton Street", "5", 1); ("Fulton Street", "6", 1) ]);
    (("Canal Street", "A"),
      [ ("Canal Street", "C", 1); ("Canal Street", "1", 2); ("Canal Street", "2", 2);
        ("Canal Street", "4", 2); ("Canal Street", "5", 2); ("Canal Street", "6", 2);
        ("Jay Street-MetroTech", "A", 3) ]);
    (("Canal Street", "C"),
      [ ("Canal Street", "A", 1); ("Canal Street", "1", 2); ("Canal Street", "2", 2);
        ("Canal Street", "4", 2); ("Canal Street", "5", 2); ("Canal Street", "6", 2);
        ("Jay Street-MetroTech", "C", 3) ]) ].

End Topology.

(** [sorted(...)] on strings: Python orders [str] by code point, which is
    the order of [String.leb] on the ASCII names used here. *)
Definition str_le (a b : string) : Prop := String.leb a b.

Definition sorted (l : list string) : list string := merge_sort str_le l.

(** [graph[key].append(e)], with [graph[key] = []] first when the key is new. *)
Definition add_edge (key : node) (e : edge) (g : gmap node (list edge))
  : gmap node (list edge) :=
  <[key := default [] (g !! key) ++ [e]]> g.

(** One round of the inner loop of [_build_graph]: the pair
    [stations[i]], [stations[i + 1]] of [line], both directions. *)
Definition add_pair (line : string) (stations : list string)
    (g : gmap node (list edge)) (i : nat) : gmap node (list edge) :=
  match stations !! i, stations !! S i with
  | Some current_station, Some next_station =>
      let travel_time :=
        if bool_decide (0 < Z.of_nat i ∧ Z.of_nat i < Z.of_nat (length stations) - 2
                        ∧ Z.of_nat i `mod` 3 = 0)
        then 3 else 2 in
      add_edge (next_station, line) (current_station, line, travel_time)
        (add_edge (current_station, line) (next_station, line, travel_time) g)
  | _, _ => g
  end.

Definition add_line (g : gmap node (list edge)) (entry : string * list string)
  : gmap node (list edge) :=
  let '(line, stations) := entry in
  foldl (add_pair line stations) g (seq 0 (length stations - 1)).

(** The transfer loop of [_build_graph] for one key of [TRANSFER_POINTS]. *)
Definition add_transfers (g : gmap node (list edge)) (entry : node * list edge)
  : gmap node (list edge) :=
  let '(key, transfers) := entry in
  let g0 := match g !! key with Some _ => g | None => <[key := []]> g end in
  foldl (λ g' e, <[key := default [] (g' !! key) ++ [e]]> g') g0 transfers.

Definition _build_graph (lines : list (string * list string))
    (transfer_points : list (node * list edge)) : gmap node (list edge) :=
  foldl add_transfers (foldl add_line ∅ lines) transfer_points.

(** [_get_all_stations] *)
Definition _get_all_stations (lines : list (string * list string)) : list string :=
  sorted (elements (list_to_set (concat (lines.*2)) : gset string)).

Record SubwayGraph := {
  graph : gmap node (list edge);
  all_stations : list string;
}.

(** [SubwayGraph.__init__], with the two module tables as arguments. *)
Definition SubwayGraph_init (lines : list (string * list string))
    (transfer_points : list (node * list edge)) : SubwayGraph :=
  {| graph := _build_graph lines transfer_points;
     all_stations := _get_all_stations lines |}.

(** [SubwayGraph()] *)
Definition subway_graph : SubwayGraph :=
  SubwayGraph_init Topology.SUBWAY_LINES Topology.TRANSFER_POINTS.

Definition get_adjacent_stations (sg : SubwayGraph) (station line : string) : list edge :=
  default [] (graph sg !! (station, line)).

Definition get_available_lines (sg : SubwayGraph) (station : string) : list string :=
  let lines : gset string :=
    list_to_set ((λ k : node, k.2) <$>
                 filter (λ k : node, k.1 = station) (map_to_list (graph sg)).*1) in
  sorted (elements lines).

Definition validate_station (sg : SubwayGraph) (station : string) : bool :=
  bool_decide (station ∈ all_stations sg).

(** ** dijkstra_router.py *)

(** [weight_func(current_station, next_station, current_line, next_line,
    travel_time, is_transfer)] *)
Definition weight_fn : Type := string → string → string → string → Z → bool → Q.

(** A segment of a route: a ride on one line, or a transfer. *)
Inductive segment :=
  | Ride (line from to : string) (stops time_minutes : Z)
  | Transfer (station from_line to_line : string) (time_minutes : Z).

(** The route dictionary; ["name"] is absent until [generate_routes] sets it. *)
Record Route := {
  name : option string;
  stations : list string;
  lines : list string;
  segments : list segment;
  total_time_minutes : Z;
  total_transfers : Z;
  total_stops : Z;
}.

(** An entry of the priority queue: [(distance, station, line, transfers)]. *)
Definition pq_entry : Type := Q * string * string * Z.

Definition entry_node (e : pq_entry) : node := (e.1.1.2, e.1.2).
Definition entry_dist (e : pq_entry) : Q := e.1.1.1.

(** Python's order on these tuples: the first component that differs decides. *)
Definition entry_compare (a b : pq_entry) : comparison :=
  let '(d1, s1, l1, t1) := a in
  let '(d2, s2, l2, t2) := b in
  match (d1 ?= d2)%Q with
  | Eq => match String.compare s1 s2 with
          | Eq => match String.compare l1 l2 with
                  | Eq => t1 ?= t2
                  | c => c
                  end
          | c => c
          end
  | c => c
  end.

(** The heap is kept as the bag of its entries: [heappush] adds one, and
    [heappop] takes a least entry out.  Entries that compare equal are the
    same tuple, so which of them leaves first cannot be observed. *)
Definition heappush (pq : list pq_entry) (e : pq_entry) : list pq_entry := e :: pq.

Fixpoint extract_min (cur : pq_entry) (rest : list pq_entry) : pq_entry * list pq_entry :=
  match rest with
  | [] => (cur, [])
  | x :: rest' =>
      match entry_compare x cur with
      | Lt => let '(m, others) := extract_min x rest' in (m, cur :: others)
      | _ => let '(m, others) := extract_min cur rest' in (m, x :: others)
      end
  end.

Definition heappop (pq : list pq_entry) : option (pq_entry * list pq_entry) :=
  match pq with
  | [] => None
  | e :: rest => Some (extract_min e rest)
  end.

(** The local variables of [_dijkstra] that the loop updates. *)
Record search_state := {
  distances : gmap node Q;
  previous : gmap node (node * Z * bool);
  visited : gset node;
  pq : list pq_entry;
}.

(** The dictionary [_dijkstra] returns on success. *)
Record path_info := {
  start_station : string;
  end_station : string;
  total_distance : Q;
  pi_visited : gset node;
  pi_previous : gmap node (node * Z * bool);
  end_state : node;
  transfers : Z;
}.

(** [visited.add(n)]: the set [{[ n ]} ∪ visited] ([set_add_union] below),
    written as one insertion into the map under the set so that it runs in
    the time of one insertion. *)
Definition set_add (n : node) (visited : gset node) : gset node :=
  let (m) := visited in Mapset (<[n := ()]> m).

Section Router.

Context (sg : SubwayGraph).

Section Search.

Context (weight_func : option weight_fn) (max_transfers : Z).

(** The body of [for next_station, next_line, travel_time in adjacent]. *)
Definition relax (current_dist : Q) (current_station current_line : string)
    (transfers : Z) (st : search_state) (e : edge) : search_state :=
  let '(next_station, next_line, travel_time) := e in
  if decide ((next_station, next_line) ∈ visited st) then st
  else
    let is_transfer := bool_decide (next_line ≠ current_line) in
    let edge_weight :=
      match weight_func with
      | Some f => f current_station next_station current_line next_line
                    travel_time is_transfer
      | None => inject_Z travel_time
      end in
    let new_distance := (current_dist + edge_weight)%Q in
    let new_transfers := transfers + (if is_transfer then 1 else 0) in
    let better :=
      match distances st !! (next_station, next_line) with
      | None => true
      | Some d => Qltb new_distance d
      end in
    if better then
      {| distances := <[(next_station, next_line) := new_distance]> (distances st);
         previous := <[(next_station, next_line) :=
                         ((current_station, current_line), travel_time, is_transfer)]>
                       (previous st);
         visited := visited st;
         pq := heappush (pq st) (new_distance, next_station, next_line, new_transfers) |}
    else st.

(** [while pq: ...].  Each unit of fuel pays for one test of the loop
    condition; [None] means the fuel ran out, [Some r] that the function
    returned [r]. *)
Fixpoint dijkstra_loop (fuel : nat) (start_station end_station : string)
    (st : search_state) : option (option path_info) :=
  match fuel with
  | O => None
  | S fuel' =>
      match heappop (pq st) with
      | None => Some None
      | Some ((current_dist, current_station, current_line, transfers), pq') =>
          if decide ((current_station, current_line) ∈ visited st) then
            dijkstra_loop fuel' start_station end_station
              {| distances := distances st; previous := previous st;
                 visited := visited st; pq := pq' |}
          else
            let visited' := set_add (current_station, current_line) (visited st) in
            if decide (current_station = end_station) then
              Some (Some {| start_station := start_station;
                            end_station := end_station;
                            total_distance := current_dist;
                            pi_visited := visited';
                            pi_previous := previous st;
                            end_state := (current_station, current_line);
                            transfers := transfers |})
            else if bool_decide (max_transfers < transfers) then
              dijkstra_loop fuel' start_station end_station
                {| distances := distances st; previous := previous st;
                   visited := visited'; pq := pq' |}
            else
              let adjacent := get_adjacent_stations sg current_station current_line in
              dijkstra_loop fuel' start_station end_station
                (foldl (relax current_dist current_station current_line transfers)
                   {| distances := distances st; previous := previous st;
                      visited := visited'; pq := pq' |}
                   adjacent)
      end
  end.

(** The state before the loop. *)
Definition initial_state (start_station start_line : string) : search_state :=
  {| distances := {[ (start_station, start_line) := 0%Q ]};
     previous := ∅;
     visited := ∅;
     pq := [ (0%Q, start_station, start_line, 0) ] |}.

(** Every pass of the loop pops one entry, and entries are pushed only
    while a node is expanded for the first time, one per adjacency entry at
    most; so two more units of fuel than the graph has adjacency entries let
    the loop run to its end ([dijkstra_loop_returns] below). *)
Definition search_fuel : nat :=
  2 + sum_list (length <$> (map_to_list (graph sg)).*2).

Definition _dijkstra (start_station start_line end_station : string)
  : option path_info :=
  default None
    (dijkstra_loop search_fuel start_station end_station
       (initial_state start_station start_line)).

End Search.

(** The backtracking loop of [_extract_route]:
    [while current in path_info["previous"]].  [None] means the fuel ran out
    before the chain of predecessors ended. *)
Fixpoint backtrack (fuel : nat) (previous : gmap node (node * Z * bool))
    (current : node) (stations lines : list string)
    (total_time total_transfers : Z)
  : option (list string * list string * Z * Z) :=
  match fuel with
  | O => None
  | S fuel' =>
      match (previous !! current : option (node * Z * bool)) with
      | Some (prev, travel_time, is_transfer) =>
          backtrack fuel' previous prev (current.1 :: stations) (current.2 :: lines)
            (total_time + travel_time)
            (if is_transfer then total_transfers + 1 else total_transfers)
      | None =>
          Some (current.1 :: stations, current.2 :: lines, total_time, total_transfers)
      end
  end.

(** [for line in lines: if not unique_lines or unique_lines[-1] != line:
    unique_lines.append(line)] *)
Definition dedup_step (unique_lines : list string) (line : string) : list string :=
  match last unique_lines with
  | Some l => if decide (l = line) then unique_lines else unique_lines ++ [line]
  | None => unique_lines ++ [line]
  end.

Definition unique_lines_of (lines : list string) : list string :=
  foldl dedup_step [] lines.

(** The ride segment that closes the run [segment_stations] (never empty
    where the code builds one) on [segment_line]. *)
Definition ride_segment (segment_line : string) (segment_stations : list string)
  : segment :=
  let n := Z.of_nat (length segment_stations) - 1 in
  Ride segment_line (default "" (head segment_stations))
    (default "" (last segment_stations)) n (2 * n).

(** The body of [for i in range(1, len(stations))], on the pair
    [(stations[i], lines[i])]; the state is
    [(segments, segment_stations, segment_line)]. *)
Definition segment_step (acc : list segment * list string * string)
    (x : string * string) : list segment * list string * string :=
  let '(segments, segment_stations, segment_line) := acc in
  let '(station_i, line_i) := x in
  if decide (line_i ≠ segment_line) then
    (segments ++ [ride_segment segment_line segment_stations;
                  Transfer station_i segment_line line_i 2],
     [station_i], line_i)
  else (segments, segment_stations ++ [station_i], segment_line).

Definition build_segments (stations lines : list string) : list segment :=
  match stations, lines with
  | s0 :: stations', l0 :: lines' =>
      let '(segments, segment_stations, segment_line) :=
        foldl segment_step ([], [s0], l0) (zip stations' lines') in
      match segment_stations with
      | [] => segments
      | _ => segments ++ [ride_segment segment_line segment_stations]
      end
  | _, _ => []
  end.

(** One predecessor is followed per pass, and no node comes twice on the
    chain of a search result ([extract_route_returns] below). *)
Definition _extract_route (p : path_info) : option Route :=
  match backtrack (S (size (pi_previous p))) (pi_previous p) (end_state p) [] [] 0 0 with
  | Some (stations, lines, total_time, total_transfers) =>
      Some {| name := None;
              stations := stations;
              lines := unique_lines_of lines;
              segments := build_segments stations lines;
              total_time_minutes := total_time;
              total_transfers := total_transfers;
              total_stops := Z.of_nat (length stations) |}
  | None => None
  end.

(** [if path and path["total_distance"] < best_distance: best_path = path],
    where [best_distance] is infinite as long as [best_path] is [None]. *)
Definition pick_best (best_path : option path_info) (path : option path_info)
  : option path_info :=
  match path, best_path with
  | Some p, None => Some p
  | Some p, Some b =>
      if Qltb (total_distance p) (total_distance b) then Some p else best_path
  | None, _ => best_path
  end.

Definition find_shortest_path (start_station end_station : string)
    (weight_func : option weight_fn) (max_transfers : Z) : option Route :=
  if negb (validate_station sg start_station) then None
  else if negb (validate_station sg end_station) then None
  else if decide (start_station = end_station) then
    Some {| name := None;
            stations := [start_station];
            lines := [];
            segments := [];
            total_time_minutes := 0;
            total_transfers := 0;
            total_stops := 1 |}
  else
    match get_available_lines sg start_station with
    | [] => None
    | start_lines =>
        let best_path :=
          foldl (λ best start_line,
                   pick_best best
                     (_dijkstra weight_func max_transfers
                        start_station start_line end_station))
            None start_lines in
        match best_path with
        | None => None
        | Some p => _extract_route p
        end
    end.

End Router.

(** ** route_optimizer.py *)

(** [crime_data.get(station, 5)] *)
Definition crimes_at (crime_data : gmap string Z) (station : string) : Z :=
  default 5 (crime_data !! station).

Definition weight_safe (crime_data : gmap string Z) : weight_fn :=
  λ current next_station current_line next_line travel_time is_transfer,
    let crimes := crimes_at crime_data next_station in
    let crime_multiplier := (1 + inject_Z (Z.min crimes 20) / 10)%Q in
    let weight := (inject_Z travel_time * crime_multiplier)%Q in
    if is_transfer then (weight + 5)%Q else weight.

Definition weight_fast : weight_fn :=
  λ current next_station current_line next_line travel_time is_transfer,
    let weight := inject_Z travel_time in
    if is_transfer then (weight + 8)%Q else weight.

Definition weight_balanced (crime_data : gmap string Z) : weight_fn :=
  λ current next_station current_line next_line travel_time is_transfer,
    let crimes := crimes_at crime_data next_station in
    let crime_cost := (inject_Z (Z.min crimes 20) * (1 # 2))%Q in
    let transfer_cost := if is_transfer then 6%Q else 0%Q in
    (inject_Z travel_time * (1 # 2) + crime_cost * (35 # 100)
     + transfer_cost * (15 # 100))%Q.

(** A [RouteOptimizer]: its router (the graph) and its crime map. *)
Record RouteOptimizer := {
  router : SubwayGraph;
  ro_crime_data : gmap string Z;
}.

(** [find_shortest_path] is called without [max_transfers]: its default is 5. *)
Definition default_max_transfers : Z := 5.

Definition _generate_safe_route (ro : RouteOptimizer) (origin destination : string)
  : option Route :=
  find_shortest_path (router ro) origin destination
    (Some (weight_safe (ro_crime_data ro))) default_max_transfers.

Definition _generate_fast_route (ro : RouteOptimizer) (origin destination : string)
  : option Route :=
  find_shortest_path (router ro) origin destination
    (Some weight_fast) default_max_transfers.

Definition _generate_balanced_route (ro : RouteOptimizer) (origin destination : string)
  : option Route :=
  find_shortest_path (router ro) origin destination
    (Some (weight_balanced (ro_crime_data ro))) default_max_transfers.

(** [route["name"] = n] *)
Definition set_name (n : string) (r : Route) : Route :=
  {| name := Some n;
     stations := stations r;
     lines := lines r;
     segments := segments r;
     total_time_minutes := total_time_minutes r;
     total_transfers := total_transfers r;
     total_stops := total_stops r |}.

(** [if route: route["name"] = n; routes.append(route)] *)
Definition append_named (n : string) (route : option Route) (routes : list Route)
  : list Route :=
  match route with
  | Some r => routes ++ [set_name n r]
  | None => routes
  end.

Definition generate_routes (ro : RouteOptimizer) (origin destination : string)
  : option (list Route) :=
  let routes := [] in
  let safe_route := _generate_safe_route ro origin destination in
  let routes := append_named "SafeRoute" safe_route routes in
  let fast_route := _generate_fast_route ro origin destination in
  let routes := append_named "FastRoute" fast_route routes in
  let balanced_route := _generate_balanced_route ro origin destination in
  let routes := append_named "BalancedRoute" balanced_route routes in
  match routes with
  | [] => None
  | _ => Some routes
  end.

(** ** Inputs used in the examples below *)

(** Two stations with 0 and 10 recorded incidents. *)
Definition two_station_crime : gmap string Z :=
  <["Canal Street" := 0]> (<["14th Street" := 10]> ∅).

Definition two_station_scorer : Score.ScoreCalculator :=
  Score.new two_station_crime ∅.

(** ** Vocabulary of the statements *)

(** [a] and [b] are next to each other, in either order, on the station
    list of [line]. *)
Definition adjacent_on (lines : list (string * list string)) (line a b : string) : Prop :=
  ∃ stations i,
    (line, stations) ∈ lines ∧
    ((stations !! i = Some a ∧ stations !! S i = Some b) ∨
     (stations !! i = Some b ∧ stations !! S i = Some a)).

(** [e] is listed under the key [from] in the transfer table. *)
Definition declared_transfer (transfer_points : list (node * list edge))
    (from : node) (e : edge) : Prop :=
  ∃ transfers, (from, transfers) ∈ transfer_points ∧ e ∈ transfers.

(** What an adjacency entry [e] of the node [n] may be. *)
Definition edge_origin (lines : list (string * list string))
    (transfer_points : list (node * list edge)) (n : node) (e : edge) : Prop :=
  (e.1.2 = n.2 ∧ adjacent_on lines n.2 n.1 e.1.1) ∨ declared_transfer transfer_points n e.

(** [s] is a station of the network described by [lines]. *)
Definition is_station (lines : list (string * list string)) (s : string) : Prop :=
  ∃ line stations, (line, stations) ∈ lines ∧ s ∈ stations.

(** The route [find_shortest_path] returns when origin and destination are
    the same station. *)
Definition single_station_route (s : string) : Route :=
  {| name := None;
     stations := [s];
     lines := [];
     segments := [];
     total_time_minutes := 0;
     total_transfers := 0;
     total_stops := 1 |}.

(** No two neighbours in [l] are equal. *)
Definition no_equal_neighbours (l : list string) : Prop :=
  ∀ i a b, l !! i = Some a → l !! S i = Some b → a ≠ b.

(** The visiting order of a search, latest node first: the start node was
    visited first and has no predecessor; every other visited node has a
    predecessor that was visited before it. *)
Inductive settled_order (start : node) (previous : gmap node (node * Z * bool))
  : list node → Prop :=
  | settled_start :
      previous !! start = None →
      settled_order start previous [start]
  | settled_next n p t b order :
      previous !! n = Some (p, t, b) →
      p ∈ order →
      n ∉ order →
      settled_order start previous order →
      settled_order start previous (n :: order).

(** Every adjacency entry of [g] is a ride step or a declared transfer. *)
Definition edges_accounted (lines : list (string * list string))
    (transfer_points : list (node * list edge)) (g : gmap node (list edge)) : Prop :=
  ∀ n es e, g !! n = Some es → e ∈ es → edge_origin lines transfer_points n e.

(** What holds of the variables of [_dijkstra] each time the loop condition
    is tested, as far as the predecessor links go.  [order] lists the visited
    nodes, latest first. *)
Definition links_inv (start : node) (st : search_state) (order : list node) : Prop :=
  (∀ n, n ∈ visited st ↔ n ∈ order) ∧
  (order = [] ∨ settled_order start (previous st) order) ∧
  (∀ n p t b, previous st !! n = Some (p, t, b) → p ∈ order) ∧
  (∀ e, e ∈ pq st → entry_node e = start ∨ is_Some (previous st !! entry_node e)) ∧
  previous st !! start = None.

(** The adjacency entries of the nodes that are not visited yet: an upper
    bound of the pushes still to come. *)
Definition unvisited_degree (g : gmap node (list edge)) (visited : gset node) : nat :=
  sum_list ((λ kv : node * list edge,
               if decide (kv.1 ∈ visited) then 0%nat else length kv.2)
            <$> map_to_list g).

(** ** Re-scoring a route *)

(** The cost [_dijkstra] charges for following the adjacency entry [e] out
    of the node [u]: [edge_weight] in the source. *)
Definition edge_cost (weight_func : option weight_fn) (u : node) (e : edge) : Q :=
  match weight_func with
  | Some f => f u.1 e.1.1 u.2 e.1.2 e.2 (bool_decide (e.1.2 ≠ u.2))
  | None => inject_Z e.2
  end.

(** A traversed edge: the node it leaves and the adjacency entry followed. *)
Definition hop : Type := node * edge.

Definition hop_target (h : hop) : node := (h.2.1.1, h.2.1.2).

(** Sum of the edge costs of a list of traversed edges, in travel order. *)
Definition hops_cost (weight_func : option weight_fn) (hs : list hop) : Q :=
  py_sum ((λ h : hop, edge_cost weight_func h.1 h.2) <$> hs).

(** The stations a list of traversed edges passes, and its travel time. *)
Definition hops_stations (hs : list hop) : list string :=
  (λ h : hop, h.2.1.1) <$> hs.

Definition hops_time (hs : list hop) : Z :=
  foldl (λ acc (h : hop), acc + h.2.2) 0 hs.

(** [hs] leads from [a] to [b] along adjacency entries of the graph. *)
Inductive walk (sg : SubwayGraph) (a : node) : list hop → node → Prop :=
  | walk_here : walk sg a [] a
  | walk_step hs u e :
      walk sg a hs u →
      e ∈ get_adjacent_stations sg u.1 u.2 →
      walk sg a (hs ++ [(u, e)]) (e.1.1, e.1.2).

(** The edges a search result traverses, read off the predecessor links the
    way [_extract_route] reads the stations. *)
Fixpoint backtrack_hops (fuel : nat) (previous : gmap node (node * Z * bool))
    (current : node) (hops : list hop) : option (list hop) :=
  match fuel with
  | O => None
  | S fuel' =>
      match (previous !! current : option (node * Z * bool)) with
      | Some (prev, travel_time, is_transfer) =>
          backtrack_hops fuel' previous prev
            ((prev, (current.1, current.2, travel_time)) :: hops)
      | None => Some hops
      end
  end.

Definition hops_of (p : path_info) : option (list hop) :=
  backtrack_hops (S (size (pi_previous p))) (pi_previous p) (end_state p) [].

(** [best_path] of [find_shortest_path] after its loop over the start lines. *)
Definition search_best (sg : SubwayGraph) (weight_func : option weight_fn)
    (max_transfers : Z) (start_station end_station : string) : option path_info :=
  foldl (λ best start_line,
           pick_best best
             (_dijkstra sg weight_func max_transfers
                start_station start_line end_station))
    None (get_available_lines sg start_station).

(** The traversed edges of the route [find_shortest_path] returns. *)
Definition route_hops (sg : SubwayGraph) (weight_func : option weight_fn)
    (max_transfers : Z) (start_station end_station : string) : list hop :=
  match search_best sg weight_func max_transfers start_station end_station with
  | Some p => default [] (hops_of p)
  | None => []
  end.

(** Each named route is at most as costly as the two others under the
    weight function it is named for. *)
Definition named_routes_optimal (ro : RouteOptimizer) (origin destination : string)
  : Prop :=
  let safe := Some (weight_safe (ro_crime_data ro)) in
  let fast := Some weight_fast in
  let balanced := Some (weight_balanced (ro_crime_data ro)) in
  let hs := route_hops (router ro) safe default_max_transfers origin destination in
  let hf := route_hops (router ro) fast default_max_transfers origin destination in
  let hb := route_hops (router ro) balanced default_max_transfers origin destination in
  ((hops_cost fast hf <= hops_cost fast hs)%Q ∧
   (hops_cost fast hf <= hops_cost fast hb)%Q) ∧
  ((hops_cost safe hs <= hops_cost safe hf)%Q ∧
   (hops_cost safe hs <= hops_cost safe hb)%Q) ∧
  ((hops_cost balanced hb <= hops_cost balanced hs)%Q ∧
   (hops_cost balanced hb <= hops_cost balanced hf)%Q).

(** Search results can be compared for equality. *)
Global Instance Q_eq_dec : EqDecision Q.
Proof. solve_decision. Defined.

Global Instance path_info_eq_dec : EqDecision path_info.
Proof. solve_decision. Defined.

(** The transfer ceiling does not come into play in the searches from
    [start_station]: each of them returns what it returns under a ceiling
    that no search of this graph can reach. *)
Definition ceiling_idle (sg : SubwayGraph) (weight_func : option weight_fn)
    (max_transfers : Z) (start_station end_station : string) : Prop :=
  ∀ start_line, start_line ∈ get_available_lines sg start_station →
    _dijkstra sg weight_func max_transfers start_station start_line end_station
    = _dijkstra sg weight_func (Z.of_nat (search_fuel sg))
        start_station start_line end_station.

(** No adjacency entry of the graph has a negative cost. *)
Definition nonneg_costs (sg : SubwayGraph) (weight_func : option weight_fn) : Prop :=
  ∀ u es e, graph sg !! u = Some es → e ∈ es → (0 <= edge_cost weight_func u e)%Q.

(** No adjacency entry of the graph has a negative travel time. *)
Definition nonneg_times (sg : SubwayGraph) : Prop :=
  ∀ u es e, graph sg !! u = Some es → e ∈ es → 0 ≤ e.2.

(** What holds of the distances each time the loop condition of
    [_dijkstra] is tested. *)
Definition dist_inv (sg : SubwayGraph) (weight_func : option weight_fn)
    (start : node) (st : search_state) : Prop :=
  (∀ en, en ∈ pq st →
     ∃ d, distances st !! entry_node en = Some d ∧ (d <= entry_dist en)%Q) ∧
  (∀ n d, distances st !! n = Some d → n ∉ visited st →
     ∃ tr, (d, n.1, n.2, tr) ∈ pq st) ∧
  (∀ v u t b, previous st !! v = Some (u, t, b) →
     (v.1, v.2, t) ∈ get_adjacent_stations sg u.1 u.2 ∧
     ∃ du dv, distances st !! u = Some du ∧ distances st !! v = Some dv ∧
              dv == du + edge_cost weight_func u (v.1, v.2, t)) ∧
  (∃ d0, distances st !! start = Some d0 ∧ d0 == 0).

(** What holds in addition while no node has been pruned and no edge cost is
    negative: visited nodes are expanded, the queue holds nothing cheaper
    than a visited node, and no visited node is at the destination. *)
Definition opt_inv (sg : SubwayGraph) (weight_func : option weight_fn)
    (end_station : string) (st : search_state) : Prop :=
  (∀ u e, u ∈ visited st → e ∈ get_adjacent_stations sg u.1 u.2 →
     ∃ du dv, distances st !! u = Some du ∧
              distances st !! (e.1.1, e.1.2) = Some dv ∧
              (dv <= du + edge_cost weight_func u e)%Q) ∧
  (∀ u, u ∈ visited st →
     ∃ du, distances st !! u = Some du ∧
           ∀ en, en ∈ pq st → (du <= entry_dist en)%Q) ∧
  (∀ u, u ∈ visited st → u.1 ≠ end_station).

(** The same while the node [cur], popped at distance [d], is being
    expanded and the adjacency entries [done] have been relaxed. *)
Definition expanding (sg : SubwayGraph) (weight_func : option weight_fn)
    (end_station : string) (cur : node) (d : Q) (done : list edge)
    (st : search_state) : Prop :=
  (∃ dcur, distances st !! cur = Some dcur ∧ dcur == d) ∧
  (∀ u, u ∈ visited st → ∃ du, distances st !! u = Some du ∧ (du <= d)%Q) ∧
  (∀ u e, u ∈ visited st → u ≠ cur → e ∈ get_adjacent_stations sg u.1 u.2 →
     ∃ du dv, distances st !! u = Some du ∧
              distances st !! (e.1.1, e.1.2) = Some dv ∧
              (dv <= du + edge_cost weight_func u e)%Q) ∧
  (∀ e, e ∈ done →
     ∃ dv, distances st !! (e.1.1, e.1.2) = Some dv ∧
           (dv <= d + edge_cost weight_func cur e)%Q) ∧
  (∀ en, en ∈ pq st → (d <= entry_dist en)%Q) ∧
  (∀ u, u ∈ visited st → u.1 ≠ end_station).

(** All of it, with the bound on the transfer counters of the queue that
    keeps a ceiling of [ceiling] out of reach for [fuel] more passes. *)
Definition search_inv (sg : SubwayGraph) (weight_func : option weight_fn)
    (ceiling : Z) (start : node) (end_station : string) (fuel : nat)
    (st : search_state) : Prop :=
  (∃ order, links_inv start st order) ∧
  dist_inv sg weight_func start st ∧
  opt_inv sg weight_func end_station st ∧
  (∀ en : pq_entry, en ∈ pq st → en.2 ≤ ceiling - Z.of_nat fuel).

(** What an uncapped search that ends at [end_station] has found. *)
Definition optimal_result (sg : SubwayGraph) (weight_func : option weight_fn)
    (start : node) (end_station : string) (p : path_info) : Prop :=
  (end_state p).1 = end_station ∧
  ∃ hs, hops_of p = Some hs ∧
        walk sg start hs (end_state p) ∧
        hops_cost weight_func hs == total_distance p ∧
        ∀ hs' x, walk sg start hs' x → x.1 = end_station →
                 (total_distance p <= hops_cost weight_func hs')%Q.

(** ** A topology on which the ceiling decides *)



Definition toy_crime : gmap string Z :=
  list_to_map [("O", 0); ("H", 0); ("D", 0);
               ("Y1", 20); ("Y2", 20); ("Y3", 20); ("Y4", 20)].


(** The optimizer of the service, with the crime map of the
    specification's example. *)
Definition example_optimizer : RouteOptimizer :=
  {| router := subway_graph;
     ro_crime_data := {[ "42nd Street-Times Square" := 15 ]} |}.

(** ** score_calculator.py: the remaining methods *)

(** The dictionary [calculate_route_scores] returns. *)
Record route_scores := {
  safety_score : Z;
  reliability_score : Z;
  efficiency_score : Z;
}.

Definition calculate_route_scores (sc : Score.ScoreCalculator) (route : Route)
  : route_scores :=
  {| safety_score := Score.calculate_safety_score sc (stations route);
     reliability_score := Score.calculate_reliability_score sc (lines route);
     efficiency_score :=
       Score.calculate_efficiency_score (total_transfers route)
         (total_time_minutes route) |}.

(** [get_score_interpretation]; [pretty] writes an integer in decimal, as
    the f-string does. *)
Definition get_score_interpretation (score_type : string) (score : Z) : string :=
  if decide (score_type = "safety") then
    if bool_decide (9 ≤ score) then "Very safe"
    else if bool_decide (7 ≤ score) then "Safe"
    else if bool_decide (5 ≤ score) then "Moderate"
    else if bool_decide (3 ≤ score) then "Less safe"
    else "Avoid if possible"
  else if decide (score_type = "reliability") then
    if bool_decide (9 ≤ score) then "Excellent (95%+ on-time)"
    else if bool_decide (7 ≤ score) then "Good (90-95% on-time)"
    else if bool_decide (5 ≤ score) then "Average (85-90% on-time)"
    else if bool_decide (3 ≤ score) then "Poor (75-85% on-time)"
    else "Very unreliable (<75%)"
  else if decide (score_type = "efficiency") then
    if bool_decide (9 ≤ score) then "Direct (0 transfers)"
    else if bool_decide (7 ≤ score) then "Very efficient (1 transfer)"
    else if bool_decide (5 ≤ score) then "Efficient (2 transfers)"
    else if bool_decide (3 ≤ score) then "Multiple transfers (3)"
    else "Many transfers (4+)"
  else "Score: " +:+ pretty score +:+ "/10".

(** The [on_time_percent] entries of [LINE_PERFORMANCE] in subway_graph.py;
    the scores read no other entry of the table. *)
Definition LINE_PERFORMANCE : gmap string Score.line_data :=
  list_to_map
    ((λ kv : string * Z, (kv.1, Score.PerfDict (Some (inject_Z kv.2)))) <$>
     [ ("1", 88); ("2", 85); ("3", 85); ("4", 87); ("5", 86); ("6", 88);
       ("A", 82); ("C", 81); ("E", 83); ("F", 78); ("G", 80); ("N", 79);
       ("Q", 84); ("R", 80); ("W", 77); ("L", 85); ("7", 83); ("S", 92) ]).

(** The calculator as the service builds it:
    [ScoreCalculator(crime_data={}, line_performance=LINE_PERFORMANCE)]. *)
Definition service_scorer : Score.ScoreCalculator :=
  Score.new ∅ LINE_PERFORMANCE.

(** The entry [d] of a [line_performance] dict carries an [int] between 0
    and 100, as a plain number or under ["on_time_percent"].  A Python
    [int] [z] is the fraction [z / 1] here. *)
Definition whole_percent (d : Score.line_data) : bool :=
  match d with
  | Score.PerfDict (Some q) | Score.PerfPlain q =>
      bool_decide (Qden q = 1%positive ∧ 0 ≤ Qnum q ≤ 100)
  | Score.PerfDict None => false
  end.

(** ** subway_graph.py: the remaining queries *)

(** [find_common_lines] *)
Definition find_common_lines (sg : SubwayGraph) (station1 station2 : string)
  : list string :=
  let lines1 : gset string := list_to_set (get_available_lines sg station1) in
  let lines2 : gset string := list_to_set (get_available_lines sg station2) in
  sorted (elements (lines1 ∩ lines2)).

(** The minutes [_build_graph] gives the pair [stations[i]],
    [stations[i + 1]] of a line with [n] stations. *)
Definition ride_time (n i : nat) : Z :=
  if bool_decide (0 < Z.of_nat i ∧ Z.of_nat i < Z.of_nat n - 2 ∧ Z.of_nat i `mod` 3 = 0)
  then 3 else 2.

(** The adjacency entry [e] is listed under the node [n]. *)
Definition has_edge (g : gmap node (list edge)) (n : node) (e : edge) : Prop :=
  e ∈ default [] (g !! n).

(** ** dijkstra_router.py: the module's weight functions *)

Definition weight_time_only : weight_fn :=
  λ current next_station current_line next_line travel_time is_transfer,
    inject_Z travel_time.

(** [penalty] is the last parameter in the source, with default 5.0. *)
Definition weight_with_transfer_penalty (penalty : Q) : weight_fn :=
  λ current next_station current_line next_line travel_time is_transfer,
    let weight := inject_Z travel_time in
    if is_transfer then (weight + penalty)%Q else weight.

(** [crime_data] is the last parameter in the source. *)
Definition weight_with_crime (crime_data : gmap string Z) : weight_fn :=
  λ current next_station current_line next_line travel_time is_transfer,
    let crimes := crimes_at crime_data next_station in
    let crime_multiplier := (1 + inject_Z crimes / 10)%Q in
    let weight := (inject_Z travel_time * crime_multiplier)%Q in
    if is_transfer then (weight + 5)%Q else weight.

(** ** Vocabulary of the route properties *)

(** The lines a list of traversed edges arrives on. *)
Definition hops_lines (hs : list hop) : list string :=
  (λ h : hop, h.2.1.2) <$> hs.

(** How often two neighbours of [ls] differ. *)
Fixpoint line_changes (ls : list string) : Z :=
  match ls with
  | a :: (b :: _) as rest => (if decide (a = b) then 0 else 1) + line_changes rest
  | _ => 0
  end.

(** Every predecessor link was written for an adjacency entry of the graph,
    with the flag that tells whether the entry changes the line. *)
Definition links_checked (sg : SubwayGraph) (previous : gmap node (node * Z * bool))
  : Prop :=
  ∀ v u t b, previous !! v = Some (u, t, b) →
    (v.1, v.2, t) ∈ get_adjacent_stations sg u.1 u.2 ∧ b = bool_decide (v.2 ≠ u.2).

(** The stops a segment rides, and the transfer segments of a list. *)
Definition segment_stops (s : segment) : Z :=
  match s with
  | Ride _ _ _ stops _ => stops
  | Transfer _ _ _ _ => 0
  end.

Definition is_transfer_segment (s : segment) : bool :=
  match s with
  | Ride _ _ _ _ _ => false
  | Transfer _ _ _ _ => true
  end.

Definition ride_stops (segs : list segment) : Z :=
  foldr (λ s acc, segment_stops s + acc) 0 segs.

Definition transfer_segments (segs : list segment) : Z :=
  Z.of_nat (length (filter (λ s, is_transfer_segment s = true) segs)).

(** The first segment is a ride on [line] that leaves [station], resp. the
    last one a ride that arrives at [station]. *)
Definition rides_from (station : string) (s : segment) : Prop :=
  ∃ line to stops time, s = Ride line station to stops time.

Definition rides_to (station : string) (s : segment) : Prop :=
  ∃ line from stops time, s = Ride line from station stops time.

(** The fastest route of the shipped network from South Ferry to Grand
    Central: line 1 to Canal Street, a transfer there, line 4 onwards. *)
Definition example_route : Route :=
  {| name := None;
     stations :=
       ["South Ferry"; "Rector Street"; "Cortlandt Street"; "Chambers Street";
        "Franklin Street"; "Canal Street"; "Canal Street";
        "14th Street-Union Square"; "18th Street"; "23rd Street-Lexington";
        "28th Street-Lexington"; "33rd Street"; "Grand Central-42nd Street"];
     lines := ["1"; "4"];
     segments :=
       [Ride "1" "South Ferry" "Canal Street" 5 10;
        Transfer "Canal Street" "1" "4" 2;
        Ride "4" "Canal Street" "Grand Central-42nd Street" 6 12];
     total_time_minutes := 27;
     total_transfers := 1;
     total_stops := 13 |}.
(** ** route_optimizer.py: ranking *)

(** [sorted(l, key=key)] with integer keys.  Python's sort is stable, so
    the result is the one list that is ordered by key and keeps elements of
    equal key in their order in [l]; inserting the elements from the last to
    the first, each in front of the first element whose key is not smaller,
    builds that list. *)
Fixpoint insert_by {A} (key : A → Z) (x : A) (l : list A) : list A :=
  match l with
  | [] => [x]
  | y :: l' =>
      if bool_decide (key x ≤ key y) then x :: y :: l' else y :: insert_by key x l'
  end.

Definition sorted_by {A} (key : A → Z) (l : list A) : list A :=
  foldr (insert_by key) [] l.

(** [sum(self.crime_data.get(station, 5) for station in r["stations"])] *)
Definition route_crime_sum (crime_data : gmap string Z) (r : Route) : Z :=
  foldl Z.add 0 (crimes_at crime_data <$> stations r).

Definition rank_routes_by_criterion (ro : RouteOptimizer) (routes : list Route)
    (criterion : string) : list Route :=
  if decide (criterion = "safe") then
    sorted_by (route_crime_sum (ro_crime_data ro)) routes
  else if decide (criterion = "fast") then
    sorted_by total_time_minutes routes
  else if decide (criterion = "balanced") then
    sorted_by total_transfers routes
  else routes.

(** The key each criterion orders by. *)
Definition ranking_key (ro : RouteOptimizer) (criterion : string) (r : Route) : Z :=
  if decide (criterion = "safe") then route_crime_sum (ro_crime_data ro) r
  else if decide (criterion = "fast") then total_time_minutes r
  else if decide (criterion = "balanced") then total_transfers r
  else 0.

(** ** lambda_function.py: station names *)

(** [needle in hay] on strings. *)
Definition py_in (needle hay : string) : bool :=
  bool_decide (is_Some (String.index 0 needle hay)).

(** [s.split('-')[0]]: the part of [s] before its first hyphen. *)
Fixpoint before_hyphen (s : string) : string :=
  match s with
  | EmptyString => EmptyString
  | String c s' => if String.eqb (String c EmptyString) "-" then EmptyString else String c (before_hyphen s')
  end.

Section ResolveStation.

(** [str.lower], which the properties below do not look into. *)
Context (lower : string → string).

Definition resolve_station (sg : SubwayGraph) (address_or_station : string)
  : option string :=
  if decide (address_or_station = "") then None
  else if bool_decide (address_or_station ∈ all_stations sg) then
    Some address_or_station
  else
    let normalized_input := lower address_or_station in
    match List.find (λ station_name,
                       bool_decide (normalized_input = lower station_name))
            (all_stations sg) with
    | Some station_name => Some station_name
    | None =>
        List.find (λ station_name,
                     py_in normalized_input (lower station_name)
                     || py_in (before_hyphen (lower station_name)) normalized_input)
          (all_stations sg)
    end.

End ResolveStation.

(** [str.lower] on ASCII text. *)
Fixpoint ascii_lower (s : string) : string :=
  match s with
  | EmptyString => EmptyString
  | String c s' =>
      let n := Ascii.nat_of_ascii c in
      String (if bool_decide (65 ≤ n ≤ 90)%nat then Ascii.ascii_of_nat (n + 32) else c)
        (ascii_lower s')
  end.

(** ** Vocabulary of the ceiling property *)

(** What holds of the transfer counters of [_dijkstra] each time the loop
    condition is tested.  [tr_of] gives every node the counter of the pop
    that visits it or, before that, of its entry with the node's current
    distance: the start node counts 0; a node with a predecessor counts
    what the predecessor counts, one more if the link changes the line, and
    the predecessor, which has been expanded, stays within the ceiling. *)
Definition count_inv (max_transfers : Z) (start : node) (st : search_state)
    (tr_of : node → Z) : Prop :=
  tr_of start = 0 ∧
  (∀ v u t (b : bool), previous st !! v = Some (u, t, b) →
     tr_of v = tr_of u + (if b then 1 else 0) ∧ tr_of u ≤ max_transfers) ∧
  (∀ (en : pq_entry) d, en ∈ pq st →
     distances st !! entry_node en = Some d → d == entry_dist en →
     en.2 = tr_of (entry_node en)).

(** ** score_calculator.py: the crime baseline *)

(** The dictionary [_calculate_crime_baseline] returns, without its
    ['std_dev'] entry (a square root, which no score reads). *)
Record crime_baseline := {
  cb_mean : Q;
  cb_median : Q;
  cb_min : Z;
  cb_max : Z;
  cb_p25 : Z;
  cb_p50 : Z;
  cb_p75 : Z;
}.

(** [min(l)] and [max(l)] of a list that is not empty. *)
Definition py_min_list (x : Z) (xs : list Z) : Z := foldl Z.min x xs.
Definition py_max_list (x : Z) (xs : list Z) : Z := foldl Z.max x xs.

(** [statistics.median] of a sorted list; [None] stands for an index out
    of range. *)
Definition median (sorted_data : list Z) : option Q :=
  let n := length sorted_data in
  if Nat.even n then
    a ← sorted_data !! (n / 2 - 1)%nat;
    b ← sorted_data !! (n / 2)%nat;
    Some ((inject_Z a + inject_Z b) / 2)%Q
  else
    a ← sorted_data !! (n / 2)%nat;
    Some (inject_Z a).

(** [_calculate_crime_baseline]; [None] stands for an [IndexError].
    [int(n * 0.25)], [int(n * 0.50)] and [int(n * 0.75)] are the integer
    quotients of [n], [2 n] and [3 n] by 4. *)
Definition _calculate_crime_baseline (crime_data : gmap string Z)
  : option crime_baseline :=
  match Score.values crime_data with
  | [] =>
      Some {| cb_mean := 5; cb_median := 5; cb_min := 0; cb_max := 20;
              cb_p25 := 3; cb_p50 := 5; cb_p75 := 8 |}
  | c :: cs =>
      let crimes := c :: cs in
      let sorted_crimes := merge_sort Z.le crimes in
      let n := length sorted_crimes in
      med ← median sorted_crimes;
      p25 ← sorted_crimes !! (n / 4)%nat;
      p50 ← sorted_crimes !! (2 * n / 4)%nat;
      p75 ← sorted_crimes !! (3 * n / 4)%nat;
      Some {| cb_mean := Score.mean (inject_Z <$> crimes);
              cb_median := med;
              cb_min := py_min_list c cs;
              cb_max := py_max_list c cs;
              cb_p25 := p25; cb_p50 := p50; cb_p75 := p75 |}
  end.

(** * Properties *)

(** ** Rounding and comparisons *)

Lemma Qleb_true a b : Qleb a b = true ↔ (a <= b)%Q.
Proof.
  unfold Qleb. destruct (Qcompare_spec a b) as [H|H|H]; split; intros; try done.
  - rewrite H. apply Qle_refl.
  - by apply Qlt_le_weak.
  - exfalso. by apply (Qlt_not_le b a).
Qed.

Lemma Qleb_false a b : Qleb a b = false ↔ (b < a)%Q.
Proof.
  unfold Qleb. destruct (Qcompare_spec a b) as [H|H|H]; split; intros; try done.
  - exfalso. rewrite H in H0. by apply (Qlt_irrefl b).
  - exfalso. apply (Qlt_irrefl a). by transitivity b.
Qed.

Lemma Qltb_true a b : Qltb a b = true ↔ (a < b)%Q.
Proof.
  unfold Qltb. destruct (Qcompare_spec a b) as [H|H|H]; split; intros; try done.
  - exfalso. rewrite H in H0. by apply (Qlt_irrefl b).
  - exfalso. apply (Qlt_irrefl a). by transitivity b.
Qed.

Lemma Qltb_false a b : Qltb a b = false ↔ (b <= a)%Q.
Proof.
  unfold Qltb. destruct (Qcompare_spec a b) as [H|H|H]; split; intros; try done.
  - rewrite H. apply Qle_refl.
  - exfalso. by apply (Qlt_not_le a b).
  - by apply Qlt_le_weak.
Qed.

(** Rounding keeps a value between the integers that bound it. *)
Lemma py_round_between (a b : Z) (x : Q) :
  (inject_Z a <= x)%Q → (x <= inject_Z b)%Q → a ≤ py_round x ≤ b.
Proof.
  intros Ha Hb.
  assert (Hfa : a ≤ Qfloor x).
  { rewrite <- (Qfloor_Z a). by apply Qfloor_resp_le. }
  assert (Hfb : Qfloor x ≤ b).
  { rewrite <- (Qfloor_Z b). by apply Qfloor_resp_le. }
  assert (Hup : (inject_Z (Qfloor x) < x)%Q → Qfloor x + 1 ≤ b).
  { intros Hlt. assert (Qfloor x < b); [|lia].
    rewrite Zlt_Qlt. eapply Qlt_le_trans; eauto. }
  pose proof (Qfloor_le x) as Hfl.
  unfold py_round.
  destruct (Qcompare_spec (x - inject_Z (Qfloor x)) (1 # 2)) as [H|H|H].
  - destruct (Z.even (Qfloor x)); [lia|].
    split; [lia|]. apply Hup. lra.
  - lia.
  - split; [lia|]. apply Hup. lra.
Qed.

(** ** Scores *)

Section ScoreProperties.
Import Score.

Lemma py_round_comp x y : x == y → py_round x = py_round y.
Proof.
  intros E. unfold py_round. rewrite (Qfloor_comp _ _ E).
  assert ((x - inject_Z (Qfloor y) ?= 1 # 2)%Q = (y - inject_Z (Qfloor y) ?= 1 # 2)%Q) as ->.
  { apply Qcompare_comp; [by rewrite E | reflexivity]. }
  done.
Qed.

Lemma py_min_le a b : (a <= b)%Q → py_min a b = a.
Proof.
  intros H. unfold py_min. destruct (Qcompare_spec b a) as [E|E|E]; try done.
  exfalso. by apply (Qlt_not_le b a).
Qed.

Lemma py_min_gt a b : (b < a)%Q → py_min a b = b.
Proof. intros H. unfold py_min. by apply Qlt_alt in H as ->. Qed.

Lemma py_max_ge a b : (b <= a)%Q → py_max a b = a.
Proof.
  intros H. unfold py_max. destruct (Qcompare_spec b a) as [E|E|E]; try done.
  exfalso. by apply (Qlt_not_le a b).
Qed.

Lemma py_max_lt a b : (a < b)%Q → py_max a b = b.
Proof. intros H. unfold py_max. by apply Qgt_alt in H as ->. Qed.

Lemma tier_range p : (0 <= p)%Q → (2 <= tier p)%Q ∧ (tier p <= 10)%Q.
Proof.
  intros Hp. unfold tier, Qdiv.
  change (/ 15)%Q with (1 # 15)%Q. change (/ 25)%Q with (1 # 25)%Q.
  destruct (Qleb 90 p) eqn:H90; [split; lra|]. apply Qleb_false in H90.
  destruct (Qleb 75 p) eqn:H75.
  { apply Qleb_true in H75. split; lra. }
  apply Qleb_false in H75.
  destruct (Qleb 50 p) eqn:H50.
  { apply Qleb_true in H50. split; lra. }
  apply Qleb_false in H50.
  destruct (Qleb 25 p) eqn:H25.
  { apply Qleb_true in H25. split; lra. }
  apply Qleb_false in H25. split; lra.
Qed.

Lemma py_count_le_len {A} (p : A → bool) (l : list A) :
  (0 <= py_count p l)%Q ∧ (py_count p l <= py_len l)%Q.
Proof.
  unfold py_count, py_len. split.
  - change 0%Q with (inject_Z 0). rewrite <- Zle_Qle. lia.
  - rewrite <- Zle_Qle. pose proof (length_filter (λ x, p x = true) l). lia.
Qed.

Lemma py_len_pos {A} (l : list A) : l ≠ [] → (0 < py_len l)%Q.
Proof.
  intros H. unfold py_len. change 0%Q with (inject_Z 0). rewrite <- Zlt_Qlt.
  destruct l; [done | simpl; lia].
Qed.

Lemma share_nonneg (k n : Q) : (0 <= k)%Q → (0 < n)%Q → (0 <= k / n * 100)%Q.
Proof.
  intros Hk Hn. apply Qmult_le_0_compat; [|lra].
  apply Qle_shift_div_l; lra.
Qed.

Lemma safety_percentile_nonneg sc stations : (0 <= safety_percentile sc stations)%Q.
Proof.
  unfold safety_percentile.
  destruct (values (crime_data sc)) as [|c cs] eqn:E.
  - destruct (Qleb _ _); lra.
  - pose proof (py_count_le_len
      (λ c0, Qleb (route_avg_crime sc stations) (inject_Z c0)) (c :: cs)) as [_ H].
    apply share_nonneg; [lra | by apply py_len_pos].
Qed.

Lemma reliability_percentile_nonneg sc lines : (0 <= reliability_percentile sc lines)%Q.
Proof.
  unfold reliability_percentile.
  destruct (perf_or 85 <$> values (line_performance sc)) as [|c cs] eqn:E.
  - destruct (Qleb _ _); lra.
  - pose proof (py_count_le_len
      (λ p, Qltb p (route_avg_performance sc lines)) (c :: cs)) as [H _].
    apply share_nonneg; [done | by apply py_len_pos].
Qed.

(** C10.  Both percentile scores are 5 on an empty list and lie between 2
    and 10 on every other list: they are never 0 or 1. *)
Theorem percentile_scores_range (sc : ScoreCalculator) (xs : list string) :
  (xs = [] →
     calculate_safety_score sc xs = 5 ∧ calculate_reliability_score sc xs = 5) ∧
  (xs ≠ [] →
     2 ≤ calculate_safety_score sc xs ≤ 10 ∧
     2 ≤ calculate_reliability_score sc xs ≤ 10).
Proof.
  split.
  - by intros ->.
  - intros Hne. destruct xs as [|x xs]; [done|].
    unfold calculate_safety_score, calculate_reliability_score. split.
    + destruct (tier_range _ (safety_percentile_nonneg sc (x :: xs))).
      by apply py_round_between.
    + destruct (tier_range _ (reliability_percentile_nonneg sc (x :: xs))).
      by apply py_round_between.
Qed.

Lemma percentile_scores_range_witness :
  2 ≤ calculate_safety_score two_station_scorer ["Canal Street"; "14th Street"] ≤ 10 ∧
  2 ≤ calculate_reliability_score two_station_scorer ["Canal Street"; "14th Street"] ≤ 10.
Proof.
  apply (proj2 (percentile_scores_range two_station_scorer
                  ["Canal Street"; "14th Street"])).
  discriminate.
Defined.

(** On a non-empty crime map the percentile of the code and the share the
    specification describes add up to 100. *)
Lemma safety_percentile_complement sc stations :
  values (crime_data sc) ≠ [] →
  safety_percentile sc stations == 100 - spec_safety_percentile sc stations.
Proof.
  intros Hne. unfold safety_percentile, spec_safety_percentile.
  destruct (values (crime_data sc)) as [|c cs] eqn:E; [done|].
  pose proof (py_len_pos (c :: cs) Hne) as Hpos.
  set (k := py_count _ _). set (n := py_len _) in *.
  field. lra.
Qed.

(** C1 (the code departs from the claim).  With incident counts 0 and 10
    on record, a route through the station with 0 incidents has average 0;
    both known values are at least 0, so the share of the claim is 100, but
    the percentile the code scores with is 0 and the safest route gets the
    lowest score, 2. *)
Theorem safety_percentile_inverted :
  route_avg_crime two_station_scorer ["Canal Street"] == 0 ∧
  spec_safety_percentile two_station_scorer ["Canal Street"] == 100 ∧
  safety_percentile two_station_scorer ["Canal Street"] == 0 ∧
  calculate_safety_score two_station_scorer ["Canal Street"] = 2 ∧
  calculate_safety_score two_station_scorer ["14th Street"] = 6.
Proof. vm_compute. done. Qed.

(** C3 (amended).  The efficiency score is the rounded clamp of
    [10 - 1.5 n] and does not depend on the travel time; rounding is
    Python's, to the even neighbour on a tie, so one transfer (8.5) scores 8
    and three transfers (5.5) score 6. *)
Theorem efficiency_score_formula (n t : Z) :
  0 ≤ n →
  calculate_efficiency_score n t
    = py_round (py_max 0 (py_min 10 (10 - (3 # 2) * inject_Z n))) ∧
  (∀ t', calculate_efficiency_score n t' = calculate_efficiency_score n t) ∧
  calculate_efficiency_score 0 t = 10 ∧
  calculate_efficiency_score 1 t = 8 ∧
  calculate_efficiency_score 2 t = 7 ∧
  calculate_efficiency_score 3 t = 6 ∧
  calculate_efficiency_score 4 t = 4.
Proof.
  intros Hn. split; [|by repeat split].
  unfold calculate_efficiency_score. apply py_round_comp.
  set (x := inject_Z n).
  assert (0 <= x)%Q as Hx.
  { unfold x. change 0%Q with (inject_Z 0). by rewrite <- Zle_Qle. }
  destruct (Qlt_le_dec 10 (x * (3 # 2)));
    [rewrite (py_min_gt (x * (3 # 2)) 10) by assumption
    |rewrite (py_min_le (x * (3 # 2)) 10) by assumption];
  repeat match goal with
  | |- context [py_min ?a ?b] =>
      destruct (Qlt_le_dec b a);
      [rewrite (py_min_gt a b) by assumption | rewrite (py_min_le a b) by assumption]
  | |- context [py_max ?a ?b] =>
      destruct (Qlt_le_dec a b);
      [rewrite (py_max_lt a b) by assumption | rewrite (py_max_ge a b) by assumption]
  end; lra.
Qed.

Lemma efficiency_score_formula_witness :
  calculate_efficiency_score 5 42 = 2 ∧ calculate_efficiency_score 7 42 = 0.
Proof.
  pose proof (efficiency_score_formula 5 42 ltac:(lia)) as [H5 _].
  pose proof (efficiency_score_formula 7 42 ltac:(lia)) as [H7 _].
  rewrite H5, H7. by vm_compute.
Defined.

(** One transfer scores 8, not the 9 of the claim. *)
Lemma efficiency_one_transfer_not_9 :
  ¬ (∀ t, calculate_efficiency_score 1 t = 9).
Proof. intros H. specialize (H 30). by vm_compute in H. Qed.

End ScoreProperties.

(** ** Weight functions *)

Lemma inject_Z_min a b : inject_Z (Z.min a b) == Qmin (inject_Z a) (inject_Z b).
Proof.
  destruct (Z.le_ge_cases a b) as [H|H].
  - rewrite Z.min_l by done. rewrite Q.min_l; [reflexivity | by rewrite <- Zle_Qle].
  - rewrite Z.min_r by done. rewrite Q.min_r; [reflexivity | by rewrite <- Zle_Qle].
Qed.

(** C6.  With [c] the crime count on record for the station the edge leads
    to (5 when there is none), the three weight functions have the closed
    forms of the specification. *)
Theorem weight_functions_closed_form (crime_data : gmap string Z)
    (current next_station current_line next_line : string) (t : Z) (b : bool) :
  let c := inject_Z (default 5 (crime_data !! next_station)) in
  weight_safe crime_data current next_station current_line next_line t b
    == inject_Z t * (1 + Qmin c 20 / 10) + (if b then 5 else 0) ∧
  weight_fast current next_station current_line next_line t b
    == inject_Z t + (if b then 8 else 0) ∧
  weight_balanced crime_data current next_station current_line next_line t b
    == (1 # 2) * inject_Z t + (35 # 100) * (Qmin c 20 * (1 # 2))
       + (15 # 100) * (if b then 6 else 0).
Proof.
  intros c. subst c. unfold weight_safe, weight_fast, weight_balanced, crimes_at.
  pose proof (inject_Z_min (default 5 (crime_data !! next_station)) 20) as Hmin.
  change (inject_Z 20) with 20%Q in Hmin.
  set (q := Qmin _ 20) in *. set (m := inject_Z (Z.min _ 20)) in *.
  set (x := inject_Z t).
  unfold Qdiv. change (/ 10)%Q with (1 # 10)%Q.
  destruct b; repeat split; rewrite ?Hmin; ring.
Qed.

(** ** The graph *)

Lemma foldl_invariant {A B} (I : A → Prop) (f : A → B → A) (l : list B) (a : A) :
  I a → (∀ a' x, x ∈ l → I a' → I (f a' x)) → I (foldl f a l).
Proof.
  revert a. induction l as [|x l IH]; intros a Ha Hstep; [done|].
  simpl. apply IH.
  - apply Hstep; [left | done].
  - intros a' y Hy. apply Hstep. by right.
Qed.

Section BuildGraph.

Context (lines : list (string * list string)) (transfer_points : list (node * list edge)).

Lemma edges_accounted_empty : edges_accounted lines transfer_points ∅.
Proof. intros n es e H. by rewrite lookup_empty in H. Qed.

Lemma edges_accounted_append g key e :
  edges_accounted lines transfer_points g → edge_origin lines transfer_points key e →
  edges_accounted lines transfer_points (<[key := default [] (g !! key) ++ [e]]> g).
Proof.
  intros Hg He n es e' Hn He'.
  destruct (decide (key = n)) as [->|Hne].
  - rewrite lookup_insert_eq in Hn. injection Hn as <-.
    apply elem_of_app in He' as [He'|He'].
    + destruct (g !! n) as [es0|] eqn:E; simpl in He'; [by eapply Hg | by inversion He'].
    + apply list_elem_of_singleton in He' as ->. done.
  - rewrite lookup_insert_ne in Hn by done. by eapply Hg.
Qed.

Lemma edges_accounted_add_pair line stations g i :
  (line, stations) ∈ lines → edges_accounted lines transfer_points g →
  edges_accounted lines transfer_points (add_pair line stations g i).
Proof.
  intros Hin Hg. unfold add_pair.
  destruct (stations !! i) as [a|] eqn:Ea; [|done].
  destruct (stations !! S i) as [b|] eqn:Eb; [|done].
  apply edges_accounted_append; [apply edges_accounted_append; [done|]|];
    left; (split; [done|]); exists stations, i; (split; [done|]); simpl; auto.
Qed.

Lemma edges_accounted_add_line g entry :
  entry ∈ lines → edges_accounted lines transfer_points g →
  edges_accounted lines transfer_points (add_line g entry).
Proof.
  intros Hin Hg. destruct entry as [line stations]. unfold add_line.
  apply (foldl_invariant (edges_accounted lines transfer_points)); [done|].
  intros g' i _ Hg'. by apply edges_accounted_add_pair.
Qed.

Lemma edges_accounted_add_transfers g entry :
  entry ∈ transfer_points → edges_accounted lines transfer_points g →
  edges_accounted lines transfer_points (add_transfers g entry).
Proof.
  intros Hin Hg. destruct entry as [key transfers]. unfold add_transfers.
  apply (foldl_invariant (edges_accounted lines transfer_points)).
  - destruct (g !! key) eqn:E; [done|].
    intros n es e Hn He. destruct (decide (key = n)) as [->|Hne].
    + rewrite lookup_insert_eq in Hn. injection Hn as <-. by inversion He.
    + rewrite lookup_insert_ne in Hn by done. by eapply Hg.
  - intros g' e He Hg'. apply edges_accounted_append; [done|].
    right. by exists transfers.
Qed.

Lemma build_graph_edges_accounted :
  edges_accounted lines transfer_points (_build_graph lines transfer_points).
Proof.
  unfold _build_graph.
  apply (foldl_invariant (edges_accounted lines transfer_points)).
  - apply (foldl_invariant (edges_accounted lines transfer_points)); [apply edges_accounted_empty|].
    intros g entry Hin Hg. by apply edges_accounted_add_line.
  - intros g entry Hin Hg. by apply edges_accounted_add_transfers.
Qed.

End BuildGraph.

Lemma subway_graph_built :
  graph subway_graph = _build_graph Topology.SUBWAY_LINES Topology.TRANSFER_POINTS.
Proof. reflexivity. Qed.

(** C4 (amended).  In the graph of the module tables every adjacency entry
    of a node leads to the station before or after it on the list of the
    node's own line, on that line, or is an entry that [TRANSFER_POINTS]
    lists under the node.  (A listed target may lie at another station.) *)
Theorem subway_graph_edges (n : node) (es : list edge) (e : edge) :
  graph subway_graph !! n = Some es → e ∈ es →
  (e.1.2 = n.2 ∧ adjacent_on Topology.SUBWAY_LINES n.2 n.1 e.1.1) ∨
  declared_transfer Topology.TRANSFER_POINTS n e.
Proof.
  intros Hn He. rewrite subway_graph_built in Hn.
  by eapply build_graph_edges_accounted.
Qed.

Lemma subway_graph_edges_witness :
  declared_transfer Topology.TRANSFER_POINTS ("42nd Street-Times Square", "S")
    ("Grand Central-42nd Street", "7", 1).
Proof.
  destruct (subway_graph_edges ("42nd Street-Times Square", "S")
              [("Grand Central-42nd Street", "S", 2);
               ("Grand Central-42nd Street", "4", 1);
               ("Grand Central-42nd Street", "5", 1);
               ("Grand Central-42nd Street", "6", 1);
               ("Grand Central-42nd Street", "7", 1)]
              ("Grand Central-42nd Street", "7", 1)) as [[Hl _]|H].
  - by vm_compute.
  - by apply (bool_decide_unpack _); vm_compute.
  - discriminate Hl.
  - exact H.
Defined.

(** The claim as it stands fails: the entry that leads from Times Square on
    line 1 to Grand Central on line 4 is a declared transfer, but Grand
    Central is neither next to Times Square on the list of line 1 nor the
    same station. *)
Lemma transfer_edge_leaves_station :
  ¬ (∀ n es e, graph subway_graph !! n = Some es → e ∈ es →
       adjacent_on Topology.SUBWAY_LINES n.2 n.1 e.1.1 ∨
       (declared_transfer Topology.TRANSFER_POINTS n e ∧ e.1.1 = n.1)).
Proof.
  intros H.
  destruct (H ("42nd Street-Times Square", "1")
              (default [] (graph subway_graph !! ("42nd Street-Times Square", "1")))
              ("Grand Central-42nd Street", "4", 3))
    as [(stations & i & Hin & Hadj)|[_ Hs]].
  - by vm_compute.
  - by apply (bool_decide_unpack _); vm_compute.
  - unfold Topology.SUBWAY_LINES in Hin.
    repeat (apply elem_of_cons in Hin as [Hin|Hin]; [try discriminate Hin|]);
      [|by apply elem_of_nil in Hin].
    injection Hin as ->. simpl in Hadj.
    do 19 (destruct i as [|i]; [destruct Hadj as [[? ?]|[? ?]]; discriminate|]).
    destruct Hadj as [[? ?]|[? ?]]; discriminate.
  - discriminate Hs.
Qed.

(** ** Stations of the network *)

Lemma sorted_elem_of (l : list string) (s : string) : s ∈ sorted l ↔ s ∈ l.
Proof. unfold sorted. by rewrite merge_sort_Permutation. Qed.

Lemma all_stations_spec lines s :
  s ∈ _get_all_stations lines ↔ is_station lines s.
Proof.
  unfold _get_all_stations, is_station.
  rewrite sorted_elem_of, elem_of_elements, elem_of_list_to_set.
  rewrite list_elem_of_In, in_concat. split.
  - intros (sts & Hsts & Hs). apply list_elem_of_In, list_elem_of_fmap in Hsts.
    destruct Hsts as ([line sts'] & -> & Hin).
    exists line, sts'. split; [done | by apply list_elem_of_In].
  - intros (line & sts & Hin & Hs). exists sts. split; [|by apply list_elem_of_In].
    apply list_elem_of_In, list_elem_of_fmap. by exists (line, sts).
Qed.

Lemma validate_station_spec lines transfer_points s :
  validate_station (SubwayGraph_init lines transfer_points) s = true
  ↔ is_station lines s.
Proof.
  unfold validate_station. simpl. rewrite bool_decide_eq_true.
  apply all_stations_spec.
Qed.

(** ** find_shortest_path: the cases decided before the search *)

(** C5.  From a station of the graph to itself the route is the single
    station, with no line, no segment, no time and no transfer, whatever
    the weight function and the ceiling. *)
Theorem same_station_route (sg : SubwayGraph) (s : string)
    (weight_func : option weight_fn) (max_transfers : Z) :
  validate_station sg s = true →
  find_shortest_path sg s s weight_func max_transfers
    = Some {| name := None; stations := [s]; lines := []; segments := [];
              total_time_minutes := 0; total_transfers := 0; total_stops := 1 |}.
Proof.
  intros Hs. unfold find_shortest_path. rewrite Hs. simpl.
  by rewrite decide_True.
Qed.

Lemma same_station_route_witness :
  find_shortest_path subway_graph "Canal Street" "Canal Street" (Some weight_fast) 5
    = Some (single_station_route "Canal Street").
Proof.
  apply (same_station_route subway_graph "Canal Street" (Some weight_fast) 5).
  by vm_compute.
Defined.

(** C8.  When one of the two names is not a station of the network the
    result is [None]; the function has returned, nothing was raised. *)
Theorem unknown_station_not_found (lines : list (string * list string))
    (transfer_points : list (node * list edge)) (a b : string)
    (weight_func : option weight_fn) (max_transfers : Z) :
  ¬ is_station lines a ∨ ¬ is_station lines b →
  find_shortest_path (SubwayGraph_init lines transfer_points) a b
    weight_func max_transfers = None.
Proof.
  intros H. unfold find_shortest_path.
  destruct (validate_station _ a) eqn:Ea; [|done].
  destruct (validate_station _ b) eqn:Eb; [|done].
  apply validate_station_spec in Ea, Eb. by destruct H.
Qed.

Lemma unknown_station_not_found_witness :
  find_shortest_path subway_graph "Nonexistent Station" "42nd Street-Times Square"
    (Some weight_fast) 5 = None.
Proof.
  apply (unknown_station_not_found Topology.SUBWAY_LINES Topology.TRANSFER_POINTS).
  left. rewrite <- (validate_station_spec _ Topology.TRANSFER_POINTS).
  by vm_compute.
Defined.

(** ** generate_routes *)

(** C7.  The result lists, in the order Safe, Fast, Balanced, the searches
    that succeeded: each entry is the route its search returned, with the
    name "SafeRoute", "FastRoute" or "BalancedRoute" in its [name] field and
    every other field as the search left it.  The result is [None] exactly
    when the three searches failed.  Each search is its own call of
    [find_shortest_path]; none depends on the outcome of another. *)
Theorem generate_routes_subset (ro : RouteOptimizer) (origin destination : string) :
  let safe := _generate_safe_route ro origin destination in
  let fast := _generate_fast_route ro origin destination in
  let balanced := _generate_balanced_route ro origin destination in
  let named (n : string) (r : Route) : Route :=
    {| name := Some n;
       stations := stations r;
       lines := lines r;
       segments := segments r;
       total_time_minutes := total_time_minutes r;
       total_transfers := total_transfers r;
       total_stops := total_stops r |} in
  let found := option_list (named "SafeRoute" <$> safe)
               ++ option_list (named "FastRoute" <$> fast)
               ++ option_list (named "BalancedRoute" <$> balanced) in
  (generate_routes ro origin destination = None
   ↔ safe = None ∧ fast = None ∧ balanced = None) ∧
  (∀ routes, generate_routes ro origin destination = Some routes ↔
             routes = found ∧ found ≠ []) ∧
  (∀ routes, generate_routes ro origin destination = Some routes →
     name <$> routes
     = match safe with Some _ => [Some "SafeRoute"] | None => [] end
       ++ match fast with Some _ => [Some "FastRoute"] | None => [] end
       ++ match balanced with Some _ => [Some "BalancedRoute"] | None => [] end).
Proof.
  intros safe fast balanced named found. subst found named.
  unfold generate_routes. fold safe fast balanced.
  destruct safe as [rs|], fast as [rf|], balanced as [rb|]; simpl;
    (split; [split; [intros ?; discriminate || done | intros (? & ? & ?); discriminate || done]
            |split; intros routes;
             [split;
              [intros [= <-]; done || (intros ?; discriminate)
              |intros [-> ?]; done]
             |intros [= <-]; done || (intros ?; discriminate)]]).
Qed.

(** ** The search: predecessor links *)

Lemma set_add_union (n : node) (V : gset node) : set_add n V = {[ n ]} ∪ V.
Proof.
  destruct V as [m]. unfold set_add.
  change ({[n]} ∪ Mapset m) with (Mapset ({[n := ()]} ∪ m) : gset node).
  by rewrite insert_union_singleton_l.
Qed.

Lemma elem_of_set_add (n n' : node) (V : gset node) :
  n' ∈ set_add n V ↔ n' = n ∨ n' ∈ V.
Proof. rewrite set_add_union. set_solver. Qed.

Lemma extract_min_perm cur rest m others :
  extract_min cur rest = (m, others) → m :: others ≡ₚ cur :: rest.
Proof.
  revert cur m others. induction rest as [|x rest IH]; intros cur m others H; simpl in H.
  - by injection H as <- <-.
  - destruct (entry_compare x cur);
      [destruct (extract_min cur rest) as [m' o'] eqn:E
      |destruct (extract_min x rest) as [m' o'] eqn:E
      |destruct (extract_min cur rest) as [m' o'] eqn:E];
      injection H as <- <-; apply IH in E.
    + etrans; [apply perm_swap|]. etrans; [apply perm_skip, E|]. apply perm_swap.
    + etrans; [apply perm_swap|]. by apply perm_skip.
    + etrans; [apply perm_swap|]. etrans; [apply perm_skip, E|]. apply perm_swap.
Qed.

Lemma heappop_perm pq m pq' : heappop pq = Some (m, pq') → m :: pq' ≡ₚ pq.
Proof.
  destruct pq as [|e rest]; [done|]. simpl. intros [= H]. by apply extract_min_perm.
Qed.

Lemma heappop_length pq m pq' : heappop pq = Some (m, pq') → length pq = S (length pq').
Proof. intros H. apply heappop_perm in H. by rewrite <- H. Qed.

Lemma settled_order_start start previous order :
  settled_order start previous order → start ∈ order.
Proof. induction 1; [left | by right]. Qed.

Lemma settled_order_insert start previous order k v :
  settled_order start previous order → k ∉ order →
  settled_order start (<[k := v]> previous) order.
Proof.
  induction 1 as [Hs|n p t b order Hn Hp Hno Hord IH]; intros Hk.
  - apply settled_start. rewrite lookup_insert_ne; [done|]. set_solver.
  - apply not_elem_of_cons in Hk as [Hkn Hk].
    eapply settled_next; [|done|done|by apply IH].
    by rewrite lookup_insert_ne.
Qed.

Lemma relax_links weight_func d cs cl tr start st order e :
  (cs, cl) ∈ order →
  links_inv start st order →
  links_inv start (relax weight_func d cs cl tr st e) order.
Proof.
  intros Hcur (I1 & I2 & I3 & I4 & I5).
  unfold relax. destruct e as [[ns nl] t].
  destruct (decide ((ns, nl) ∈ visited st)) as [Hv|Hv]; [done|].
  match goal with |- context [if ?b then _ else _] => destruct b end; [|done].
  assert (Hord : settled_order start (previous st) order).
  { destruct I2 as [->|H]; [by inversion Hcur | done]. }
  assert (Hno : (ns, nl) ∉ order) by (by rewrite <- I1).
  assert (Hns : (ns, nl) ≠ start).
  { intros E. apply Hno. rewrite E. by apply (settled_order_start _ (previous st)). }
  split_and!; simpl.
  - done.
  - right. by apply settled_order_insert.
  - intros n p t' b. destruct (decide ((ns, nl) = n)) as [<-|Hne].
    + rewrite lookup_insert_eq. by intros [= <- _ _].
    + rewrite lookup_insert_ne by done. apply I3.
  - intros x Hx. unfold heappush in Hx. apply elem_of_cons in Hx as [->|Hx].
    + right. unfold entry_node. simpl. by rewrite lookup_insert_eq.
    + destruct (I4 x Hx) as [H|H]; [by left | right].
      destruct (decide ((ns, nl) = entry_node x)) as [<-|Hne].
      * by rewrite lookup_insert_eq.
      * by rewrite lookup_insert_ne.
  - by rewrite lookup_insert_ne.
Qed.

Lemma pop_links start st order m pq' :
  links_inv start st order →
  heappop (pq st) = Some (m, pq') →
  entry_node m ∉ visited st →
  links_inv start
    {| distances := distances st; previous := previous st;
       visited := set_add (entry_node m) (visited st); pq := pq' |}
    (entry_node m :: order).
Proof.
  intros (I1 & I2 & I3 & I4 & I5) Hpop Hv.
  apply heappop_perm in Hpop.
  assert (Hm : m ∈ pq st) by (rewrite <- Hpop; left).
  assert (Hno : entry_node m ∉ order) by (by rewrite <- I1).
  split_and!; simpl.
  - intros n. by rewrite elem_of_set_add, elem_of_cons, I1.
  - right. destruct (I4 m Hm) as [Hs|[[[p t] b] Hp]].
    + destruct I2 as [->|Hord].
      * rewrite Hs. by apply settled_start.
      * exfalso. apply Hno. rewrite Hs. by eapply settled_order_start.
    + destruct I2 as [->|Hord].
      * exfalso. apply I3 in Hp. by inversion Hp.
      * eapply settled_next; eauto.
  - intros n p t b Hn. right. by eapply I3.
  - intros x Hx. apply I4. rewrite <- Hpop. by right.
  - done.
Qed.

Lemma skip_links start st order m pq' :
  links_inv start st order →
  heappop (pq st) = Some (m, pq') →
  links_inv start
    {| distances := distances st; previous := previous st;
       visited := visited st; pq := pq' |} order.
Proof.
  intros (I1 & I2 & I3 & I4 & I5) Hpop. apply heappop_perm in Hpop.
  split_and!; simpl; try done.
  intros x Hx. apply I4. rewrite <- Hpop. by right.
Qed.

Lemma initial_links s l : links_inv (s, l) (initial_state s l) [].
Proof.
  split_and!; simpl.
  - intros n. set_solver.
  - by left.
  - intros n p t b H. by rewrite lookup_empty in H.
  - intros e He. apply list_elem_of_singleton in He as ->. by left.
  - apply lookup_empty.
Qed.

Lemma dijkstra_loop_links sg weight_func max_transfers fuel s e start st order p :
  links_inv start st order →
  dijkstra_loop sg weight_func max_transfers fuel s e st = Some (Some p) →
  (end_state p).1 = e ∧
  ∃ order', settled_order start (pi_previous p) (end_state p :: order').
Proof.
  revert st order. induction fuel as [|fuel IH]; intros st order Hinv Hrun; [done|].
  simpl in Hrun.
  destruct (heappop (pq st)) as [[[[[d cs] cl] tr] pq']|] eqn:Hpop; [|done].
  destruct (decide ((cs, cl) ∈ visited st)) as [Hv|Hv].
  { eapply IH; [|done]. by eapply skip_links. }
  pose proof (pop_links _ _ _ _ _ Hinv Hpop Hv) as Hinv'.
  change (entry_node (d, cs, cl, tr)) with (cs, cl) in Hinv'.
  destruct (decide (cs = e)) as [->|Hne].
  { injection Hrun as <-. simpl. split; [done|].
    exists order. destruct Hinv' as (_ & [?|?] & _); done. }
  destruct (bool_decide (max_transfers < tr)).
  { eapply IH; [|done]. done. }
  eapply IH; [|done].
  apply (foldl_invariant (λ st', links_inv start st' ((cs, cl) :: order))); [done|].
  intros st' x _ Hst'. apply relax_links; [left | done].
Qed.

(** ** Route extraction *)

(** Backtracking from any visited node follows the links to the start node
    and returns the nodes of the way in forward order. *)
Lemma backtrack_settled start previous order :
  settled_order start previous order →
  ∀ m fuel stations lines total_time total_transfers,
    m ∈ order → (length order ≤ fuel)%nat →
    ∃ path tt' tr',
      backtrack fuel previous m stations lines total_time total_transfers
        = Some (path.*1 ++ stations, path.*2 ++ lines, tt', tr') ∧
      head path = Some start ∧ last path = Some m ∧
      (m ≠ start → (2 ≤ length path)%nat).
Proof.
  induction 1 as [Hs|n p t b order Hn Hp Hno Hord IH];
    intros m fuel sts lns tt tr Hm Hfuel.
  - apply list_elem_of_singleton in Hm as ->.
    destruct fuel as [|fuel]; [simpl in Hfuel; lia|].
    exists [start], tt, tr. simpl. rewrite Hs. done.
  - destruct fuel as [|fuel]; [simpl in Hfuel; lia|]. simpl in Hfuel.
    destruct (decide (m = n)) as [->|Hne].
    + simpl. rewrite Hn.
      destruct (IH p fuel (n.1 :: sts) (n.2 :: lns) (tt + t)
                  (if b then tr + 1 else tr) Hp ltac:(lia))
        as (path & tt' & tr' & Hrun & Hhead & Hlast & _).
      exists (path ++ [n]), tt', tr'. rewrite Hrun. split_and!.
      * by rewrite !fmap_app, <- !app_assoc.
      * destruct path; [done | done].
      * by rewrite last_snoc.
      * intros _. rewrite length_app. simpl. destruct path; [done | simpl; lia].
    + apply elem_of_cons in Hm as [?|Hm]; [done|].
      apply (IH m (S fuel)); [done | lia].
Qed.

Lemma settled_order_keys start previous order :
  settled_order start previous order →
  ∃ keys, order = keys ++ [start] ∧ NoDup keys ∧
          ∀ k, k ∈ keys → is_Some (previous !! k).
Proof.
  induction 1 as [Hs|n p t b order Hn Hp Hno Hord (keys & -> & Hnd & Hk)].
  - exists []. split_and!; [done | constructor | by inversion 1].
  - exists (n :: keys). split_and!; [done | |].
    + constructor; [|done]. intros Hin. apply Hno, elem_of_app. by left.
    + intros k [->|Hin]%elem_of_cons; [by eexists | by apply Hk].
Qed.

Lemma settled_order_length start previous order :
  settled_order start previous order → (length order ≤ S (size previous))%nat.
Proof.
  intros (keys & -> & Hnd & Hk)%settled_order_keys.
  rewrite length_app. simpl.
  assert (length keys ≤ size (dom previous))%nat; [|rewrite size_dom in *; lia].
  change (size (dom previous)) with (length (elements (dom previous))).
  apply submseteq_length, NoDup_submseteq; [done|].
  intros k Hin. rewrite elem_of_elements, elem_of_dom. by apply Hk.
Qed.

Lemma last_dedup_step acc line : last (dedup_step acc line) = Some line.
Proof.
  unfold dedup_step. destruct (last acc) as [l|] eqn:E.
  - destruct (decide (l = line)) as [->|]; [done | by rewrite last_snoc].
  - by rewrite last_snoc.
Qed.

Lemma no_equal_neighbours_snoc acc line :
  no_equal_neighbours acc → last acc ≠ Some line →
  no_equal_neighbours (acc ++ [line]).
Proof.
  intros Hacc Hlast i a b Ha Hb.
  destruct (decide (S i < length acc)%nat) as [Hlt|Hge].
  - rewrite lookup_app_l in Ha by lia. rewrite lookup_app_l in Hb by lia.
    by eapply Hacc.
  - destruct (decide (S i = length acc)) as [Heq|Hgt].
    + rewrite lookup_app_l in Ha by lia.
      rewrite lookup_app_r in Hb by lia. rewrite Heq, Nat.sub_diag in Hb.
      injection Hb as <-. intros ->. apply Hlast.
      rewrite last_lookup. rewrite <- Heq. done.
    + rewrite lookup_app_r in Hb by lia.
      destruct (S i - length acc)%nat as [|k] eqn:E; [lia | done].
Qed.

Lemma unique_lines_no_equal_neighbours lines :
  no_equal_neighbours (unique_lines_of lines).
Proof.
  unfold unique_lines_of.
  apply (foldl_invariant no_equal_neighbours).
  - intros i a b H. done.
  - intros acc line _ Hacc. unfold dedup_step.
    destruct (last acc) as [l|] eqn:E.
    + destruct (decide (l = line)) as [->|Hne]; [done|].
      apply no_equal_neighbours_snoc; [done|]. rewrite E. congruence.
    + apply no_equal_neighbours_snoc; [done|]. by rewrite E.
Qed.

(** The path kept by [find_shortest_path] is the result of one of the
    searches. *)
Lemma best_path_from_search {A} (search : A → option path_info) (ls : list A)
    (best : option path_info) (p : path_info) :
  foldl (λ best l, pick_best best (search l)) best ls = Some p →
  best = Some p ∨ ∃ l, l ∈ ls ∧ search l = Some p.
Proof.
  revert best. induction ls as [|l ls IH]; intros best H; simpl in H; [by left|].
  apply IH in H as [H|(l' & Hin & Hl')].
  - unfold pick_best in H. destruct (search l) as [q|] eqn:E; [|by left].
    destruct best as [b|].
    + destruct (Qltb _ _); [|by left].
      right. exists l. split; [left | congruence].
    + right. exists l. split; [left | congruence].
  - right. exists l'. split; [by right | done].
Qed.

Lemma dijkstra_result sg weight_func max_transfers s l e p :
  _dijkstra sg weight_func max_transfers s l e = Some p →
  (end_state p).1 = e ∧
  ∃ order', settled_order (s, l) (pi_previous p) (end_state p :: order').
Proof.
  unfold _dijkstra. intros H.
  destruct (dijkstra_loop _ _ _ _ _ _ _) as [[q|]|] eqn:E; simpl in H; try done.
  injection H as ->. eapply dijkstra_loop_links; [apply initial_links | done].
Qed.

Lemma extract_route_settled start p order' :
  settled_order start (pi_previous p) (end_state p :: order') →
  ∃ r, _extract_route p = Some r ∧
       head (stations r) = Some start.1 ∧
       last (stations r) = Some (end_state p).1 ∧
       total_stops r = Z.of_nat (length (stations r)) ∧
       (end_state p ≠ start → 2 ≤ total_stops r) ∧
       no_equal_neighbours (lines r).
Proof.
  intros Hord.
  destruct (backtrack_settled _ _ _ Hord (end_state p) (S (size (pi_previous p)))
              [] [] 0 0) as (path & tt & tr & Hrun & Hhead & Hlast & Hlen).
  { left. }
  { by apply settled_order_length in Hord. }
  unfold _extract_route. rewrite Hrun. rewrite !app_nil_r.
  eexists. split; [done|]. simpl. split_and!.
  - destruct path; [done|]. simpl in *. congruence.
  - rewrite fmap_last, Hlast. done.
  - done.
  - intros Hne. apply Hlen in Hne. rewrite length_fmap. lia.
  - apply unique_lines_no_equal_neighbours.
Qed.

(** C9.  A route between two different stations starts at the origin,
    ends at the destination, counts its stations in [total_stops] (two at
    least), and names no line twice in a row. *)
Theorem route_shape (sg : SubwayGraph) (origin destination : string)
    (weight_func : option weight_fn) (max_transfers : Z) (r : Route) :
  origin ≠ destination →
  find_shortest_path sg origin destination weight_func max_transfers = Some r →
  head (stations r) = Some origin ∧
  last (stations r) = Some destination ∧
  total_stops r = Z.of_nat (length (stations r)) ∧
  2 ≤ total_stops r ∧
  no_equal_neighbours (lines r).
Proof.
  intros Hne Hr. unfold find_shortest_path in Hr.
  destruct (validate_station sg origin); [|done].
  destruct (validate_station sg destination); [|done]. cbn [negb] in Hr.
  rewrite decide_False in Hr by done.
  destruct (get_available_lines sg origin) as [|l0 ls] eqn:El; [done|].
  destruct (foldl _ None (l0 :: ls)) as [p|] eqn:Ebest; [|done].
  apply best_path_from_search in Ebest as [?|(l & _ & Hsearch)]; [done|].
  apply dijkstra_result in Hsearch as [Hend (order' & Hord)].
  destruct (extract_route_settled _ _ _ Hord)
    as (r' & Hr' & Hhead & Hlast & Hstops & Hlen & Hlines).
  rewrite Hr' in Hr. injection Hr as ->.
  split_and!; try done.
  - by rewrite Hlast, Hend.
  - apply Hlen. intros E. rewrite E in Hend. simpl in Hend. done.
Qed.

Lemma route_shape_witness :
  let r := {| name := None;
              stations := ["42nd Street-Times Square"; "34th Street-Herald Square"];
              lines := ["2"];
              segments := [Ride "2" "42nd Street-Times Square"
                             "34th Street-Herald Square" 1 2];
              total_time_minutes := 2;
              total_transfers := 0;
              total_stops := 2 |} in
  head (stations r) = Some "42nd Street-Times Square" ∧
  last (stations r) = Some "34th Street-Herald Square" ∧
  total_stops r = Z.of_nat (length (stations r)) ∧
  2 ≤ total_stops r ∧
  no_equal_neighbours (lines r).
Proof.
  intros r.
  apply (route_shape subway_graph "42nd Street-Times Square"
           "34th Street-Herald Square" (Some weight_fast) 5 r).
  - discriminate.
  - by vm_compute.
Defined.

(** ** The loops end within their fuel *)

Lemma unvisited_degree_empty (g : gmap node (list edge)) :
  unvisited_degree g ∅ = sum_list (length <$> (map_to_list g).*2).
Proof.
  unfold unvisited_degree. induction (map_to_list g) as [|[k es] l IH]; [done|].
  simpl. rewrite decide_False by set_solver. f_equal. exact IH.
Qed.

Lemma unvisited_degree_add (g : gmap node (list edge)) (V : gset node) (n : node) :
  n ∉ V →
  (unvisited_degree g (set_add n V) + length (default [] (g !! n)))%nat
    = unvisited_degree g V.
Proof.
  intros Hn. unfold unvisited_degree.
  induction g as [|k es g Hk Hfirst IH] using map_first_key_ind.
  - rewrite map_to_list_empty, lookup_empty. done.
  - rewrite map_to_list_insert_first_key by done. rewrite !fmap_cons.
    assert (Hcons : ∀ (x : nat) l, sum_list (x :: l) = (x + sum_list l)%nat) by done.
    rewrite !Hcons. cbn [fst snd].
    destruct (decide (k = n)) as [->|Hne].
    + rewrite lookup_insert_eq. rewrite Hk in IH.
      cbn [default from_option length] in *. unfold id in *.
      rewrite decide_True by (apply elem_of_set_add; by left).
      rewrite decide_False by done. lia.
    + rewrite lookup_insert_ne by done.
      destruct (decide (k ∈ V)) as [Hin|Hin].
      * rewrite decide_True by (apply elem_of_set_add; by right). lia.
      * rewrite decide_False; [lia|]. rewrite elem_of_set_add. tauto.
Qed.

Lemma relax_pending weight_func d cs cl tr st e :
  visited (relax weight_func d cs cl tr st e) = visited st ∧
  (length (pq (relax weight_func d cs cl tr st e)) ≤ S (length (pq st)))%nat.
Proof.
  unfold relax. destruct e as [[ns nl] t].
  destruct (decide _); [split; [done | lia]|].
  match goal with |- context [if ?b then _ else _] => destruct b end;
    simpl; split; (done || lia).
Qed.

Lemma foldl_relax_pending weight_func d cs cl tr adjacent st :
  visited (foldl (relax weight_func d cs cl tr) st adjacent) = visited st ∧
  (length (pq (foldl (relax weight_func d cs cl tr) st adjacent))
   ≤ length (pq st) + length adjacent)%nat.
Proof.
  revert st. induction adjacent as [|e l IH]; intros st; simpl; [split; [done | lia]|].
  destruct (IH (relax weight_func d cs cl tr st e)) as [Hv Hl].
  destruct (relax_pending weight_func d cs cl tr st e) as [Hv' Hl'].
  rewrite Hv, Hv'. split; [done | lia].
Qed.

Lemma dijkstra_loop_fuel sg weight_func max_transfers fuel s e st :
  (length (pq st) + unvisited_degree (graph sg) (visited st) < fuel)%nat →
  is_Some (dijkstra_loop sg weight_func max_transfers fuel s e st).
Proof.
  revert st. induction fuel as [|fuel IH]; intros st Hfuel; [lia|].
  simpl.
  destruct (heappop (pq st)) as [[[[[d cs] cl] tr] pq']|] eqn:Hpop; [|by eexists].
  apply heappop_length in Hpop.
  destruct (decide ((cs, cl) ∈ visited st)) as [Hv|Hv].
  { apply IH. simpl. lia. }
  pose proof (unvisited_degree_add (graph sg) _ _ Hv) as Hdeg.
  destruct (decide (cs = e)); [by eexists|].
  destruct (bool_decide (max_transfers < tr)).
  { apply IH. simpl. lia. }
  apply IH.
  match goal with |- context [foldl ?f ?st0 ?adj] =>
    destruct (foldl_relax_pending weight_func d cs cl tr adj st0) as [Hv' Hl']
  end.
  rewrite Hv'. cbn [visited pq] in *. unfold get_adjacent_stations in *.
  set (D := length (default [] (graph sg !! (cs, cl)))) in *.
  set (U := unvisited_degree (graph sg) (set_add (cs, cl) (visited st))) in *.
  assert (U + D = unvisited_degree (graph sg) (visited st))%nat by exact Hdeg.
  lia.
Qed.

(** The search returns: its fuel is never used up. *)
Theorem dijkstra_loop_returns sg weight_func max_transfers s l e :
  is_Some (dijkstra_loop sg weight_func max_transfers (search_fuel sg) s e
             (initial_state s l)).
Proof.
  apply dijkstra_loop_fuel. simpl. rewrite unvisited_degree_empty.
  unfold search_fuel. lia.
Qed.

(** The route of a search result is extracted: backtracking ends. *)
Theorem extract_route_returns sg weight_func max_transfers s l e p :
  _dijkstra sg weight_func max_transfers s l e = Some p →
  is_Some (_extract_route p).
Proof.
  intros (_ & order' & Hord)%dijkstra_result.
  destruct (extract_route_settled _ _ _ Hord) as (r & Hr & _). by exists r.
Qed.

(** ** The search: distances *)

Lemma entry_compare_dist (a b : pq_entry) :
  match entry_compare a b with
  | Lt => (entry_dist a <= entry_dist b)%Q
  | _ => (entry_dist b <= entry_dist a)%Q
  end.
Proof.
  destruct a as [[[d1 s1] l1] t1], b as [[[d2 s2] l2] t2].
  unfold entry_compare, entry_dist. simpl.
  destruct (Qcompare_spec d1 d2) as [E|E|E].
  - assert (d1 <= d2)%Q by (rewrite E; apply Qle_refl).
    assert (d2 <= d1)%Q by (rewrite E; apply Qle_refl).
    destruct (String.compare s1 s2); [|done|done].
    destruct (String.compare l1 l2); [|done|done].
    by destruct (t1 ?= t2).
  - by apply Qlt_le_weak.
  - by apply Qlt_le_weak.
Qed.

Lemma extract_min_least cur rest m others :
  extract_min cur rest = (m, others) →
  ∀ x, x ∈ cur :: rest → (entry_dist m <= entry_dist x)%Q.
Proof.
  revert cur m others. induction rest as [|y rest IH]; intros cur m others H x Hx.
  - simpl in H. injection H as <- <-.
    apply list_elem_of_singleton in Hx as ->. apply Qle_refl.
  - simpl in H. pose proof (entry_compare_dist y cur) as Hc.
    destruct (entry_compare y cur);
      [destruct (extract_min cur rest) as [m' o'] eqn:E
      |destruct (extract_min y rest) as [m' o'] eqn:E
      |destruct (extract_min cur rest) as [m' o'] eqn:E];
      injection H as <- <-;
      pose proof (IH _ _ _ E) as Hmin.
    + apply elem_of_cons in Hx as [->|Hx]; [apply Hmin; left|].
      apply elem_of_cons in Hx as [->|Hx].
      * eapply Qle_trans; [apply Hmin; left | done].
      * apply Hmin. by right.
    + apply elem_of_cons in Hx as [->|Hx].
      * eapply Qle_trans; [apply Hmin; left | done].
      * apply Hmin. done.
    + apply elem_of_cons in Hx as [->|Hx]; [apply Hmin; left|].
      apply elem_of_cons in Hx as [->|Hx].
      * eapply Qle_trans; [apply Hmin; left | done].
      * apply Hmin. by right.
Qed.

Lemma heappop_least pq m pq' :
  heappop pq = Some (m, pq') → ∀ x, x ∈ pq → (entry_dist m <= entry_dist x)%Q.
Proof.
  destruct pq as [|e rest]; [done|]. simpl. intros [= H]. by eapply extract_min_least.
Qed.

Lemma heappop_elem_of pq m pq' x :
  heappop pq = Some (m, pq') → x ∈ pq ↔ x = m ∨ x ∈ pq'.
Proof. intros H%heappop_perm. by rewrite <- H, elem_of_cons. Qed.

(** The two outcomes of one pass of the inner loop. *)
Lemma relax_cases weight_func d cs cl tr st e :
  let next := (e.1.1, e.1.2) in
  let nd := (d + edge_cost weight_func (cs, cl) e)%Q in
  (relax weight_func d cs cl tr st e = st ∧
   ((next ∈ visited st) ∨
    (∃ dv, distances st !! next = Some dv ∧ (dv <= nd)%Q))) ∨
  ((next ∉ visited st) ∧
   (∀ dv, distances st !! next = Some dv → (nd < dv)%Q) ∧
   ∃ tr',
     relax weight_func d cs cl tr st e
     = {| distances := <[next := nd]> (distances st);
          previous := <[next := ((cs, cl), e.2, bool_decide (e.1.2 ≠ cl))]> (previous st);
          visited := visited st;
          pq := (nd, e.1.1, e.1.2, tr') :: pq st |} ∧
     tr' ≤ tr + 1).
Proof.
  destruct e as [[ns nl] t]. simpl. unfold relax.
  destruct (decide ((ns, nl) ∈ visited st)) as [Hv|Hv]; [left; auto|].
  change (match weight_func with
          | Some f => f cs ns cl nl t (bool_decide (nl ≠ cl))
          | None => inject_Z t
          end) with (edge_cost weight_func (cs, cl) (ns, nl, t)).
  destruct (distances st !! (ns, nl)) as [dv|] eqn:E.
  - destruct (Qltb _ dv) eqn:Hlt.
    + right. apply Qltb_true in Hlt. split_and!; [done | by intros ? [= <-] |].
      eexists. split; [done|]. destruct (bool_decide _); lia.
    + left. apply Qltb_false in Hlt. split; [done|]. right. eauto.
  - right. split_and!; [done | done |].
    eexists. split; [done|]. destruct (bool_decide _); lia.
Qed.

Lemma node_eta (n : node) : (n.1, n.2) = n.
Proof. by destruct n. Qed.

Lemma pop_dist_skip sg weight_func start st m pq' :
  dist_inv sg weight_func start st →
  heappop (pq st) = Some (m, pq') →
  entry_node m ∈ visited st →
  dist_inv sg weight_func start
    {| distances := distances st; previous := previous st;
       visited := visited st; pq := pq' |}.
Proof.
  intros (D1 & D2 & D4 & D5) Hpop Hv. split_and!; simpl; [| |done|done].
  - intros en Hen. apply D1. rewrite (heappop_elem_of _ _ _ _ Hpop). by right.
  - intros n d Hn Hnv. destruct (D2 n d Hn Hnv) as [tr Htr]. exists tr.
    apply (heappop_elem_of _ _ _ _ Hpop) in Htr as [E|Htr]; [|done].
    exfalso. apply Hnv. rewrite <- E in Hv. unfold entry_node in Hv. simpl in Hv.
    by rewrite node_eta in Hv.
Qed.

Lemma pop_dist_visit sg weight_func start st m pq' :
  dist_inv sg weight_func start st →
  heappop (pq st) = Some (m, pq') →
  entry_node m ∉ visited st →
  dist_inv sg weight_func start
    {| distances := distances st; previous := previous st;
       visited := set_add (entry_node m) (visited st); pq := pq' |} ∧
  ∃ dm, distances st !! entry_node m = Some dm ∧ dm == entry_dist m.
Proof.
  intros (D1 & D2 & D4 & D5) Hpop Hv.
  assert (Hm : m ∈ pq st) by (rewrite (heappop_elem_of _ _ _ _ Hpop); by left).
  split.
  - split_and!; simpl; [| |done|done].
    + intros en Hen. apply D1. rewrite (heappop_elem_of _ _ _ _ Hpop). by right.
    + intros n d Hn Hnv. rewrite elem_of_set_add in Hnv.
      destruct (D2 n d Hn) as [tr Htr]; [tauto|]. exists tr.
      apply (heappop_elem_of _ _ _ _ Hpop) in Htr as [E|Htr]; [|done].
      exfalso. apply Hnv. left. rewrite <- E. unfold entry_node. simpl.
      by rewrite node_eta.
  - destruct (D1 m Hm) as (dm & Hdm & Hle). exists dm. split; [done|].
    destruct (D2 _ _ Hdm Hv) as [tr Htr].
    pose proof (heappop_least _ _ _ Hpop _ Htr) as Hmin.
    unfold entry_dist in Hmin at 2. simpl in Hmin. lra.
Qed.

Lemma relax_dist sg weight_func start d dcur cs cl tr st e :
  dist_inv sg weight_func start st →
  (∀ v u t b, previous st !! v = Some (u, t, b) → u ∈ visited st) →
  (cs, cl) ∈ visited st →
  start ∈ visited st →
  distances st !! (cs, cl) = Some dcur → dcur == d →
  e ∈ get_adjacent_stations sg cs cl →
  dist_inv sg weight_func start (relax weight_func d cs cl tr st e).
Proof.
  intros Hinv Hsrc Hcur Hstart Hdcur Hd He.
  destruct (relax_cases weight_func d cs cl tr st e)
    as [[-> _]|(Hnv & Hlt & tr' & -> & _)]; [done|].
  destruct Hinv as (D1 & D2 & D4 & D5).
  set (next := (e.1.1, e.1.2)) in *.
  set (nd := (d + edge_cost weight_func (cs, cl) e)%Q) in *.
  assert (Hnc : next ≠ (cs, cl)) by (intros E; apply Hnv; by rewrite E).
  assert (Hns : next ≠ start) by (intros E; apply Hnv; by rewrite E).
  split_and!; simpl.
  - intros en [->|Hen]%elem_of_cons.
    + exists nd. unfold entry_node, entry_dist. simpl. fold next.
      rewrite lookup_insert_eq. split; [done | apply Qle_refl].
    + destruct (D1 en Hen) as (dv & Hdv & Hle).
      destruct (decide (next = entry_node en)) as [E|Hne].
      * rewrite <- E in *. exists nd. rewrite lookup_insert_eq. split; [done|].
        apply Hlt in Hdv. lra.
      * exists dv. by rewrite lookup_insert_ne.
  - intros n dn Hn Hnvis. destruct (decide (next = n)) as [<-|Hne].
    + rewrite lookup_insert_eq in Hn. injection Hn as <-.
      exists tr'. left.
    + rewrite lookup_insert_ne in Hn by done.
      destruct (D2 n dn Hn Hnvis) as [tr0 H0]. exists tr0. by right.
  - intros v u t b Hv. destruct (decide (next = v)) as [<-|Hne].
    + rewrite lookup_insert_eq in Hv. injection Hv as <- <- <-.
      split; [by destruct e as [[??]?]|].
      exists dcur, nd. rewrite lookup_insert_ne by done.
      rewrite lookup_insert_eq. split_and!; [done | done |].
      unfold nd. simpl. destruct e as [[??]?]. simpl. lra.
    + rewrite lookup_insert_ne in Hv by done.
      destruct (D4 v u t b Hv) as (Hedge & du & dv & Hu & Hdv & Heq).
      split; [done|]. exists du, dv.
      rewrite !lookup_insert_ne; [done | done |].
      intros E. apply Hnv. rewrite E. by eapply Hsrc.
  - destruct D5 as (d0 & H0 & E0). exists d0. by rewrite lookup_insert_ne.
Qed.

(** ** The search without pruning: optimality *)

Lemma foldl_prefix_invariant {A B} (I : list B → A → Prop) (f : A → B → A)
    (l : list B) (a : A) :
  I [] a →
  (∀ done x a', x ∈ l → I done a' → I (done ++ [x]) (f a' x)) →
  I l (foldl f a l).
Proof.
  intros Ha Hstep.
  enough (∀ done a, I done a → (∀ x, x ∈ l → x ∈ l) →
           ∀ rest, (∀ x, x ∈ rest → x ∈ l) → I (done ++ rest) (foldl f a rest)) as H.
  { apply (H [] a Ha (λ _ h, h) l). auto. }
  clear a Ha. intros done a Ha _ rest. revert done a Ha.
  induction rest as [|x rest IH]; intros done a Ha Hsub; simpl.
  - by rewrite app_nil_r.
  - rewrite (cons_middle x done rest), app_assoc. apply IH.
    + apply Hstep; [apply Hsub; left | done].
    + intros y Hy. apply Hsub. by right.
Qed.

Lemma relax_visited weight_func d cs cl tr st e :
  visited (relax weight_func d cs cl tr st e) = visited st.
Proof. apply relax_pending. Qed.

Lemma relax_expanding sg weight_func end_station d cs cl tr done st e :
  expanding sg weight_func end_station (cs, cl) d done st →
  (cs, cl) ∈ visited st →
  (0 <= edge_cost weight_func (cs, cl) e)%Q →
  expanding sg weight_func end_station (cs, cl) d (done ++ [e])
    (relax weight_func d cs cl tr st e).
Proof.
  intros (Hcur & HV & HO & Hdone & Hpq & Hend) Hvis Hcost.
  destruct (relax_cases weight_func d cs cl tr st e)
    as [[-> Hsame]|(Hnv & Hlt & tr' & -> & _)].
  - split_and!; try done.
    intros e' [He'| ->%list_elem_of_singleton]%elem_of_app; [by apply Hdone|].
    destruct Hsame as [Hin|(dv & Hdv & Hle)].
    + destruct (HV _ Hin) as (dv & Hdv & Hle). exists dv. split; [done | lra].
    + exists dv. done.
  - set (next := (e.1.1, e.1.2)) in *.
    set (nd := (d + edge_cost weight_func (cs, cl) e)%Q) in *.
    assert (Hne : ∀ u, u ∈ visited st → next ≠ u).
    { intros u Hu E. apply Hnv. by rewrite E. }
    assert (Hdec : ∀ n dv, distances st !! n = Some dv →
              ∃ dv', <[next := nd]> (distances st) !! n = Some dv' ∧ (dv' <= dv)%Q).
    { intros n dv Hn. destruct (decide (next = n)) as [<-|Hn'].
      - exists nd. rewrite lookup_insert_eq. split; [done|]. apply Hlt in Hn. lra.
      - exists dv. rewrite lookup_insert_ne by done. split; [done | apply Qle_refl]. }
    split_and!; simpl.
    + destruct Hcur as (dcur & Hd & E). exists dcur.
      rewrite lookup_insert_ne by (by apply Hne). done.
    + intros u Hu. destruct (HV u Hu) as (du & Hdu & Hle). exists du.
      rewrite lookup_insert_ne by (by apply Hne). done.
    + intros u e' Hu Hucur He'.
      destruct (HO u e' Hu Hucur He') as (du & dv & Hdu & Hdv & Hle).
      destruct (Hdec _ _ Hdv) as (dv' & Hdv' & Hle').
      exists du, dv'. rewrite lookup_insert_ne by (by apply Hne).
      split_and!; [done | done | lra].
    + intros e' [He'| ->%list_elem_of_singleton]%elem_of_app.
      * destruct (Hdone e' He') as (dv & Hdv & Hle).
        destruct (Hdec _ _ Hdv) as (dv' & Hdv' & Hle').
        exists dv'. split; [done | lra].
      * exists nd. fold next. rewrite lookup_insert_eq. split; [done | apply Qle_refl].
    + intros en [->|Hen]%elem_of_cons; [|by apply Hpq].
      unfold entry_dist. simpl. unfold nd. lra.
    + done.
Qed.

Lemma relax_transfers weight_func d cs cl tr st e (bound : Z) :
  (∀ en : pq_entry, en ∈ pq st → en.2 ≤ bound) → tr + 1 ≤ bound →
  ∀ en : pq_entry, en ∈ pq (relax weight_func d cs cl tr st e) → en.2 ≤ bound.
Proof.
  intros Hpq Htr.
  destruct (relax_cases weight_func d cs cl tr st e)
    as [[-> _]|(_ & _ & tr' & -> & Htr')]; [done|].
  simpl. intros en [->|Hen]%elem_of_cons; [simpl; lia | by apply Hpq].
Qed.

Lemma adjacent_nonneg sg weight_func (u : node) (e : edge) :
  nonneg_costs sg weight_func →
  e ∈ get_adjacent_stations sg u.1 u.2 →
  (0 <= edge_cost weight_func u e)%Q.
Proof.
  intros Hnn. unfold get_adjacent_stations. destruct u as [s l]. simpl.
  destruct (_ !! _) as [es|] eqn:Eg; simpl; intros He.
  - exact (Hnn (s, l) es e Eg He).
  - by inversion He.
Qed.

(** A walk from the start either stays among visited nodes, and then costs
    at least the distance of its end, or costs at least as much as some
    entry that waits in the queue for a node not visited yet. *)
Lemma walk_bound sg weight_func start end_station st hs x :
  nonneg_costs sg weight_func →
  dist_inv sg weight_func start st →
  opt_inv sg weight_func end_station st →
  walk sg start hs x →
  (x ∈ visited st ∧
   ∃ dx, distances st !! x = Some dx ∧ (dx <= hops_cost weight_func hs)%Q) ∨
  (∃ en, en ∈ pq st ∧ (entry_dist en <= hops_cost weight_func hs)%Q).
Proof.
  intros Hnn (D1 & D2 & D4 & d0 & Hd0 & E0) (O1 & O2 & O4).
  assert (Hfront : ∀ n dn c, distances st !! n = Some dn → (dn <= c)%Q →
            (n ∈ visited st ∧ ∃ dx, distances st !! n = Some dx ∧ (dx <= c)%Q) ∨
            (∃ en, en ∈ pq st ∧ (entry_dist en <= c)%Q)).
  { intros n dn c Hn Hle. destruct (decide (n ∈ visited st)) as [Hv|Hv].
    - left. eauto.
    - right. destruct (D2 n dn Hn Hv) as [tr Htr]. eexists. split; [done|].
      unfold entry_dist. simpl. done. }
  induction 1 as [|hs u e Hwalk IH He].
  - apply (Hfront start d0); [done|]. unfold hops_cost, py_sum. simpl. lra.
  - assert (Hcost : hops_cost weight_func (hs ++ [(u, e)])
                    = (hops_cost weight_func hs + edge_cost weight_func u e)%Q).
    { unfold hops_cost, py_sum. by rewrite fmap_app, foldl_app. }
    rewrite Hcost.
    assert (0 <= edge_cost weight_func u e)%Q as Hpos.
    { by eapply adjacent_nonneg. }
    destruct IH as [(Hu & du & Hdu & Hle)|(en & Hen & Hle)].
    + destruct (O1 u e Hu He) as (du' & dv & Hdu' & Hdv & Hle').
      pose proof (eq_trans (eq_sym Hdu) Hdu') as [= <-].
      apply (Hfront _ dv); [done | lra].
    + right. exists en. split; [done | lra].
Qed.

Lemma pop_opt_skip sg weight_func end_station st m pq' :
  opt_inv sg weight_func end_station st →
  heappop (pq st) = Some (m, pq') →
  opt_inv sg weight_func end_station
    {| distances := distances st; previous := previous st;
       visited := visited st; pq := pq' |}.
Proof.
  intros (O1 & O2 & O4) Hpop. split_and!; simpl; [done | | done].
  intros u Hu. destruct (O2 u Hu) as (du & Hdu & Hle). exists du. split; [done|].
  intros en Hen. apply Hle. rewrite (heappop_elem_of _ _ _ _ Hpop). by right.
Qed.

Lemma pop_expanding sg weight_func end_station st m pq' dm :
  opt_inv sg weight_func end_station st →
  heappop (pq st) = Some (m, pq') →
  distances st !! entry_node m = Some dm → dm == entry_dist m →
  (entry_node m).1 ≠ end_station →
  expanding sg weight_func end_station (entry_node m) (entry_dist m) []
    {| distances := distances st; previous := previous st;
       visited := set_add (entry_node m) (visited st); pq := pq' |}.
Proof.
  intros (O1 & O2 & O4) Hpop Hdm Edm Hend.
  assert (Hm : m ∈ pq st) by (rewrite (heappop_elem_of _ _ _ _ Hpop); by left).
  split_and!; simpl.
  - by exists dm.
  - intros u [->|Hu]%elem_of_set_add.
    + exists dm. split; [done | lra].
    + destruct (O2 u Hu) as (du & Hdu & Hle). exists du. split; [done | by apply Hle].
  - intros u e [->|Hu]%elem_of_set_add Hne He; [done | by apply O1].
  - by intros e He%elem_of_nil.
  - intros en Hen. apply (heappop_least _ _ _ Hpop).
    rewrite (heappop_elem_of _ _ _ _ Hpop). by right.
  - intros u [->|Hu]%elem_of_set_add; [done | by apply O4].
Qed.

Lemma expanding_done sg weight_func end_station cur d st :
  expanding sg weight_func end_station cur d
    (get_adjacent_stations sg cur.1 cur.2) st →
  opt_inv sg weight_func end_station st.
Proof.
  intros ((dcur & Hdcur & Ecur) & HV & HO & Hdone & Hpq & Hend). split_and!.
  - intros u e Hu He. destruct (decide (u = cur)) as [->|Hne]; [|by apply HO].
    destruct (Hdone e He) as (dv & Hdv & Hle). exists dcur, dv.
    split_and!; [done | done | lra].
  - intros u Hu. destruct (HV u Hu) as (du & Hdu & Hle). exists du. split; [done|].
    intros en Hen. apply Hpq in Hen. lra.
  - done.
Qed.

(** The traversed edges of a visited node form a walk from the start whose
    cost is the node's distance. *)
Lemma backtrack_hops_settled (sg : SubwayGraph) (weight_func : option weight_fn)
    (start : node)
    (previous : gmap node (node * Z * bool)) (order : list node)
    (ds : gmap node Q) :
  settled_order start previous order →
  (∀ v u t b, previous !! v = Some (u, t, b) →
     (v.1, v.2, t) ∈ get_adjacent_stations sg u.1 u.2 ∧
     ∃ du dv, ds !! u = Some du ∧ ds !! v = Some dv ∧
              dv == du + edge_cost weight_func u (v.1, v.2, t)) →
  (∃ d0, ds !! start = Some d0 ∧ d0 == 0) →
  ∀ m fuel acc, m ∈ order → (length order ≤ fuel)%nat →
    ∃ hs dm, backtrack_hops fuel previous m acc = Some (hs ++ acc) ∧
             walk sg start hs m ∧
             ds !! m = Some dm ∧ hops_cost weight_func hs == dm.
Proof.
  intros Hord D4 (d0 & Hd0 & E0).
  induction Hord as [Hs|n p t b order Hn Hp Hno Hord IH]; intros m fuel acc Hm Hfuel.
  - apply list_elem_of_singleton in Hm as ->.
    destruct fuel as [|fuel]; [simpl in Hfuel; lia|].
    exists [], d0. simpl. rewrite Hs. split_and!; [done | constructor | done |].
    unfold hops_cost, py_sum. simpl. lra.
  - destruct fuel as [|fuel]; [simpl in Hfuel; lia|]. simpl in Hfuel.
    destruct (decide (m = n)) as [->|Hne].
    + simpl. rewrite Hn.
      destruct (IH p fuel ((p, (n.1, n.2, t)) :: acc) Hp ltac:(lia))
        as (hs & dp & Hrun & Hwalk & Hdp & Ecost).
      destruct (D4 n p t b Hn) as (Hedge & du & dv & Hdu & Hdv & Edv).
      pose proof (eq_trans (eq_sym Hdp) Hdu) as [= <-].
      exists (hs ++ [(p, (n.1, n.2, t))]), dv. split_and!.
      * rewrite Hrun. by rewrite <- app_assoc.
      * pose proof (walk_step sg start hs p (n.1, n.2, t) Hwalk Hedge) as Hw.
        by destruct n.
      * done.
      * unfold hops_cost, py_sum in *. rewrite fmap_app, foldl_app. simpl. lra.
    + apply elem_of_cons in Hm as [?|Hm]; [done|].
      apply (IH m (S fuel)); [done | lia].
Qed.

Lemma initial_search_inv sg weight_func ceiling s l e fuel :
  Z.of_nat fuel ≤ ceiling →
  search_inv sg weight_func ceiling (s, l) e fuel (initial_state s l).
Proof.
  intros Hc. split_and!.
  - exists []. apply initial_links.
  - split_and!; simpl.
    + intros en ->%list_elem_of_singleton. exists 0%Q.
      unfold entry_node, entry_dist. simpl.
      rewrite lookup_singleton_eq. split; [done | apply Qle_refl].
    + intros n d [<- <-]%lookup_singleton_Some _. exists 0. simpl. left.
    + intros v u t b H. by rewrite lookup_empty in H.
    + exists 0%Q. rewrite lookup_singleton_eq. split; [done | reflexivity].
  - split_and!; simpl; intros u; try (intros ? Hu); try (intros Hu); set_solver.
  - simpl. intros en ->%list_elem_of_singleton. simpl. lia.
Qed.

(** A search whose ceiling is out of reach ends at a cheapest node of the
    destination, or fails because no walk leads there. *)
Lemma uncapped_loop_correct sg weight_func ceiling s l e :
  nonneg_costs sg weight_func →
  ∀ fuel st,
    search_inv sg weight_func ceiling (s, l) e fuel st →
    match dijkstra_loop sg weight_func ceiling fuel s e st with
    | Some (Some p) => optimal_result sg weight_func (s, l) e p
    | Some None => ∀ hs x, walk sg (s, l) hs x → x.1 ≠ e
    | None => True
    end.
Proof.
  intros Hnn. induction fuel as [|fuel IH]; intros st Hinv; [done|].
  destruct Hinv as ((order & Hlinks) & Hdist & Hopt & Htr).
  simpl.
  destruct (heappop (pq st)) as [[[[[d cs] cl] tr] pq']|] eqn:Hpop.
  2:{ intros hs x Hwalk Hx.
      destruct (pq st) eqn:Epq; [|done].
      destruct (walk_bound _ _ _ _ _ _ _ Hnn Hdist Hopt Hwalk)
        as [[Hv _]|(en & Hen & _)].
      - destruct Hopt as (_ & _ & O4). by apply (O4 x).
      - rewrite Epq in Hen. by inversion Hen. }
  set (m := (d, cs, cl, tr)) in *.
  assert (Hm : m ∈ pq st) by (rewrite (heappop_elem_of _ _ _ _ Hpop); by left).
  assert (Htr' : ∀ en : pq_entry, en ∈ pq' → en.2 ≤ ceiling - Z.of_nat fuel).
  { intros en Hen. assert (en ∈ pq st) as H%Htr; [|lia].
    rewrite (heappop_elem_of _ _ _ _ Hpop). by right. }
  destruct (decide ((cs, cl) ∈ visited st)) as [Hv|Hv].
  { apply IH. split_and!.
    - exists order. by eapply skip_links.
    - by eapply pop_dist_skip.
    - by eapply pop_opt_skip.
    - done. }
  pose proof (pop_links _ _ _ _ _ Hlinks Hpop Hv) as Hlinks'.
  destruct (pop_dist_visit _ _ _ _ _ _ Hdist Hpop Hv) as (Hdist' & dm & Hdm & Edm).
  change (entry_node m) with (cs, cl) in *. change (entry_dist m) with d in *.
  destruct (decide (cs = e)) as [->|Hne].
  { split; [done|]. simpl.
    assert (Hord : settled_order (s, l) (previous st) ((e, cl) :: order)).
    { destruct Hlinks' as (_ & [?|?] & _); done. }
    destruct Hdist as (D1 & D2 & D4 & D5).
    destruct (backtrack_hops_settled sg weight_func _ _ _ (distances st) Hord D4 D5
                (e, cl) (S (size (previous st))) [])
      as (hs & dm' & Hrun & Hwalk & Hdm' & Ecost).
    { left. }
    { by apply settled_order_length in Hord. }
    pose proof (eq_trans (eq_sym Hdm) Hdm') as [= <-].
    exists hs. unfold hops_of. cbn [pi_previous end_state total_distance].
    rewrite Hrun, app_nil_r.
    split_and!; [done | done | lra |].
    intros hs' x Hwalk' Hx.
    destruct (walk_bound _ _ _ _ _ _ _ Hnn (conj D1 (conj D2 (conj D4 D5))) Hopt Hwalk')
      as [[Hxv _]|(en & Hen & Hle)].
    - destruct Hopt as (_ & _ & O4). by destruct (O4 x Hxv).
    - pose proof (heappop_least _ _ _ Hpop _ Hen) as Hmin.
      change (entry_dist m) with d in Hmin. lra. }
  assert (Hcap : bool_decide (ceiling < tr) = false).
  { apply bool_decide_eq_false. specialize (Htr m Hm). simpl in Htr. lia. }
  rewrite Hcap.
  apply IH.
  pose proof (pop_expanding _ _ _ _ _ _ _ Hopt Hpop Hdm Edm Hne) as Hexp.
  change (entry_node m) with (cs, cl) in *. change (entry_dist m) with d in *.
  set (st1 := {| distances := distances st; previous := previous st;
                 visited := set_add (cs, cl) (visited st); pq := pq' |}) in *.
  assert (Hfold :
    (λ done st', links_inv (s, l) st' ((cs, cl) :: order) ∧
                 dist_inv sg weight_func (s, l) st' ∧
                 expanding sg weight_func e (cs, cl) d done st' ∧
                 ∀ en : pq_entry, en ∈ pq st' → en.2 ≤ ceiling - Z.of_nat fuel)
      (get_adjacent_stations sg cs cl)
      (foldl (relax weight_func d cs cl tr) st1 (get_adjacent_stations sg cs cl))).
  { apply foldl_prefix_invariant; [done|].
    intros done x st' Hx (Hl & Hd & Hex & Ht).
    assert (Hcur : (cs, cl) ∈ visited st').
    { destruct Hl as (I1 & _). apply I1. left. }
    assert (Hstart : (s, l) ∈ visited st').
    { destruct Hl as (I1 & [?|I2] & _); [done|].
      apply I1. by eapply settled_order_start. }
    assert (Hsrc : ∀ v u t b, previous st' !! v = Some (u, t, b) → u ∈ visited st').
    { destruct Hl as (I1 & _ & I3 & _). intros v u t b H. apply I1. by eapply I3. }
    destruct Hex as ((dcur & Hdcur & Ecur) & Hrest).
    split_and!.
    - apply relax_links; [left | done].
    - by eapply relax_dist.
    - apply relax_expanding; [by split; [exists dcur|] | done |].
      by apply (adjacent_nonneg sg weight_func (cs, cl)).
    - apply relax_transfers; [done|]. specialize (Htr m Hm). simpl in Htr. lia. }
  destruct Hfold as (Hl & Hd & Hex & Ht).
  split_and!; [by exists ((cs, cl) :: order) | done | | done].
  by apply (expanding_done sg weight_func e (cs, cl) d).
Qed.

Lemma uncapped_search sg weight_func ceiling s l e :
  nonneg_costs sg weight_func →
  Z.of_nat (search_fuel sg) ≤ ceiling →
  match _dijkstra sg weight_func ceiling s l e with
  | Some p => optimal_result sg weight_func (s, l) e p
  | None => ∀ hs x, walk sg (s, l) hs x → x.1 ≠ e
  end.
Proof.
  intros Hnn Hc. unfold _dijkstra.
  pose proof (uncapped_loop_correct sg weight_func ceiling s l e Hnn
                (search_fuel sg) (initial_state s l)
                (initial_search_inv _ _ _ _ _ _ _ Hc)) as H.
  destruct (dijkstra_loop_returns sg weight_func ceiling s l e) as [r Hr].
  rewrite Hr in *. by destruct r.
Qed.

Lemma pick_best_least best path r :
  pick_best best path = r →
  (∀ b, best = Some b →
     ∃ c, r = Some c ∧ (total_distance c <= total_distance b)%Q) ∧
  (∀ q, path = Some q →
     ∃ c, r = Some c ∧ (total_distance c <= total_distance q)%Q).
Proof.
  intros <-. unfold pick_best. destruct path as [q|], best as [b|]; simpl.
  - destruct (Qltb _ _) eqn:E.
    + apply Qltb_true in E. split.
      * intros ? [= <-]. exists q. split; [done | lra].
      * intros ? [= <-]. exists q. split; [done | lra].
    + apply Qltb_false in E. split.
      * intros ? [= <-]. exists b. split; [done | lra].
      * intros ? [= <-]. exists b. split; [done | lra].
  - split; [done|]. intros ? [= <-]. exists q. split; [done | lra].
  - split; [|done]. intros ? [= <-]. exists b. split; [done | lra].
  - done.
Qed.

Lemma foldl_pick_best_least {A} (search : A → option path_info) (ls : list A)
    (best : option path_info) (p : path_info) :
  foldl (λ best l, pick_best best (search l)) best ls = Some p →
  (∀ b, best = Some b → (total_distance p <= total_distance b)%Q) ∧
  (∀ l q, l ∈ ls → search l = Some q → (total_distance p <= total_distance q)%Q).
Proof.
  revert best. induction ls as [|l ls IH]; intros best H; simpl in H.
  - split; [|by intros ?? ?%elem_of_nil]. intros b Hb.
    rewrite Hb in H. injection H as ->. lra.
  - destruct (IH _ H) as [Hbest Hrest].
    destruct (pick_best_least best (search l) _ eq_refl) as [Hb Hq]. split.
    + intros b Eb. destruct (Hb b Eb) as (c & Ec & Hle).
      specialize (Hbest c Ec). lra.
    + intros l' q [->|Hin]%elem_of_cons Hl'; [|by eapply Hrest].
      destruct (Hq q Hl') as (c & Ec & Hle). specialize (Hbest c Ec). lra.
Qed.

Lemma search_best_from sg weight_func max_transfers s e p :
  search_best sg weight_func max_transfers s e = Some p →
  ∃ l, l ∈ get_available_lines sg s ∧
       _dijkstra sg weight_func max_transfers s l e = Some p.
Proof.
  unfold search_best. intros H.
  by apply best_path_from_search in H as [?|?].
Qed.

(** Between two searches that the ceiling leaves alone, the route of one is
    at most as costly under its own weight function as the route of the
    other. *)
Lemma best_route_cheapest sg w w' mt mt' s e p p' :
  nonneg_costs sg w → nonneg_costs sg w' →
  ceiling_idle sg w mt s e → ceiling_idle sg w' mt' s e →
  search_best sg w mt s e = Some p →
  search_best sg w' mt' s e = Some p' →
  (hops_cost w (route_hops sg w mt s e) <= hops_cost w (route_hops sg w' mt' s e))%Q.
Proof.
  intros Hnn Hnn' Hidle Hidle' Hp Hp'.
  unfold route_hops. rewrite Hp, Hp'.
  destruct (search_best_from _ _ _ _ _ _ Hp) as (l & Hl & Hrun).
  destruct (search_best_from _ _ _ _ _ _ Hp') as (l' & Hl' & Hrun').
  rewrite (Hidle l Hl) in Hrun. rewrite (Hidle' l' Hl') in Hrun'.
  pose proof (uncapped_search sg w _ s l e Hnn (Z.le_refl _)) as Hopt.
  rewrite Hrun in Hopt. destruct Hopt as (_ & hs & -> & _ & Ecost & _).
  pose proof (uncapped_search sg w' _ s l' e Hnn' (Z.le_refl _)) as Hopt'.
  rewrite Hrun' in Hopt'. destruct Hopt' as (Hend' & hs' & -> & Hwalk' & _).
  simpl.
  pose proof (uncapped_search sg w _ s l' e Hnn (Z.le_refl _)) as Hcross.
  destruct (_dijkstra sg w (Z.of_nat (search_fuel sg)) s l' e) as [q|] eqn:Eq.
  - destruct Hcross as (_ & _ & _ & _ & _ & Hleast).
    specialize (Hleast hs' _ Hwalk' Hend').
    unfold search_best in Hp. apply foldl_pick_best_least in Hp as [_ Hmin].
    specialize (Hmin l' q Hl'). rewrite (Hidle l' Hl') in Hmin.
    specialize (Hmin Eq). lra.
  - by destruct (Hcross hs' _ Hwalk').
Qed.

Lemma same_station_hops sg weight_func max_transfers s :
  route_hops sg weight_func max_transfers s s = [].
Proof.
  unfold route_hops.
  destruct (search_best _ _ _ _ _) as [p|] eqn:E; [|done].
  apply search_best_from in E as (l & _ & Hrun).
  unfold _dijkstra, search_fuel in Hrun. simpl in Hrun.
  rewrite decide_False in Hrun by set_solver.
  rewrite decide_True in Hrun by done. simpl in Hrun. by injection Hrun as <-.
Qed.

Lemma find_shortest_path_search sg origin destination weight_func max_transfers r :
  origin ≠ destination →
  find_shortest_path sg origin destination weight_func max_transfers = Some r →
  ∃ p, search_best sg weight_func max_transfers origin destination = Some p.
Proof.
  intros Hne Hr. unfold find_shortest_path in Hr.
  destruct (validate_station sg origin); [|done].
  destruct (validate_station sg destination); [|done]. cbn [negb] in Hr.
  rewrite decide_False in Hr by done. unfold search_best.
  destruct (get_available_lines sg origin) as [|l0 ls] eqn:El; [done|].
  destruct (foldl _ None (l0 :: ls)) as [p|] eqn:Ebest; [|done]. by exists p.
Qed.

Lemma crimes_at_nonneg (crime_data : gmap string Z) station :
  map_Forall (λ _ c, 0 ≤ c) crime_data → 0 ≤ Z.min (crimes_at crime_data station) 20.
Proof.
  intros H. unfold crimes_at. destruct (crime_data !! station) as [c|] eqn:E; simpl.
  - apply H in E. lia.
  - lia.
Qed.

Lemma weights_nonneg sg (crime_data : gmap string Z) :
  nonneg_times sg → map_Forall (λ _ c, 0 ≤ c) crime_data →
  nonneg_costs sg (Some (weight_safe crime_data)) ∧
  nonneg_costs sg (Some weight_fast) ∧
  nonneg_costs sg (Some (weight_balanced crime_data)).
Proof.
  intros Ht Hc.
  assert (Hq : ∀ z, 0 ≤ z → (0 <= inject_Z z)%Q).
  { intros z Hz. change 0%Q with (inject_Z 0). by rewrite <- Zle_Qle. }
  split_and!; intros u es e Hu He; pose proof (Hq _ (Ht u es e Hu He)) as Htime;
    unfold edge_cost.
  - unfold weight_safe.
    pose proof (Hq _ (crimes_at_nonneg crime_data e.1.1 Hc)) as Hcr.
    set (t := inject_Z e.2) in *. set (c := inject_Z (Z.min _ 20)) in *.
    assert (0 <= t * (1 + c / 10))%Q.
    { apply Qmult_le_0_compat; [done|]. unfold Qdiv.
      change (/ 10)%Q with (1 # 10)%Q. lra. }
    destruct (bool_decide _); lra.
  - unfold weight_fast. destruct (bool_decide _); lra.
  - unfold weight_balanced.
    pose proof (Hq _ (crimes_at_nonneg crime_data e.1.1 Hc)) as Hcr.
    set (t := inject_Z e.2) in *. set (c := inject_Z (Z.min _ 20)) in *.
    destruct (bool_decide _); lra.
Qed.

(** ** The traversed edges are those of the returned route *)

Lemma backtrack_with_hops (start : node) (previous : gmap node (node * Z * bool))
    (order : list node) :
  settled_order start previous order →
  ∀ m fuel sts lns tt tr acc, m ∈ order → (length order ≤ fuel)%nat →
    ∃ hs lns' tr',
      backtrack fuel previous m sts lns tt tr
        = Some (start.1 :: hops_stations hs ++ sts, lns', tt + hops_time hs, tr') ∧
      backtrack_hops fuel previous m acc = Some (hs ++ acc).
Proof.
  induction 1 as [Hs|n p t b order Hn Hp Hno Hord IH];
    intros m fuel sts lns tt tr acc Hm Hfuel.
  - apply list_elem_of_singleton in Hm as ->.
    destruct fuel as [|fuel]; [simpl in Hfuel; lia|].
    exists [], (start.2 :: lns), tr. simpl. rewrite Hs.
    unfold hops_time. simpl. by rewrite Z.add_0_r.
  - destruct fuel as [|fuel]; [simpl in Hfuel; lia|]. simpl in Hfuel.
    destruct (decide (m = n)) as [->|Hne].
    + simpl. rewrite Hn.
      destruct (IH p fuel (n.1 :: sts) (n.2 :: lns) (tt + t)
                  (if b then tr + 1 else tr) ((p, (n.1, n.2, t)) :: acc) Hp ltac:(lia))
        as (hs & lns' & tr' & Hrun & Hhops).
      exists (hs ++ [(p, (n.1, n.2, t))]), lns', tr'.
      rewrite Hrun, Hhops. split.
      * unfold hops_stations, hops_time. rewrite fmap_app, foldl_app. simpl.
        rewrite <- !app_assoc. simpl. do 3 f_equal. fold (hops_time hs). lia.
      * by rewrite <- app_assoc.
    + apply elem_of_cons in Hm as [?|Hm]; [done|].
      apply (IH m (S fuel)); [done | lia].
Qed.

(** The edges re-scored above are the edges of the returned route: they
    pass its stations, in order, and their travel times add up to its
    total time. *)
Lemma route_hops_of_route sg origin destination weight_func max_transfers r :
  origin ≠ destination →
  find_shortest_path sg origin destination weight_func max_transfers = Some r →
  stations r
    = origin :: hops_stations (route_hops sg weight_func max_transfers
                                 origin destination) ∧
  total_time_minutes r
    = hops_time (route_hops sg weight_func max_transfers origin destination).
Proof.
  intros Hne Hr. unfold find_shortest_path in Hr.
  destruct (validate_station sg origin); [|done].
  destruct (validate_station sg destination); [|done]. cbn [negb] in Hr.
  rewrite decide_False in Hr by done. unfold route_hops, search_best.
  destruct (get_available_lines sg origin) as [|l0 ls] eqn:El; [done|].
  destruct (foldl _ None (l0 :: ls)) as [p|] eqn:Ebest; [|done].
  pose proof Ebest as Hfrom.
  apply best_path_from_search in Hfrom as [?|(l & _ & Hsearch)]; [done|].
  apply dijkstra_result in Hsearch as [Hend (order' & Hord)].
  destruct (backtrack_with_hops _ _ _ Hord (end_state p) (S (size (pi_previous p)))
              [] [] 0 0 []) as (hs & lns' & tr' & Hrun & Hhops).
  { left. }
  { by apply settled_order_length in Hord. }
  unfold _extract_route in Hr. rewrite Hrun in Hr. injection Hr as <-.
  unfold hops_of. rewrite Hhops. simpl. by rewrite !app_nil_r.
Qed.

Lemma nonneg_times_check sg :
  forallb (λ kv : node * list edge, forallb (λ e : edge, 0 <=? e.2) kv.2)
    (map_to_list (graph sg)) = true →
  nonneg_times sg.
Proof.
  intros H u es e Hu He. rewrite forallb_forall in H.
  apply elem_of_map_to_list, list_elem_of_In, H in Hu. simpl in Hu.
  rewrite forallb_forall in Hu. apply list_elem_of_In, Hu in He. lia.
Qed.

Lemma ceiling_idle_check sg weight_func max_transfers s e :
  forallb (λ l, bool_decide
                  (_dijkstra sg weight_func max_transfers s l e
                   = _dijkstra sg weight_func (Z.of_nat (search_fuel sg)) s l e))
    (get_available_lines sg s) = true →
  ceiling_idle sg weight_func max_transfers s e.
Proof.
  intros H l Hl. rewrite forallb_forall in H.
  apply list_elem_of_In, H in Hl. by apply bool_decide_eq_true in Hl.
Qed.

(** Where the ceiling stays out of the way the searches are Dijkstra's
    algorithm.  When the three routes are returned, the crime counts and
    travel times are not negative, and the transfer ceiling does not come
    into play in any of the searches, each named route costs at most as
    much as the two others under the weight function it is named for. *)
Lemma named_routes_optimal_when_idle (ro : RouteOptimizer)
    (origin destination : string) (rs rf rb : Route) :
  generate_routes ro origin destination = Some [rs; rf; rb] →
  map_Forall (λ _ c, 0 ≤ c) (ro_crime_data ro) →
  nonneg_times (router ro) →
  ceiling_idle (router ro) (Some (weight_safe (ro_crime_data ro)))
    default_max_transfers origin destination →
  ceiling_idle (router ro) (Some weight_fast)
    default_max_transfers origin destination →
  ceiling_idle (router ro) (Some (weight_balanced (ro_crime_data ro)))
    default_max_transfers origin destination →
  named_routes_optimal ro origin destination.
Proof.
  intros Hgen Hcrime Htimes Hs Hf Hb. unfold named_routes_optimal.
  destruct (decide (origin = destination)) as [->|Hne].
  { rewrite !same_station_hops. split_and!; apply Qle_refl. }
  destruct (weights_nonneg _ _ Htimes Hcrime) as (Hns & Hnf & Hnb).
  unfold generate_routes in Hgen.
  destruct (_generate_safe_route ro origin destination) as [r1|] eqn:E1;
    destruct (_generate_fast_route ro origin destination) as [r2|] eqn:E2;
    destruct (_generate_balanced_route ro origin destination) as [r3|] eqn:E3;
    try discriminate Hgen.
  apply find_shortest_path_search in E1 as [ps Eps]; [|done].
  apply find_shortest_path_search in E2 as [pf Epf]; [|done].
  apply find_shortest_path_search in E3 as [pb Epb]; [|done].
  split_and!; by eapply best_route_cheapest.
Qed.

(** From Queens Plaza to Chambers Street on the shipped tables the three
    routes differ (lines 7, S, 4; lines 7, 1; lines 7, 1, Q), the ceiling
    stays out of the way, and each route is strictly the cheapest under its
    own weight: 40 against 44 and 43 for Fast, 53 against 56 and 53.5 for
    Safe, 26.675 against 28.925 and 30.025 for Balanced. *)
Lemma named_routes_optimal_when_idle_example :
  let ro := example_optimizer in
  let safe := Some (weight_safe (ro_crime_data ro)) in
  let fast := Some weight_fast in
  let balanced := Some (weight_balanced (ro_crime_data ro)) in
  let hops w := route_hops (router ro) w default_max_transfers
                  "Queens Plaza" "Chambers Street" in
  named_routes_optimal ro "Queens Plaza" "Chambers Street" ∧
  (hops_cost fast (hops fast) == 40 ∧ hops_cost fast (hops safe) == 44 ∧
   hops_cost fast (hops balanced) == 43)%Q ∧
  (hops_cost safe (hops safe) == 53 ∧ hops_cost safe (hops fast) == 56 ∧
   hops_cost safe (hops balanced) == 107 # 2)%Q ∧
  (hops_cost balanced (hops balanced) == 1067 # 40 ∧
   hops_cost balanced (hops safe) == 1157 # 40 ∧
   hops_cost balanced (hops fast) == 1201 # 40)%Q.
Proof.
  split; [|by vm_compute].
  eapply (named_routes_optimal_when_idle example_optimizer
            "Queens Plaza" "Chambers Street").
  - vm_compute. reflexivity.
  - by apply (bool_decide_unpack _); vm_compute.
  - apply nonneg_times_check. by vm_compute.
  - apply ceiling_idle_check. by vm_compute.
  - apply ceiling_idle_check. by vm_compute.
  - apply ceiling_idle_check. by vm_compute.
Defined.


(** ** Scores: order, bounds and labels *)

Section ScoreMore.
Import Score.

Lemma py_round_floor x : Qfloor x ≤ py_round x ≤ Qfloor x + 1.
Proof.
  unfold py_round. destruct (_ ?= _)%Q; [destruct (Z.even _)| |]; lia.
Qed.

Lemma py_round_mono x y : (x <= y)%Q → py_round x ≤ py_round y.
Proof.
  intros Hxy. pose proof (Qfloor_resp_le _ _ Hxy) as Hf.
  pose proof (py_round_floor x). pose proof (py_round_floor y).
  destruct (decide (Qfloor x = Qfloor y)) as [E|Hne]; [|lia].
  unfold py_round. rewrite E.
  destruct (Qcompare_spec (x - inject_Z (Qfloor y)) (1 # 2)) as [Hx|Hx|Hx];
    destruct (Qcompare_spec (y - inject_Z (Qfloor y)) (1 # 2)) as [Hy|Hy|Hy];
    try destruct (Z.even _); try lia; exfalso; lra.
Qed.

Lemma tier_mono p q : (p <= q)%Q → (tier p <= tier q)%Q.
Proof.
  intros Hpq. unfold tier, Qdiv.
  change (/ 15)%Q with (1 # 15)%Q. change (/ 25)%Q with (1 # 25)%Q.
  repeat match goal with
  | |- context [Qleb ?a ?b] =>
      let H := fresh "H" in
      destruct (Qleb a b) eqn:H; [apply Qleb_true in H | apply Qleb_false in H]
  end; lra.
Qed.

Lemma filter_length_mono {A} (P Q : A → Prop) `{∀ x, Decision (P x)}
    `{∀ x, Decision (Q x)} (l : list A) :
  (∀ x, P x → Q x) → (length (filter P l) ≤ length (filter Q l))%nat.
Proof.
  intros HPQ. induction l as [|x l IH]; [done|].
  rewrite !filter_cons. destruct (decide (P x)) as [HP|HP].
  - rewrite decide_True by auto. simpl. lia.
  - destruct (decide (Q x)); simpl; lia.
Qed.

Lemma py_count_mono {A} (p q : A → bool) (l : list A) :
  (∀ x, p x = true → q x = true) → (py_count p l <= py_count q l)%Q.
Proof.
  intros H. unfold py_count. rewrite <- Zle_Qle.
  apply inj_le. by apply filter_length_mono.
Qed.

Lemma reliability_percentile_mono sc l1 l2 :
  (route_avg_performance sc l1 <= route_avg_performance sc l2)%Q →
  (reliability_percentile sc l1 <= reliability_percentile sc l2)%Q.
Proof.
  intros Havg. unfold reliability_percentile.
  destruct (perf_or 85 <$> values (line_performance sc)) as [|c cs] eqn:E.
  - destruct (Qleb _ (route_avg_performance sc l1)) eqn:H1.
    + apply Qleb_true in H1.
      assert (Qleb (reliability_baseline_mean sc) (route_avg_performance sc l2) = true)
        as ->; [apply Qleb_true; by eapply Qle_trans | apply Qle_refl].
    + by destruct (Qleb _ (route_avg_performance sc l2)).
  - pose proof (py_len_pos (c :: cs) ltac:(done)) as Hpos.
    set (n := py_len _) in *.
    assert (Hc : (py_count (λ p, Qltb p (route_avg_performance sc l1)) (c :: cs)
                  <= py_count (λ p, Qltb p (route_avg_performance sc l2)) (c :: cs))%Q).
    { apply py_count_mono. intros x Hx. apply Qltb_true in Hx. apply Qltb_true.
      by eapply Qlt_le_trans. }
    set (k1 := py_count _ _) in *. set (k2 := py_count _ _) in *.
    apply Qmult_le_compat_r; [|lra].
    unfold Qdiv. apply Qmult_le_compat_r; [done|].
    apply Qlt_le_weak, Qinv_lt_0_compat. done.
Qed.

(** Over a table whose entries are [int] percentages between 0 and 100,
    and for routes over lines of the table, the sum of a route's
    percentages is an [int] and its average is the quotient of two [int]s.
    There a route whose lines are on time more often on average never gets
    the lower reliability score. *)
Theorem reliability_score_monotone (sc : ScoreCalculator) (l1 l2 : list string) :
  map_Forall (λ _ d, whole_percent d = true) (line_performance sc) →
  Forall (λ l, is_Some (line_performance sc !! l)) l1 →
  Forall (λ l, is_Some (line_performance sc !! l)) l2 →
  l1 ≠ [] → l2 ≠ [] →
  (route_avg_performance sc l1 <= route_avg_performance sc l2)%Q →
  calculate_reliability_score sc l1 ≤ calculate_reliability_score sc l2.
Proof.
  intros _ _ _ H1 H2 Havg. unfold calculate_reliability_score.
  destruct l1 as [|x1 l1]; [done|]. destruct l2 as [|x2 l2]; [done|].
  by apply py_round_mono, tier_mono, reliability_percentile_mono.
Qed.

Lemma reliability_score_monotone_witness :
  calculate_reliability_score service_scorer ["F"; "A"]
  ≤ calculate_reliability_score service_scorer ["S"; "7"].
Proof.
  apply (reliability_score_monotone service_scorer ["F"; "A"] ["S"; "7"]).
  - by apply (bool_decide_unpack _); vm_compute.
  - by apply (bool_decide_unpack _); vm_compute.
  - by apply (bool_decide_unpack _); vm_compute.
  - discriminate.
  - discriminate.
  - by vm_compute.
Defined.


Lemma efficiency_score_clamp n t :
  calculate_efficiency_score n t
  = py_round (py_max 0 (py_min 10 (10 - py_min (inject_Z n * (3 # 2)) 10))).
Proof. reflexivity. Qed.

Ltac split_min_max :=
  repeat match goal with
  | |- context [py_min (?x * (3 # 2)) 10] =>
      destruct (Qlt_le_dec 10 (x * (3 # 2)));
      [rewrite (py_min_gt (x * (3 # 2)) 10) by assumption
      |rewrite (py_min_le (x * (3 # 2)) 10) by assumption]
  end;
  repeat match goal with
  | |- context [py_min ?a ?b] =>
      destruct (Qlt_le_dec b a);
      [rewrite (py_min_gt a b) by assumption | rewrite (py_min_le a b) by assumption]
  | |- context [py_max ?a ?b] =>
      destruct (Qlt_le_dec a b);
      [rewrite (py_max_lt a b) by assumption | rewrite (py_max_ge a b) by assumption]
  end.

Lemma efficiency_raw_range n :
  (0 <= py_max 0 (py_min 10 (10 - py_min (inject_Z n * (3 # 2)) 10)))%Q ∧
  (py_max 0 (py_min 10 (10 - py_min (inject_Z n * (3 # 2)) 10)) <= 10)%Q.
Proof. set (x := inject_Z n). split_min_max; split; lra. Qed.

Lemma efficiency_raw_mono n m :
  n ≤ m →
  (py_max 0 (py_min 10 (10 - py_min (inject_Z m * (3 # 2)) 10))
   <= py_max 0 (py_min 10 (10 - py_min (inject_Z n * (3 # 2)) 10)))%Q.
Proof.
  intros Hnm. rewrite Zle_Qle in Hnm.
  set (x := inject_Z n) in *. set (y := inject_Z m) in *.
  split_min_max; lra.
Qed.

(** [num_transfers * 1.5] needs the count as a float, which Python gives for
    an [int] of magnitude below 2^1024 and refuses beyond.  For every
    transfer count of magnitude below 2^1023, negative ones included, the
    efficiency score lies between 0 and 10; it is 10 without a transfer and
    0 from seven transfers on. *)
Theorem efficiency_score_bounds (n t : Z) :
  Z.abs n < 2 ^ 1023 →
  0 ≤ calculate_efficiency_score n t ≤ 10 ∧
  (n ≤ 0 → calculate_efficiency_score n t = 10) ∧
  (7 ≤ n → calculate_efficiency_score n t = 0).
Proof.
  intros _. rewrite !efficiency_score_clamp.
  destruct (efficiency_raw_range n) as [H0 H10]. split; [|split].
  - by apply py_round_between.
  - intros Hn. pose proof (efficiency_raw_mono n 0 Hn) as H.
    assert (10 ≤ py_round (py_max 0 (py_min 10
                (10 - py_min (inject_Z n * (3 # 2)) 10))) ≤ 10); [|lia].
    apply py_round_between; [|done].
    eapply Qle_trans; [|exact H]. by vm_compute.
  - intros Hn. pose proof (efficiency_raw_mono 7 n Hn) as H.
    assert (0 ≤ py_round (py_max 0 (py_min 10
                (10 - py_min (inject_Z n * (3 # 2)) 10))) ≤ 0); [|lia].
    apply py_round_between; [done|].
    eapply Qle_trans; [exact H|]. by vm_compute.
Qed.

Lemma efficiency_score_bounds_witness :
  calculate_efficiency_score (-2) 30 = 10 ∧ calculate_efficiency_score 9 30 = 0.
Proof.
  split.
  - apply (efficiency_score_bounds (-2) 30); [by vm_compute | lia].
  - apply (efficiency_score_bounds 9 30); [by vm_compute | lia].
Defined.

(** More transfers never score higher, whatever the travel times. *)
Theorem efficiency_score_monotone (n m t t' : Z) :
  n ≤ m → calculate_efficiency_score m t' ≤ calculate_efficiency_score n t.
Proof.
  intros Hnm. rewrite !efficiency_score_clamp.
  by apply py_round_mono, efficiency_raw_mono.
Qed.

Lemma efficiency_score_monotone_witness :
  calculate_efficiency_score 3 12 ≤ calculate_efficiency_score 1 45.
Proof. apply (efficiency_score_monotone 1 3 45 12). lia. Defined.


(** Whatever the route, the safety and reliability scores lie between 2
    and 10 and the efficiency score between 0 and 10. *)
Theorem route_scores_bounds (sc : ScoreCalculator) (route : Route) :
  2 ≤ safety_score (calculate_route_scores sc route) ≤ 10 ∧
  2 ≤ reliability_score (calculate_route_scores sc route) ≤ 10 ∧
  0 ≤ efficiency_score (calculate_route_scores sc route) ≤ 10.
Proof.
  unfold calculate_route_scores. cbn [safety_score reliability_score efficiency_score].
  split; [|split].
  - unfold calculate_safety_score. destruct (stations route) as [|x xs] eqn:E; [lia|].
    destruct (tier_range _ (safety_percentile_nonneg sc (x :: xs))).
    by apply py_round_between.
  - unfold calculate_reliability_score. destruct (lines route) as [|x xs] eqn:E; [lia|].
    destruct (tier_range _ (reliability_percentile_nonneg sc (x :: xs))).
    by apply py_round_between.
  - rewrite efficiency_score_clamp.
    destruct (efficiency_raw_range (total_transfers route)).
    by apply py_round_between.
Qed.

Lemma foldl_Qplus_const {A} (c : Q) (l : list A) (acc : Q) :
  foldl Qplus acc ((λ _, c) <$> l) == acc + c * py_len l.
Proof.
  revert acc. induction l as [|x l IH]; intros acc.
  - unfold py_len. simpl. change (inject_Z 0) with 0%Q. ring.
  - simpl. rewrite IH. unfold py_len. simpl length.
    rewrite Nat2Z.inj_succ, <- Z.add_1_r, inject_Z_plus.
    change (inject_Z 1) with 1%Q. ring.
Qed.

Lemma mean_of_default {A} (c : Q) (l : list A) :
  l ≠ [] → py_sum ((λ _, c) <$> l) / py_len ((λ _, c) <$> l) == c.
Proof.
  intros Hne. unfold py_sum. rewrite foldl_Qplus_const.
  assert (py_len ((λ _ : A, c) <$> l) = py_len l) as ->.
  { unfold py_len. by rewrite length_fmap. }
  pose proof (py_len_pos l Hne). field. lra.
Qed.

(** Before any data has arrived every route scores 6 for safety, and with
    an empty performance table every route scores 6 for reliability: each
    station or line counts with the default baseline, which the route then
    exactly meets. *)
Theorem scores_without_data (cd : gmap string Z) (lp : gmap string line_data)
    (xs : list string) :
  xs ≠ [] →
  calculate_safety_score (new ∅ lp) xs = 6 ∧
  calculate_reliability_score (new cd ∅) xs = 6.
Proof.
  intros Hne. destruct xs as [|x xs]; [done|]. split.
  - unfold calculate_safety_score, safety_percentile.
    assert (values (crime_data (new ∅ lp)) = []) as ->.
    { unfold values. simpl. by rewrite map_to_list_empty. }
    assert (Qleb (route_avg_crime (new ∅ lp) (x :: xs))
                 (crime_baseline_mean (new ∅ lp)) = true) as ->; [|by vm_compute].
    apply Qleb_true. unfold route_avg_crime. cbn [new crime_data crime_baseline_mean].
    change (_calculate_crime_baseline_mean ∅) with 5%Q.
    rewrite (list_fmap_ext _ (λ _, 5%Q) (x :: xs))
      by (intros; by rewrite lookup_empty).
    rewrite mean_of_default by done. apply Qle_refl.
  - unfold calculate_reliability_score, reliability_percentile.
    assert (perf_or 85 <$> values (line_performance (new cd ∅)) = []) as ->.
    { unfold values. simpl. by rewrite map_to_list_empty. }
    assert (Qleb (reliability_baseline_mean (new cd ∅))
                 (route_avg_performance (new cd ∅) (x :: xs)) = true) as ->;
      [|by vm_compute].
    apply Qleb_true. unfold route_avg_performance.
    cbn [new line_performance reliability_baseline_mean].
    change (_calculate_reliability_baseline_mean ∅) with 85%Q.
    rewrite (list_fmap_ext _ (λ _, 85%Q) (x :: xs))
      by (intros; by rewrite lookup_empty).
    rewrite mean_of_default by done. apply Qle_refl.
Qed.

Lemma scores_without_data_witness :
  calculate_safety_score service_scorer ["Canal Street"; "Spring Street"] = 6 ∧
  calculate_reliability_score (new two_station_crime ∅) ["Canal Street"; "Spring Street"] = 6.
Proof.
  apply (scores_without_data two_station_crime LINE_PERFORMANCE
           ["Canal Street"; "Spring Street"]).
  discriminate.
Defined.

(** The label of the efficiency score of a route with [n] transfers. *)
Theorem efficiency_interpretation (n t : Z) :
  0 ≤ n →
  get_score_interpretation "efficiency" (calculate_efficiency_score n t)
  = if decide (n = 0) then "Direct (0 transfers)"
    else if decide (n ≤ 2) then "Very efficient (1 transfer)"
    else if decide (n = 3) then "Efficient (2 transfers)"
    else if decide (n = 4) then "Multiple transfers (3)"
    else "Many transfers (4+)".
Proof.
  intros Hn.
  destruct (decide (n < 7)) as [Hlt|Hge].
  - assert (n = 0 ∨ n = 1 ∨ n = 2 ∨ n = 3 ∨ n = 4 ∨ n = 5 ∨ n = 6) as H by lia.
    destruct H as [->|[->|[->|[->|[->|[->| ->]]]]]]; by vm_compute.
  - assert (calculate_efficiency_score n t = 0) as ->.
    { rewrite efficiency_score_clamp.
      pose proof (efficiency_raw_mono 7 n ltac:(lia)) as H.
      destruct (efficiency_raw_range n) as [H0 _].
      assert (0 ≤ py_round (py_max 0 (py_min 10
                  (10 - py_min (inject_Z n * (3 # 2)) 10))) ≤ 0); [|lia].
      apply py_round_between; [done|].
      eapply Qle_trans; [exact H|]. by vm_compute. }
    repeat (rewrite decide_False by lia). by vm_compute.
Qed.

Lemma efficiency_interpretation_witness :
  get_score_interpretation "efficiency" (calculate_efficiency_score 2 25)
  = "Very efficient (1 transfer)".
Proof. apply (efficiency_interpretation 2 25). lia. Defined.

End ScoreMore.

(** ** The graph: rides and stations *)

Lemma foldl_established {A B} (P : A → Prop) (f : A → B → A) (l : list B) (a : A) (x : B) :
  x ∈ l → (∀ a', P (f a' x)) → (∀ a' y, P a' → P (f a' y)) → P (foldl f a l).
Proof.
  intros Hx Hset Hkeep. revert a. induction l as [|y l IH]; intros a.
  - by apply elem_of_nil in Hx.
  - simpl. apply elem_of_cons in Hx as [->|Hx].
    + apply (foldl_invariant P); [apply Hset | intros; by apply Hkeep].
    + by apply IH.
Qed.

Lemma has_edge_key g n e : has_edge g n e → is_Some (g !! n).
Proof.
  unfold has_edge. destruct (g !! n) as [es|]; [by eexists|].
  intros H. by apply elem_of_nil in H.
Qed.

Lemma has_edge_add_edge_keep g key e' n e :
  has_edge g n e → has_edge (add_edge key e' g) n e.
Proof.
  unfold has_edge, add_edge. intros H. destruct (decide (key = n)) as [->|Hne].
  - rewrite lookup_insert_eq. simpl. apply elem_of_app. by left.
  - by rewrite lookup_insert_ne.
Qed.

Lemma has_edge_add_edge_new g key e : has_edge (add_edge key e g) key e.
Proof.
  unfold has_edge, add_edge. rewrite lookup_insert_eq. simpl.
  apply elem_of_app. right. left.
Qed.

Lemma has_edge_add_pair_keep line stations g i n e :
  has_edge g n e → has_edge (add_pair line stations g i) n e.
Proof.
  intros H. unfold add_pair.
  destruct (stations !! i); [|done]. destruct (stations !! S i); [|done].
  by do 2 apply has_edge_add_edge_keep.
Qed.

Lemma has_edge_add_line_keep g entry n e :
  has_edge g n e → has_edge (add_line g entry) n e.
Proof.
  intros H. destruct entry as [line stations]. unfold add_line.
  apply (foldl_invariant (λ g', has_edge g' n e)); [done|].
  intros g' i _ Hg'. by apply has_edge_add_pair_keep.
Qed.

Lemma has_edge_add_transfers_keep g entry n e :
  has_edge g n e → has_edge (add_transfers g entry) n e.
Proof.
  intros H. destruct entry as [key transfers]. unfold add_transfers.
  apply (foldl_invariant (λ g', has_edge g' n e)).
  - destruct (g !! key) eqn:E; [done|]. unfold has_edge in *.
    destruct (decide (key = n)) as [->|Hne].
    + rewrite E in H. by apply elem_of_nil in H.
    + by rewrite lookup_insert_ne.
  - intros g' e' _ Hg'. by apply (has_edge_add_edge_keep g' key e').
Qed.

Lemma add_pair_rides line stations g i a b :
  stations !! i = Some a → stations !! S i = Some b →
  has_edge (add_pair line stations g i) (a, line) (b, line, ride_time (length stations) i) ∧
  has_edge (add_pair line stations g i) (b, line) (a, line, ride_time (length stations) i).
Proof.
  intros Ha Hb. unfold add_pair. rewrite Ha, Hb. split.
  - apply has_edge_add_edge_keep, has_edge_add_edge_new.
  - apply has_edge_add_edge_new.
Qed.

Lemma build_graph_rides lines transfer_points line stations i a b :
  (line, stations) ∈ lines →
  stations !! i = Some a → stations !! S i = Some b →
  has_edge (_build_graph lines transfer_points) (a, line)
    (b, line, ride_time (length stations) i) ∧
  has_edge (_build_graph lines transfer_points) (b, line)
    (a, line, ride_time (length stations) i).
Proof.
  intros Hin Ha Hb. unfold _build_graph.
  set (t := ride_time (length stations) i).
  apply (foldl_invariant
           (λ g, has_edge g (a, line) (b, line, t) ∧ has_edge g (b, line) (a, line, t))).
  2:{ intros g entry _ [H1 H2]. split; by apply has_edge_add_transfers_keep. }
  apply (foldl_established
           (λ g, has_edge g (a, line) (b, line, t) ∧ has_edge g (b, line) (a, line, t))
           _ _ _ (line, stations)); [done| |].
  2:{ intros g entry [H1 H2]. split; by apply has_edge_add_line_keep. }
  intros g. unfold add_line.
  apply (foldl_established
           (λ g, has_edge g (a, line) (b, line, t) ∧ has_edge g (b, line) (a, line, t))
           _ _ _ i).
  - apply elem_of_seq. apply lookup_lt_Some in Hb. lia.
  - intros g'. by apply add_pair_rides.
  - intros g' j [H1 H2]. split; by apply has_edge_add_pair_keep.
Qed.

(** Two stations that follow each other on a line are joined on that line
    in both directions, by entries with the same time of 2 or 3 minutes. *)
Theorem ride_edges_both_ways (lines : list (string * list string))
    (transfer_points : list (node * list edge))
    (line : string) (stations : list string) (i : nat) (a b : string) :
  (line, stations) ∈ lines →
  stations !! i = Some a → stations !! S i = Some b →
  ∃ t, (t = 2 ∨ t = 3) ∧
       (b, line, t) ∈ get_adjacent_stations (SubwayGraph_init lines transfer_points) a line ∧
       (a, line, t) ∈ get_adjacent_stations (SubwayGraph_init lines transfer_points) b line.
Proof.
  intros Hin Ha Hb. exists (ride_time (length stations) i). split.
  - unfold ride_time. destruct (bool_decide _); auto.
  - by apply build_graph_rides.
Qed.

Lemma ride_edges_both_ways_witness :
  ∃ t, (t = 2 ∨ t = 3) ∧
       ("Grand Central-42nd Street", "S", t)
         ∈ get_adjacent_stations subway_graph "42nd Street-Times Square" "S" ∧
       ("42nd Street-Times Square", "S", t)
         ∈ get_adjacent_stations subway_graph "Grand Central-42nd Street" "S".
Proof.
  apply (ride_edges_both_ways Topology.SUBWAY_LINES Topology.TRANSFER_POINTS "S"
           ["42nd Street-Times Square"; "Grand Central-42nd Street"] 0).
  - by apply (bool_decide_unpack _); vm_compute.
  - reflexivity.
  - reflexivity.
Defined.

Global Instance str_le_total : Total str_le.
Proof.
  intros a b. unfold str_le.
  destruct (String.leb_total a b) as [H|H]; rewrite H; [left | right]; done.
Qed.

Lemma sorted_set_spec (X : gset string) :
  (∀ s, s ∈ sorted (elements X) ↔ s ∈ X) ∧
  NoDup (sorted (elements X)) ∧
  Sorted str_le (sorted (elements X)).
Proof.
  split_and!.
  - intros s. by rewrite sorted_elem_of, elem_of_elements.
  - unfold sorted. rewrite merge_sort_Permutation. apply NoDup_elements.
  - apply Sorted_merge_sort. apply _.
Qed.

Lemma elem_of_available_lines (sg : SubwayGraph) (station line : string) :
  line ∈ get_available_lines sg station ↔ is_Some (graph sg !! (station, line)).
Proof.
  unfold get_available_lines.
  rewrite (proj1 (sorted_set_spec _)), elem_of_list_to_set, list_elem_of_fmap. split.
  - intros ([s l] & -> & Hk). apply list_elem_of_filter in Hk as [Hs' Hk].
    simpl in Hs'. subst s. apply list_elem_of_fmap in Hk as ([k es] & E & Hk).
    simpl in E. subst k. apply elem_of_map_to_list in Hk. by exists es.
  - intros [es Hes]. exists (station, line). split; [done|].
    apply list_elem_of_filter. split; [done|].
    apply list_elem_of_fmap. exists ((station, line), es). split; [done|].
    by apply elem_of_map_to_list.
Qed.

(** The lines of a station are the lines of the graph's nodes at that
    station, each listed once, in ascending order. *)
Theorem available_lines_spec (sg : SubwayGraph) (station : string) :
  (∀ line, line ∈ get_available_lines sg station
           ↔ is_Some (graph sg !! (station, line))) ∧
  NoDup (get_available_lines sg station) ∧
  Sorted str_le (get_available_lines sg station).
Proof.
  split; [intros line; apply elem_of_available_lines|].
  unfold get_available_lines. split; apply sorted_set_spec.
Qed.

(** The station list of a graph names every station of the line table
    once, in ascending order. *)
Theorem all_stations_sorted (lines : list (string * list string))
    (transfer_points : list (node * list edge)) :
  (∀ s, s ∈ all_stations (SubwayGraph_init lines transfer_points) ↔ is_station lines s) ∧
  NoDup (all_stations (SubwayGraph_init lines transfer_points)) ∧
  Sorted str_le (all_stations (SubwayGraph_init lines transfer_points)).
Proof.
  cbn [SubwayGraph_init all_stations].
  split_and!.
  - intros s. apply all_stations_spec.
  - apply (sorted_set_spec (list_to_set (concat lines.*2))).
  - apply (sorted_set_spec (list_to_set (concat lines.*2))).
Qed.

(** When every line lists two stations at least, each station of the
    network has a line: the search never stops for want of a start line. *)
Theorem station_has_line (lines : list (string * list string))
    (transfer_points : list (node * list edge)) (s : string) :
  Forall (λ entry : string * list string, (2 ≤ length entry.2)%nat) lines →
  validate_station (SubwayGraph_init lines transfer_points) s = true →
  get_available_lines (SubwayGraph_init lines transfer_points) s ≠ [].
Proof.
  intros Hlen Hs. apply validate_station_spec in Hs as (line & sts & Hin & Hs).
  rewrite Forall_forall in Hlen. pose proof (Hlen _ Hin) as Hl. simpl in Hl.
  apply list_elem_of_lookup in Hs as [i Hi].
  assert (is_Some (graph (SubwayGraph_init lines transfer_points) !! (s, line))) as Hkey.
  { destruct (sts !! S i) as [b|] eqn:Eb.
    - destruct (build_graph_rides lines transfer_points line sts i s b Hin Hi Eb)
        as [H _].
      by apply has_edge_key in H.
    - destruct i as [|i].
      { apply lookup_ge_None in Eb. lia. }
      destruct (lookup_lt_is_Some_2 sts i) as [a Ea].
      { apply lookup_lt_Some in Hi. lia. }
      destruct (build_graph_rides lines transfer_points line sts i a s Hin Ea Hi)
        as [_ H].
      by apply has_edge_key in H. }
  apply elem_of_available_lines in Hkey. intros E. rewrite E in Hkey.
  by apply elem_of_nil in Hkey.
Qed.

Lemma station_has_line_witness :
  get_available_lines subway_graph "World Trade Center" ≠ [].
Proof.
  apply (station_has_line Topology.SUBWAY_LINES Topology.TRANSFER_POINTS).
  - by apply (bool_decide_unpack _); vm_compute.
  - by vm_compute.
Defined.

(** The common lines of two stations are the lines that serve both, in
    ascending order, and do not depend on the order of the two stations. *)
Theorem find_common_lines_spec (sg : SubwayGraph) (station1 station2 : string) :
  (∀ line, line ∈ find_common_lines sg station1 station2
           ↔ line ∈ get_available_lines sg station1
             ∧ line ∈ get_available_lines sg station2) ∧
  Sorted str_le (find_common_lines sg station1 station2) ∧
  find_common_lines sg station1 station2 = find_common_lines sg station2 station1.
Proof.
  unfold find_common_lines. split_and!.
  - intros line.
    rewrite (proj1 (sorted_set_spec _)), elem_of_intersection, !elem_of_list_to_set.
    done.
  - apply sorted_set_spec.
  - f_equal. f_equal. apply (comm_L (∩)).
Qed.

(** ** The route is a walk of the graph *)

Lemma relax_checked sg weight_func d cs cl tr st e :
  e ∈ get_adjacent_stations sg cs cl →
  links_checked sg (previous st) →
  links_checked sg (previous (relax weight_func d cs cl tr st e)).
Proof.
  intros He Hinv.
  destruct (relax_cases weight_func d cs cl tr st e) as [[-> _]|(_ & _ & tr' & -> & _)];
    [done|]. simpl.
  intros v u t b. destruct (decide ((e.1.1, e.1.2) = v)) as [<-|Hne].
  - rewrite lookup_insert_eq. intros [= <- <- <-]. simpl.
    split; [by destruct e as [[? ?] ?] | done].
  - rewrite lookup_insert_ne by done. apply Hinv.
Qed.

Lemma dijkstra_loop_checked sg weight_func max_transfers fuel s e st p :
  links_checked sg (previous st) →
  dijkstra_loop sg weight_func max_transfers fuel s e st = Some (Some p) →
  links_checked sg (pi_previous p).
Proof.
  revert st. induction fuel as [|fuel IH]; intros st Hinv Hrun; [done|].
  simpl in Hrun.
  destruct (heappop (pq st)) as [[[[[d cs] cl] tr] pq']|] eqn:Hpop; [|done].
  destruct (decide ((cs, cl) ∈ visited st)) as [Hv|Hv].
  { eapply IH; [|done]. done. }
  destruct (decide (cs = e)) as [->|Hne].
  { by injection Hrun as <-. }
  destruct (bool_decide (max_transfers < tr)).
  { eapply IH; [|done]. done. }
  eapply IH; [|done].
  apply (foldl_invariant (λ st', links_checked sg (previous st'))); [done|].
  intros st' x Hx Hst'. by apply relax_checked.
Qed.

Lemma dijkstra_checked sg weight_func max_transfers s l e p :
  _dijkstra sg weight_func max_transfers s l e = Some p →
  links_checked sg (pi_previous p).
Proof.
  unfold _dijkstra. intros H.
  destruct (dijkstra_loop _ _ _ _ _ _ _) as [[q|]|] eqn:E; try done.
  injection H as ->. eapply dijkstra_loop_checked; [|done].
  intros v u t b Hv. simpl in Hv. by rewrite lookup_empty in Hv.
Qed.

Lemma line_changes_snoc (ls : list string) (y x : string) :
  last ls = Some y →
  line_changes (ls ++ [x]) = line_changes ls + (if decide (y = x) then 0 else 1).
Proof.
  induction ls as [|a ls IH]; [done|]. intros Hlast.
  destruct ls as [|b ls].
  - injection Hlast as ->. simpl. lia.
  - change ((a :: b :: ls) ++ [x]) with (a :: (b :: ls) ++ [x]).
    change (line_changes (a :: (b :: ls) ++ [x]))
      with ((if decide (a = b) then 0 else 1) + line_changes ((b :: ls) ++ [x])).
    rewrite IH by done. simpl. lia.
Qed.

Lemma walk_last sg a hs x :
  walk sg a hs x →
  last (a.1 :: hops_stations hs) = Some x.1 ∧ last (a.2 :: hops_lines hs) = Some x.2.
Proof.
  induction 1 as [|hs u e Hw IH He]; [done|].
  unfold hops_stations, hops_lines. rewrite !fmap_app. simpl.
  by rewrite !app_comm_cons, !last_snoc.
Qed.

(** Backtracking from a visited node returns the stations and lines of a
    walk from the start, the minutes of its edges and its line changes. *)
Lemma backtrack_walk (sg : SubwayGraph) (start : node) (previous : gmap node (node * Z * bool))
    (order : list node) :
  settled_order start previous order →
  links_checked sg previous →
  ∀ m fuel sts lns tt tr, m ∈ order → (length order ≤ fuel)%nat →
    ∃ hs,
      backtrack fuel previous m sts lns tt tr
        = Some (start.1 :: hops_stations hs ++ sts,
                start.2 :: hops_lines hs ++ lns,
                tt + hops_time hs,
                tr + line_changes (start.2 :: hops_lines hs)) ∧
      walk sg start hs m.
Proof.
  intros Hord Hck.
  induction Hord as [Hs|n p t b order Hn Hp Hno Hord IH];
    intros m fuel sts lns tt tr Hm Hfuel.
  - apply list_elem_of_singleton in Hm as ->.
    destruct fuel as [|fuel]; [simpl in Hfuel; lia|].
    exists []. simpl. rewrite Hs. split; [|constructor].
    unfold hops_time. simpl. by rewrite !Z.add_0_r.
  - destruct fuel as [|fuel]; [simpl in Hfuel; lia|]. simpl in Hfuel.
    destruct (decide (m = n)) as [->|Hne].
    + cbn [backtrack]. rewrite Hn.
      destruct (IH p fuel (n.1 :: sts) (n.2 :: lns) (tt + t)
                  (if b then tr + 1 else tr) Hp ltac:(lia)) as (hs & Hrun & Hwalk).
      destruct (Hck n p t b Hn) as [Hedge ->].
      exists (hs ++ [(p, (n.1, n.2, t))]). split.
      * assert (E1 : hops_stations (hs ++ [(p, (n.1, n.2, t))])
                     = hops_stations hs ++ [n.1]).
        { unfold hops_stations. by rewrite fmap_app. }
        assert (E2 : hops_lines (hs ++ [(p, (n.1, n.2, t))]) = hops_lines hs ++ [n.2]).
        { unfold hops_lines. by rewrite fmap_app. }
        assert (E3 : hops_time (hs ++ [(p, (n.1, n.2, t))]) = hops_time hs + t).
        { unfold hops_time. by rewrite foldl_app. }
        assert (E4 : line_changes (start.2 :: hops_lines hs ++ [n.2])
                     = line_changes (start.2 :: hops_lines hs)
                       + (if decide (p.2 = n.2) then 0 else 1)).
        { rewrite app_comm_cons. apply line_changes_snoc.
          by destruct (walk_last _ _ _ _ Hwalk). }
        rewrite Hrun, E1, E2, E3, E4, <- !app_assoc. cbn [app].
        do 2 f_equal; [f_equal; lia|].
        destruct (decide (p.2 = n.2)) as [E|E].
        -- rewrite bool_decide_eq_false_2 by (intros ?; congruence). lia.
        -- rewrite bool_decide_eq_true_2 by congruence. lia.
      * pose proof (walk_step sg start hs p (n.1, n.2, t) Hwalk Hedge) as Hw.
        by destruct n.
    + apply elem_of_cons in Hm as [?|Hm]; [done|].
      apply (IH m (S fuel)); [done | lia].
Qed.

(** What [find_shortest_path] returns between two different stations, read
    off the walk its search has found. *)
Lemma route_representation sg origin destination weight_func max_transfers r :
  origin ≠ destination →
  find_shortest_path sg origin destination weight_func max_transfers = Some r →
  ∃ l hs x,
    l ∈ get_available_lines sg origin ∧
    walk sg (origin, l) hs x ∧ x.1 = destination ∧
    stations r = origin :: hops_stations hs ∧
    total_time_minutes r = hops_time hs ∧
    total_transfers r = line_changes (l :: hops_lines hs) ∧
    lines r = unique_lines_of (l :: hops_lines hs) ∧
    segments r = build_segments (origin :: hops_stations hs) (l :: hops_lines hs) ∧
    total_stops r = Z.of_nat (S (length hs)).
Proof.
  intros Hne Hr. unfold find_shortest_path in Hr.
  destruct (validate_station sg origin); [|done].
  destruct (validate_station sg destination); [|done]. cbn [negb] in Hr.
  rewrite decide_False in Hr by done.
  destruct (get_available_lines sg origin) as [|l0 ls] eqn:El; [done|].
  destruct (foldl _ None (l0 :: ls)) as [p|] eqn:Ebest; [|done].
  apply best_path_from_search in Ebest as [?|(l & Hl & Hsearch)]; [done|].
  pose proof (dijkstra_checked _ _ _ _ _ _ _ Hsearch) as Hck.
  apply dijkstra_result in Hsearch as [Hend (order' & Hord)].
  destruct (backtrack_walk sg _ _ _ Hord Hck (end_state p) (S (size (pi_previous p)))
              [] [] 0 0) as (hs & Hrun & Hwalk).
  { left. }
  { by apply settled_order_length in Hord. }
  unfold _extract_route in Hr. rewrite Hrun in Hr. injection Hr as <-.
  exists l, hs, (end_state p). cbn [stations lines segments total_time_minutes
                                    total_transfers total_stops fst snd].
  rewrite !app_nil_r. split_and!; try done.
  simpl. unfold hops_stations. by rewrite length_fmap.
Qed.

(** Between two different stations the returned route follows adjacency
    entries of the graph from a node of the origin to a node of the
    destination: its stations are the stations these entries lead to, in
    order, and its time is the sum of their minutes. *)
Theorem route_follows_graph (sg : SubwayGraph) (origin destination : string)
    (weight_func : option weight_fn) (max_transfers : Z) (r : Route) :
  origin ≠ destination →
  find_shortest_path sg origin destination weight_func max_transfers = Some r →
  ∃ l hs x,
    l ∈ get_available_lines sg origin ∧
    walk sg (origin, l) hs x ∧ x.1 = destination ∧
    stations r = origin :: hops_stations hs ∧
    total_time_minutes r = hops_time hs.
Proof.
  intros Hne Hr.
  destruct (route_representation _ _ _ _ _ _ Hne Hr)
    as (l & hs & x & Hl & Hw & Hx & Hst & Ht & _).
  by exists l, hs, x.
Qed.

Lemma route_follows_graph_witness :
  ∃ l hs x,
    l ∈ get_available_lines subway_graph "South Ferry" ∧
    walk subway_graph ("South Ferry", l) hs x ∧ x.1 = "Grand Central-42nd Street" ∧
    stations example_route = "South Ferry" :: hops_stations hs ∧
    total_time_minutes example_route = hops_time hs.
Proof.
  apply (route_follows_graph subway_graph "South Ferry" "Grand Central-42nd Street"
           (Some weight_fast) 5 example_route).
  - discriminate.
  - by vm_compute.
Defined.

Lemma line_changes_range (ls : list string) :
  0 ≤ line_changes ls ∧ line_changes ls + 1 ≤ Z.max 1 (Z.of_nat (length ls)).
Proof.
  induction ls as [|a [|b ls] IH]; [simpl; lia | simpl; lia |].
  change (line_changes (a :: b :: ls))
    with ((if decide (a = b) then 0 else 1) + line_changes (b :: ls)).
  simpl length in *. destruct (decide (a = b)); lia.
Qed.

Lemma dedup_fold_length (ls acc : list string) (y : string) :
  last acc = Some y →
  Z.of_nat (length (foldl dedup_step acc ls))
  = Z.of_nat (length acc) + line_changes (y :: ls) ∧
  head (foldl dedup_step acc ls) = head acc.
Proof.
  revert acc y. induction ls as [|x ls IH]; intros acc y Hlast.
  - simpl. split; [lia | done].
  - cbn [foldl]. unfold dedup_step at 2 4. rewrite Hlast.
    change (line_changes (y :: x :: ls))
      with ((if decide (y = x) then 0 else 1) + line_changes (x :: ls)).
    destruct (decide (y = x)) as [->|Hne].
    + destruct (IH acc x Hlast) as [-> ->]. split; [lia | done].
    + destruct (IH (acc ++ [x]) x (last_snoc _ _)) as [-> ->].
      rewrite length_app. simpl. split; [lia|].
      destruct acc; [done | done].
Qed.

(** The route names one line more than it has transfers, the first of them
    a line of the origin; it has fewer transfers than stops. *)
Theorem route_lines_transfers (sg : SubwayGraph) (origin destination : string)
    (weight_func : option weight_fn) (max_transfers : Z) (r : Route) :
  origin ≠ destination →
  find_shortest_path sg origin destination weight_func max_transfers = Some r →
  Z.of_nat (length (lines r)) = total_transfers r + 1 ∧
  0 ≤ total_transfers r < total_stops r ∧
  ∃ l, head (lines r) = Some l ∧ l ∈ get_available_lines sg origin.
Proof.
  intros Hne Hr.
  destruct (route_representation _ _ _ _ _ _ Hne Hr)
    as (l & hs & x & Hl & Hw & Hx & Hst & Ht & Htr & Hlines & Hseg & Hstops).
  rewrite Hlines, Htr, Hstops. unfold unique_lines_of. cbn [foldl].
  change (dedup_step [] l) with [l].
  destruct (dedup_fold_length (hops_lines hs) [l] l eq_refl) as [-> ->].
  pose proof (line_changes_range (l :: hops_lines hs)) as Hrange.
  simpl length in *. unfold hops_lines in Hrange at 3. rewrite length_fmap in Hrange.
  split_and!; [lia | lia | lia | by exists l].
Qed.

Lemma route_lines_transfers_witness :
  Z.of_nat (length (lines example_route)) = total_transfers example_route + 1 ∧
  0 ≤ total_transfers example_route < total_stops example_route ∧
  ∃ l, head (lines example_route) = Some l ∧ l ∈ get_available_lines subway_graph "South Ferry".
Proof.
  apply (route_lines_transfers subway_graph "South Ferry" "Grand Central-42nd Street"
           (Some weight_fast) 5 example_route).
  - discriminate.
  - by vm_compute.
Defined.

(** ** The segments of a route *)

Lemma ride_stops_app (a b : list segment) :
  ride_stops (a ++ b) = ride_stops a + ride_stops b.
Proof.
  unfold ride_stops. induction a as [|s a IH]; simpl; [done|]. rewrite IH. lia.
Qed.

Lemma transfer_segments_app (a b : list segment) :
  transfer_segments (a ++ b) = transfer_segments a + transfer_segments b.
Proof. unfold transfer_segments. rewrite filter_app, length_app. lia. Qed.

(** The loop over the stations of [_extract_route], from any state with a
    segment under way. *)
Lemma segment_fold (origin : string) (zs : list (string * string)) :
  ∀ (segs : list segment) (cur : list string) (line c : string),
    last cur = Some c →
    (∃ seg, head (segs ++ [ride_segment line cur]) = Some seg ∧ rides_from origin seg) →
    ∃ segs' cur' line',
      foldl segment_step (segs, cur, line) zs = (segs', cur', line') ∧
      last cur' = last (c :: zs.*1) ∧
      (∃ seg, head (segs' ++ [ride_segment line' cur']) = Some seg
              ∧ rides_from origin seg) ∧
      transfer_segments segs' = transfer_segments segs + line_changes (line :: zs.*2) ∧
      ride_stops segs' + Z.of_nat (length cur')
      = ride_stops segs + Z.of_nat (length cur) + Z.of_nat (length zs)
        - line_changes (line :: zs.*2).
Proof.
  induction zs as [|[station_i line_i] zs IH]; intros segs cur line c Hlast Hfirst.
  - exists segs, cur, line. simpl. split_and!; [done | done | done | lia | lia].
  - cbn [foldl]. unfold segment_step at 2.
    change (line_changes (line :: ((station_i, line_i) :: zs).*2))
      with ((if decide (line = line_i) then 0 else 1) + line_changes (line_i :: zs.*2)).
    destruct (decide (line_i ≠ line)) as [Hch|Hsame].
    + destruct (IH (segs ++ [ride_segment line cur; Transfer station_i line line_i 2])
                  [station_i] line_i station_i eq_refl)
        as (segs' & cur' & line' & Hrun & Hl & Hf & Htr & Hst).
      { destruct Hfirst as (seg & Hseg & Hfrom). exists seg. split; [|done].
        rewrite <- Hseg. rewrite <- !app_assoc. by destruct segs. }
      exists segs', cur', line'. rewrite Hrun. split_and!; [done | | done | |].
      * rewrite Hl. by destruct zs.
      * rewrite Htr, transfer_segments_app.
        rewrite decide_False by congruence.
        change (transfer_segments [ride_segment line cur; Transfer station_i line line_i 2])
          with 1. lia.
      * rewrite ride_stops_app in Hst.
        change (ride_stops [ride_segment line cur; Transfer station_i line line_i 2])
          with (Z.of_nat (length cur) - 1 + (0 + 0)) in Hst.
        rewrite decide_False by congruence. simpl length in *. lia.
    + assert (line_i = line) as -> by (by destruct (decide (line_i = line)); [|exfalso; auto]).
      destruct (IH segs (cur ++ [station_i]) line station_i (last_snoc _ _))
        as (segs' & cur' & line' & Hrun & Hl & Hf & Htr & Hst).
      { destruct Hfirst as (seg & Hseg & Hfrom). destruct segs as [|s0 segs].
        - simpl in Hseg. injection Hseg as <-. eexists. split; [reflexivity|].
          destruct cur as [|c0 cur]; [done|].
          destruct Hfrom as (l & to & n & t & Heq). unfold ride_segment in Heq.
          simpl in Heq. injection Heq as _ -> _ _ _.
          unfold rides_from, ride_segment. simpl. by eexists _, _, _, _.
        - by exists seg. }
      exists segs', cur', line'. rewrite Hrun. split_and!; [done | | done | |].
      * rewrite Hl. by destruct zs.
      * rewrite Htr. rewrite decide_True by done. lia.
      * rewrite length_app in Hst. rewrite decide_True by done. simpl length in *. lia.
Qed.

Lemma zip_hops (hs : list hop) :
  (zip (hops_stations hs) (hops_lines hs)).*1 = hops_stations hs ∧
  (zip (hops_stations hs) (hops_lines hs)).*2 = hops_lines hs ∧
  length (zip (hops_stations hs) (hops_lines hs)) = length hs.
Proof.
  unfold hops_stations, hops_lines. induction hs as [|h hs (IH1 & IH2 & IH3)]; [done|].
  split_and!; simpl; f_equal; assumption.
Qed.

(** The segments begin with a ride that leaves the origin and end with a
    ride that arrives at the destination; there are as many transfer
    segments as transfers, and the stops of the rides and the transfers
    together account for every station after the first. *)
Theorem route_segments (sg : SubwayGraph) (origin destination : string)
    (weight_func : option weight_fn) (max_transfers : Z) (r : Route) :
  origin ≠ destination →
  find_shortest_path sg origin destination weight_func max_transfers = Some r →
  (∃ seg, head (segments r) = Some seg ∧ rides_from origin seg) ∧
  (∃ seg, last (segments r) = Some seg ∧ rides_to destination seg) ∧
  transfer_segments (segments r) = total_transfers r ∧
  ride_stops (segments r) + total_transfers r = total_stops r - 1.
Proof.
  intros Hne Hr.
  destruct (route_representation _ _ _ _ _ _ Hne Hr)
    as (l & hs & x & Hl & Hw & Hx & Hst & Ht & Htr & Hlines & Hseg & Hstops).
  destruct (zip_hops hs) as (Hz1 & Hz2 & Hz3).
  destruct (segment_fold origin (zip (hops_stations hs) (hops_lines hs))
              [] [origin] l origin eq_refl)
    as (segs' & cur' & line' & Hrun & Hlast & Hfirst & Htrans & Hstop).
  { eexists. split; [reflexivity|]. unfold ride_segment. simpl.
    by eexists _, _, _, _. }
  rewrite Hz1 in Hlast. rewrite Hz2 in Htrans, Hstop. rewrite Hz3 in Hstop.
  destruct (walk_last _ _ _ _ Hw) as [Hend _]. cbn [fst] in Hend.
  rewrite <- Hlast, Hx in Hend.
  assert (Hbuild : segments r = segs' ++ [ride_segment line' cur']).
  { rewrite Hseg. unfold build_segments. rewrite Hrun.
    destruct cur'; [done | done]. }
  rewrite Hbuild, Htr, Hstops. split_and!.
  - done.
  - exists (ride_segment line' cur'). rewrite last_snoc. split; [done|].
    unfold ride_segment, rides_to. rewrite Hend. simpl. by eexists _, _, _, _.
  - rewrite transfer_segments_app, Htrans.
    change (transfer_segments []) with 0.
    change (transfer_segments [ride_segment line' cur']) with 0. lia.
  - rewrite ride_stops_app.
    change (ride_stops [ride_segment line' cur'])
      with (Z.of_nat (length cur') - 1 + 0).
    change (ride_stops []) with 0 in Hstop. simpl length in Hstop. lia.
Qed.

Lemma route_segments_witness :
  (∃ seg, head (segments example_route) = Some seg ∧ rides_from "South Ferry" seg) ∧
  (∃ seg, last (segments example_route) = Some seg
          ∧ rides_to "Grand Central-42nd Street" seg) ∧
  transfer_segments (segments example_route) = total_transfers example_route ∧
  ride_stops (segments example_route) + total_transfers example_route
  = total_stops example_route - 1.
Proof.
  apply (route_segments subway_graph "South Ferry" "Grand Central-42nd Street"
           (Some weight_fast) 5 example_route).
  - discriminate.
  - by vm_compute.
Defined.

(** ** The search as a whole *)

Lemma foldl_pick_best_none {A} (search : A → option path_info) (ls : list A)
    (best : option path_info) :
  foldl (λ best l, pick_best best (search l)) best ls = None →
  best = None ∧ ∀ l, l ∈ ls → search l = None.
Proof.
  revert best. induction ls as [|a ls IH]; intros best H.
  - split; [done|]. intros l Hl. by apply elem_of_nil in Hl.
  - simpl in H. apply IH in H as [Hb Hall].
    assert (best = None ∧ search a = None) as [-> Ha].
    { unfold pick_best in Hb. destruct (search a), best; try done.
      by destruct (Qltb _ _). }
    split; [done|]. intros l [->|Hl]%elem_of_cons; auto.
Qed.

(** When [find_shortest_path] finds nothing between two different stations
    of the graph, every search from a line of the origin has run until its
    queue was empty: the loops always end, after at most two passes more
    than the graph has adjacency entries. *)
Theorem not_found_means_exhausted (sg : SubwayGraph) (origin destination : string)
    (weight_func : option weight_fn) (max_transfers : Z) :
  validate_station sg origin = true →
  validate_station sg destination = true →
  origin ≠ destination →
  find_shortest_path sg origin destination weight_func max_transfers = None →
  ∀ l, l ∈ get_available_lines sg origin →
    dijkstra_loop sg weight_func max_transfers (search_fuel sg) origin destination
      (initial_state origin l) = Some None.
Proof.
  intros Ho Hd Hne Hr l Hl. unfold find_shortest_path in Hr.
  rewrite Ho, Hd in Hr. cbn [negb] in Hr. rewrite decide_False in Hr by done.
  destruct (get_available_lines sg origin) as [|l0 ls] eqn:El.
  { by apply elem_of_nil in Hl. }
  destruct (foldl _ None (l0 :: ls)) as [p|] eqn:Ebest.
  - exfalso. apply best_path_from_search in Ebest as [?|(l' & _ & Hsearch)]; [done|].
    destruct (extract_route_returns _ _ _ _ _ _ _ Hsearch) as [r Er].
    by rewrite Er in Hr.
  - apply foldl_pick_best_none in Ebest as [_ Hall]. specialize (Hall l Hl).
    unfold _dijkstra in Hall.
    destruct (dijkstra_loop_returns sg weight_func max_transfers origin l destination)
      as [[p|] Hrun]; rewrite Hrun in Hall; done.
Qed.

Lemma not_found_means_exhausted_witness :
  dijkstra_loop subway_graph (Some weight_fast) 5 (search_fuel subway_graph)
    "World Trade Center" "86th Street" (initial_state "World Trade Center" "E")
  = Some None.
Proof.
  apply (not_found_means_exhausted subway_graph "World Trade Center" "86th Street"
           (Some weight_fast) 5).
  - by vm_compute.
  - by vm_compute.
  - discriminate.
  - by vm_compute.
  - by apply (bool_decide_unpack _); vm_compute.
Defined.

(** With edge costs that are not negative and a ceiling that no search of
    the graph can reach, [find_shortest_path] is Dijkstra's algorithm: the
    route it returns is a walk from the origin to the destination that
    costs no more than any other such walk, from whatever line of the
    origin, and it returns nothing only when no walk leads there. *)
Theorem uncapped_route_cheapest (sg : SubwayGraph) (origin destination : string)
    (weight_func : option weight_fn) (max_transfers : Z) :
  nonneg_costs sg weight_func →
  Z.of_nat (search_fuel sg) ≤ max_transfers →
  validate_station sg origin = true →
  validate_station sg destination = true →
  origin ≠ destination →
  match find_shortest_path sg origin destination weight_func max_transfers with
  | Some r =>
      ∃ l hs x,
        l ∈ get_available_lines sg origin ∧
        walk sg (origin, l) hs x ∧ x.1 = destination ∧
        stations r = origin :: hops_stations hs ∧
        ∀ l' hs' x',
          l' ∈ get_available_lines sg origin →
          walk sg (origin, l') hs' x' → x'.1 = destination →
          (hops_cost weight_func hs <= hops_cost weight_func hs')%Q
  | None =>
      ∀ l' hs' x',
        l' ∈ get_available_lines sg origin →
        walk sg (origin, l') hs' x' → x'.1 ≠ destination
  end.
Proof.
  intros Hnn Hc Ho Hd Hne. unfold find_shortest_path.
  rewrite Ho, Hd. cbn [negb]. rewrite decide_False by done.
  destruct (get_available_lines sg origin) as [|l0 ls] eqn:El.
  { intros l' hs' x' Hl'. by apply elem_of_nil in Hl'. }
  destruct (foldl _ None (l0 :: ls)) as [p|] eqn:Ebest.
  - pose proof Ebest as Hleast. apply foldl_pick_best_least in Hleast as [_ Hleast].
    apply best_path_from_search in Ebest as [?|(l & Hl & Hsearch)]; [done|].
    pose proof (uncapped_search sg weight_func max_transfers origin l destination
                  Hnn Hc) as Hopt.
    rewrite Hsearch in Hopt.
    destruct Hopt as (Hend & hs & Hhops & Hwalk & Hcost & Hmin).
    pose proof Hsearch as Hres.
    apply dijkstra_result in Hres as [_ (order' & Hord)].
    destruct (backtrack_with_hops _ _ _ Hord (end_state p) (S (size (pi_previous p)))
                [] [] 0 0 []) as (hs2 & lns' & tr' & Hrun & Hhops2).
    { left. }
    { by apply settled_order_length in Hord. }
    unfold hops_of in Hhops. rewrite Hhops2, app_nil_r in Hhops.
    injection Hhops as ->.
    unfold _extract_route. rewrite Hrun.
    exists l, hs, (end_state p). cbn [stations]. rewrite app_nil_r.
    split_and!; [done | done | done | done |].
    intros l' hs' x' Hl' Hwalk' Hx'.
    pose proof (uncapped_search sg weight_func max_transfers origin l' destination
                  Hnn Hc) as Hopt'.
    destruct (_dijkstra sg weight_func max_transfers origin l' destination)
      as [q|] eqn:Eq.
    + destruct Hopt' as (_ & _ & _ & _ & _ & Hmin').
      specialize (Hmin' hs' x' Hwalk' Hx').
      specialize (Hleast l' q Hl' Eq). lra.
    + by destruct (Hopt' hs' x' Hwalk').
  - apply foldl_pick_best_none in Ebest as [_ Hall].
    intros l' hs' x' Hl' Hwalk'. specialize (Hall l' Hl').
    pose proof (uncapped_search sg weight_func max_transfers origin l' destination
                  Hnn Hc) as Hopt'.
    rewrite Hall in Hopt'. by apply (Hopt' hs').
Qed.

Lemma uncapped_route_cheapest_witness :
  match find_shortest_path subway_graph "South Ferry" "Grand Central-42nd Street"
          (Some weight_fast) (Z.of_nat (search_fuel subway_graph)) with
  | Some r =>
      ∃ l hs x,
        l ∈ get_available_lines subway_graph "South Ferry" ∧
        walk subway_graph ("South Ferry", l) hs x ∧ x.1 = "Grand Central-42nd Street" ∧
        stations r = "South Ferry" :: hops_stations hs ∧
        ∀ l' hs' x',
          l' ∈ get_available_lines subway_graph "South Ferry" →
          walk subway_graph ("South Ferry", l') hs' x' →
          x'.1 = "Grand Central-42nd Street" →
          (hops_cost (Some weight_fast) hs <= hops_cost (Some weight_fast) hs')%Q
  | None =>
      ∀ l' hs' x',
        l' ∈ get_available_lines subway_graph "South Ferry" →
        walk subway_graph ("South Ferry", l') hs' x' →
        x'.1 ≠ "Grand Central-42nd Street"
  end.
Proof.
  apply (uncapped_route_cheapest subway_graph "South Ferry" "Grand Central-42nd Street"
           (Some weight_fast) (Z.of_nat (search_fuel subway_graph))).
  - apply (weights_nonneg subway_graph ∅).
    + apply nonneg_times_check. by vm_compute.
    + apply map_Forall_empty.
  - lia.
  - by vm_compute.
  - by vm_compute.
  - discriminate.
Defined.

Lemma relax_same_weight (w w' : option weight_fn) d cs cl tr st e :
  (∀ u e', edge_cost w u e' = edge_cost w' u e') →
  relax w d cs cl tr st e = relax w' d cs cl tr st e.
Proof.
  intros Hw. unfold relax. destruct e as [[ns nl] t].
  pose proof (Hw (cs, cl) (ns, nl, t)) as H. unfold edge_cost in H. simpl in H.
  destruct (decide _); [done|].
  destruct w as [f|], w' as [g|]; by rewrite ?H.
Qed.

Lemma dijkstra_loop_same_weight sg (w w' : option weight_fn) max_transfers fuel s e st :
  (∀ u e', edge_cost w u e' = edge_cost w' u e') →
  dijkstra_loop sg w max_transfers fuel s e st
  = dijkstra_loop sg w' max_transfers fuel s e st.
Proof.
  intros Hw. revert st. induction fuel as [|fuel IH]; intros st; [done|].
  simpl. destruct (heappop (pq st)) as [[[[[d cs] cl] tr] pq']|]; [|done].
  destruct (decide _); [apply IH|].
  destruct (decide _); [done|].
  destruct (bool_decide _); [apply IH|].
  rewrite IH. f_equal.
  generalize ({| distances := distances st; previous := previous st;
                 visited := set_add (cs, cl) (visited st); pq := pq' |}).
  induction (get_adjacent_stations sg cs cl) as [|x xs IHx]; intros st0; [done|].
  simpl. rewrite IHx. f_equal. by apply relax_same_weight.
Qed.

(** Leaving the weight function out is the same as passing
    [weight_time_only]: both searches cost an edge its travel time. *)
Theorem default_weight_is_time_only (sg : SubwayGraph) (origin destination : string)
    (max_transfers : Z) :
  find_shortest_path sg origin destination None max_transfers
  = find_shortest_path sg origin destination (Some weight_time_only) max_transfers.
Proof.
  unfold find_shortest_path.
  destruct (negb (validate_station sg origin)); [done|].
  destruct (negb (validate_station sg destination)); [done|].
  destruct (decide _); [done|].
  destruct (get_available_lines sg origin) as [|l0 ls]; [done|].
  assert (∀ l, _dijkstra sg None max_transfers origin l destination
               = _dijkstra sg (Some weight_time_only) max_transfers origin l destination)
    as Hsame.
  { intros l. unfold _dijkstra. by rewrite (dijkstra_loop_same_weight sg None
                                             (Some weight_time_only)). }
  assert (∀ (starts : list string) best,
            foldl (λ best start_line,
                     pick_best best (_dijkstra sg None max_transfers origin
                                       start_line destination)) best starts
            = foldl (λ best start_line,
                       pick_best best (_dijkstra sg (Some weight_time_only) max_transfers
                                         origin start_line destination)) best starts)
    as ->; [|done].
  induction starts as [|l starts IH]; intros best; [done|].
  simpl. rewrite Hsame. apply IH.
Qed.

(** ** The transfer ceiling *)

Lemma relax_keeps_distance (weight_func : option weight_fn) (d : Q) (cs cl : string)
    (tr : Z) (st : search_state) (e : edge) :
  (cs, cl) ∈ visited st →
  distances (relax weight_func d cs cl tr st e) !! (cs, cl) = distances st !! (cs, cl).
Proof.
  intros Hv.
  destruct (relax_cases weight_func d cs cl tr st e)
    as [[-> _]|(Hn & _ & tr' & -> & _)]; [done|].
  simpl. apply lookup_insert_ne. intros E. apply Hn. by rewrite E.
Qed.

Lemma relax_count (sg : SubwayGraph) (weight_func : option weight_fn)
    (max_transfers : Z) (start : node) (d : Q) (cs cl : string) (tr : Z)
    (st : search_state) (e : edge) (tr_of : node → Z) :
  dist_inv sg weight_func start st →
  (∀ v u t b, previous st !! v = Some (u, t, b) → u ∈ visited st) →
  (cs, cl) ∈ visited st → start ∈ visited st →
  tr ≤ max_transfers →
  count_inv max_transfers start st tr_of → tr_of (cs, cl) = tr →
  ∃ tr_of', count_inv max_transfers start (relax weight_func d cs cl tr st e) tr_of'
            ∧ tr_of' (cs, cl) = tr.
Proof.
  intros (D1 & _) Hsrc Hcur Hstart Hcap (C1 & C2 & C3) Htr.
  unfold relax. destruct e as [[ns nl] t].
  destruct (decide ((ns, nl) ∈ visited st)) as [Hv|Hv]; [by exists tr_of|].
  set (b := bool_decide (nl ≠ cl)).
  set (nd := (d + _)%Q).
  assert (Hstale : (match distances st !! (ns, nl) with
                    | Some d0 => Qltb nd d0
                    | None => true
                    end) = true →
                   ∀ en d1, en ∈ pq st → entry_node en = (ns, nl) →
                            distances st !! entry_node en = Some d1 →
                            (nd < d1)%Q).
  { intros Hb en d1 Hen Een Hd1. rewrite Een in Hd1.
    destruct (distances st !! _) as [dold|] eqn:Hdold in Hb.
    - pose proof (eq_trans (eq_sym Hdold) Hd1) as [= <-]. by apply Qltb_true.
    - pose proof (eq_trans (eq_sym Hdold) Hd1) as Hx. discriminate Hx. }
  destruct (match distances st !! (ns, nl) with
            | Some d0 => Qltb nd d0
            | None => true
            end) eqn:Hbetter; [|by exists tr_of].
  specialize (Hstale eq_refl).
  assert (Hnc : (ns, nl) ≠ (cs, cl)) by (intros E; apply Hv; by rewrite E).
  assert (Hns : (ns, nl) ≠ start) by (intros E; apply Hv; by rewrite E).
  set (tr_of' := λ n : node,
         if decide (n = (ns, nl)) then tr + (if b then 1 else 0) else tr_of n).
  assert (Hnew : tr_of' (ns, nl) = tr + (if b then 1 else 0)).
  { unfold tr_of'. by rewrite decide_True. }
  assert (Hold : ∀ n, n ≠ (ns, nl) → tr_of' n = tr_of n).
  { intros n Hn. unfold tr_of'. by rewrite decide_False. }
  clearbody tr_of'. exists tr_of'.
  split; [|by rewrite Hold].
  split_and!; simpl.
  - by rewrite Hold.
  - intros v u t' b'. destruct (decide ((ns, nl) = v)) as [<-|Hne].
    + rewrite lookup_insert_eq. intros [= <- <- <-].
      rewrite Hnew, Hold by done. rewrite Htr. split; [done | lia].
    + rewrite lookup_insert_ne by done. intros Hp.
      assert (u ≠ (ns, nl)) by (intros ->; apply Hv; by eapply Hsrc).
      rewrite !Hold by done. by eapply C2.
  - intros en d0 Hen. unfold heappush in Hen. apply elem_of_cons in Hen as [->|Hen].
    + unfold entry_node. simpl. by rewrite Hnew.
    + destruct (decide ((ns, nl) = entry_node en)) as [E|Hne].
      * rewrite <- E, lookup_insert_eq. intros [= <-] Hd. exfalso.
        destruct (D1 en Hen) as (d1 & Hd1 & Hle).
        pose proof (Hstale en d1 Hen (eq_sym E) Hd1). lra.
      * rewrite lookup_insert_ne, Hold by done. by apply C3.
Qed.

Lemma capped_loop_count (sg : SubwayGraph) (weight_func : option weight_fn)
    (max_transfers : Z) (s l e : string) :
  ∀ fuel st order tr_of p,
    links_inv (s, l) st order →
    dist_inv sg weight_func (s, l) st →
    count_inv max_transfers (s, l) st tr_of →
    dijkstra_loop sg weight_func max_transfers fuel s e st = Some (Some p) →
    ∃ tr_of',
      tr_of' (s, l) = 0 ∧
      ∀ v u t (b : bool), pi_previous p !! v = Some (u, t, b) →
        tr_of' v = tr_of' u + (if b then 1 else 0) ∧ tr_of' u ≤ max_transfers.
Proof.
  induction fuel as [|fuel IH]; intros st order tr_of p Hlinks Hdist Hcount Hrun; [done|].
  simpl in Hrun.
  destruct (heappop (pq st)) as [[[[[d cs] cl] tr] pq']|] eqn:Hpop; [|done].
  set (m := (d, cs, cl, tr)) in *.
  assert (Hsub : ∀ en, en ∈ pq' → en ∈ pq st).
  { intros en Hen. rewrite (heappop_elem_of _ _ _ _ Hpop). by right. }
  assert (Hm : m ∈ pq st) by (rewrite (heappop_elem_of _ _ _ _ Hpop); by left).
  destruct (decide ((cs, cl) ∈ visited st)) as [Hv|Hv].
  { eapply (IH _ order tr_of); [by eapply skip_links | by eapply pop_dist_skip | | done].
    destruct Hcount as (C1 & C2 & C3). split_and!; [done | done |].
    intros en d0 Hen. apply C3. by apply Hsub. }
  pose proof (pop_links _ _ _ _ _ Hlinks Hpop Hv) as Hlinks'.
  destruct (pop_dist_visit _ _ _ _ _ _ Hdist Hpop Hv) as (Hdist' & dm & Hdm & Edm).
  change (entry_node m) with (cs, cl) in *. change (entry_dist m) with d in *.
  assert (Hcount' : count_inv max_transfers (s, l)
            {| distances := distances st; previous := previous st;
               visited := set_add (cs, cl) (visited st); pq := pq' |} tr_of).
  { destruct Hcount as (C1 & C2 & C3). split_and!; [done | done |].
    intros en d0 Hen. apply C3. by apply Hsub. }
  assert (Htr : tr_of (cs, cl) = tr).
  { destruct Hcount as (_ & _ & C3). symmetry. by apply (C3 m dm). }
  destruct (decide (cs = e)) as [->|Hne].
  { injection Hrun as <-. simpl. exists tr_of.
    destruct Hcount as (C1 & C2 & _). by split. }
  destruct (bool_decide (max_transfers < tr)) eqn:Hcap.
  { by eapply (IH _ ((cs, cl) :: order) tr_of). }
  apply bool_decide_eq_false in Hcap.
  set (st1 := {| distances := distances st; previous := previous st;
                 visited := set_add (cs, cl) (visited st); pq := pq' |}) in *.
  assert (Hfold :
    (λ st', links_inv (s, l) st' ((cs, cl) :: order) ∧
            dist_inv sg weight_func (s, l) st' ∧
            (∃ dcur, distances st' !! (cs, cl) = Some dcur ∧ dcur == d) ∧
            ∃ tr_of', count_inv max_transfers (s, l) st' tr_of' ∧ tr_of' (cs, cl) = tr)
      (foldl (relax weight_func d cs cl tr) st1 (get_adjacent_stations sg cs cl))).
  { apply foldl_invariant.
    { split_and!; [done | done | by exists dm | by exists tr_of]. }
    intros st' x Hx (Hl & Hd & (dcur & Hdcur & Ecur) & (tr_of' & Hc & Htr')).
    assert (Hcur : (cs, cl) ∈ visited st').
    { destruct Hl as (I1 & _). apply I1. left. }
    assert (Hstart : (s, l) ∈ visited st').
    { destruct Hl as (I1 & [?|I2] & _); [done|].
      apply I1. by eapply settled_order_start. }
    assert (Hsrc : ∀ v u t b, previous st' !! v = Some (u, t, b) → u ∈ visited st').
    { destruct Hl as (I1 & _ & I3 & _). intros v u t b H. apply I1. by eapply I3. }
    split_and!.
    - apply relax_links; [left | done].
    - by eapply relax_dist.
    - exists dcur. by rewrite relax_keeps_distance.
    - eapply relax_count; eauto. lia. }
  destruct Hfold as (Hl & Hd & _ & (tr_of' & Hc & _)).
  by eapply (IH _ ((cs, cl) :: order) tr_of').
Qed.

Lemma backtrack_count (start : node) (previous : gmap node (node * Z * bool))
    (order : list node) (tr_of : node → Z) (bound : Z) :
  settled_order start previous order →
  tr_of start = 0 →
  (∀ v u t (b : bool), previous !! v = Some (u, t, b) →
     tr_of v = tr_of u + (if b then 1 else 0) ∧ tr_of u ≤ bound) →
  ∀ m fuel sts lns tt tr, m ∈ order → (length order ≤ fuel)%nat →
    ∃ sts' lns' tt',
      backtrack fuel previous m sts lns tt tr = Some (sts', lns', tt', tr + tr_of m).
Proof.
  intros Hord H0 Hstep.
  induction Hord as [Hs|n p t b order Hn Hp Hno Hord IH];
    intros m fuel sts lns tt tr Hm Hfuel.
  - apply list_elem_of_singleton in Hm as ->.
    destruct fuel as [|fuel]; [simpl in Hfuel; lia|].
    simpl. rewrite Hs, H0, Z.add_0_r. by eexists _, _, _.
  - destruct fuel as [|fuel]; [simpl in Hfuel; lia|]. simpl in Hfuel.
    destruct (decide (m = n)) as [->|Hne].
    + cbn [backtrack]. rewrite Hn.
      destruct (IH p fuel (n.1 :: sts) (n.2 :: lns) (tt + t)
                  (if b then tr + 1 else tr) Hp ltac:(lia)) as (a & b' & c & Hrun).
      rewrite Hrun. destruct (Hstep n p t b Hn) as [-> _].
      eexists _, _, _. do 2 f_equal. destruct b; lia.
    + apply elem_of_cons in Hm as [?|Hm]; [done|].
      apply (IH m (S fuel)); [done | lia].
Qed.

Lemma settled_head (start : node) (previous : gmap node (node * Z * bool))
    (n : node) (order : list node) :
  settled_order start previous (n :: order) →
  n = start ∨ ∃ u t b, previous !! n = Some (u, t, b).
Proof. inversion 1; [by left | right; eauto]. Qed.

(** The ceiling bounds the transfers of a route, one beyond its value: a
    node is expanded as long as its count does not exceed [max_transfers],
    and the node it leads to can be the destination. *)
Theorem transfers_within_ceiling (sg : SubwayGraph) (origin destination : string)
    (weight_func : option weight_fn) (max_transfers : Z) (r : Route) :
  origin ≠ destination →
  find_shortest_path sg origin destination weight_func max_transfers = Some r →
  total_transfers r ≤ max_transfers + 1.
Proof.
  intros Hne Hr. unfold find_shortest_path in Hr.
  destruct (validate_station sg origin); [|done].
  destruct (validate_station sg destination); [|done]. cbn [negb] in Hr.
  rewrite decide_False in Hr by done.
  destruct (get_available_lines sg origin) as [|l0 ls] eqn:El; [done|].
  destruct (foldl _ None (l0 :: ls)) as [p|] eqn:Ebest; [|done].
  apply best_path_from_search in Ebest as [?|(l & Hl & Hsearch)]; [done|].
  pose proof Hsearch as Hres.
  apply dijkstra_result in Hres as [Hend (order' & Hord)].
  unfold _dijkstra in Hsearch.
  destruct (dijkstra_loop _ _ _ _ _ _ _) as [[q|]|] eqn:Hrun; try done.
  injection Hsearch as ->.
  destruct (initial_search_inv sg weight_func (Z.of_nat 0) origin l destination 0
              ltac:(lia)) as (_ & Hdist & _).
  destruct (capped_loop_count sg weight_func max_transfers origin l destination
              (search_fuel sg) (initial_state origin l) [] (λ _, 0) p
              (initial_links origin l) Hdist) as (tr_of & H0 & Hstep);
    [|exact Hrun|].
  { split_and!; [done | |].
    - intros v u t b H. simpl in H. by rewrite lookup_empty in H.
    - intros en d0 Hen. simpl in Hen. by apply list_elem_of_singleton in Hen as ->. }
  destruct (backtrack_count _ _ _ tr_of max_transfers Hord H0 Hstep (end_state p)
              (S (size (pi_previous p))) [] [] 0 0) as (a & b & c & Hback).
  { left. }
  { by apply settled_order_length in Hord. }
  unfold _extract_route in Hr. rewrite Hback in Hr. injection Hr as <-.
  cbn [total_transfers].
  destruct (settled_head _ _ _ _ Hord) as [E|(u & t & fl & Hn)].
  - exfalso. apply Hne. by rewrite <- Hend, E.
  - destruct (Hstep _ _ _ _ Hn) as [-> Hle]. destruct fl; lia.
Qed.

Lemma transfers_within_ceiling_witness :
  total_transfers example_route ≤ 5 + 1.
Proof.
  apply (transfers_within_ceiling subway_graph "South Ferry" "Grand Central-42nd Street"
           (Some weight_fast) 5 example_route).
  - discriminate.
  - by vm_compute.
Defined.

(** ** Ranking *)

Lemma insert_by_perm {A} (key : A → Z) (x : A) (l : list A) :
  insert_by key x l ≡ₚ x :: l.
Proof.
  induction l as [|y l IH]; [done|]. simpl.
  destruct (bool_decide _); [done|]. rewrite IH. apply Permutation_swap.
Qed.

Lemma insert_by_sorted {A} (key : A → Z) (x : A) (l : list A) :
  Sorted (λ a b, key a ≤ key b) l →
  Sorted (λ a b, key a ≤ key b) (insert_by key x l).
Proof.
  induction 1 as [|y l Hs IH Hhd]; simpl.
  - by repeat constructor.
  - destruct (bool_decide (key x ≤ key y)) eqn:E.
    + apply bool_decide_eq_true in E. by repeat constructor.
    + apply bool_decide_eq_false in E. constructor; [done|].
      destruct l as [|z l]; simpl.
      * constructor. lia.
      * destruct (bool_decide (key x ≤ key z)); constructor; [lia|].
        by inversion Hhd.
Qed.

Lemma insert_by_stable {A} (key : A → Z) (k : Z) (x : A) (l : list A) :
  filter (λ a, key a = k) (insert_by key x l) = filter (λ a, key a = k) (x :: l).
Proof.
  induction l as [|y l IH]; [done|]. simpl.
  destruct (bool_decide (key x ≤ key y)) eqn:E; [done|].
  apply bool_decide_eq_false in E.
  rewrite (filter_cons _ y (insert_by key x l)), IH, !filter_cons.
  destruct (decide (key y = k)), (decide (key x = k)); try done. lia.
Qed.

Lemma sorted_by_spec {A} (key : A → Z) (l : list A) :
  sorted_by key l ≡ₚ l ∧
  Sorted (λ a b, key a ≤ key b) (sorted_by key l) ∧
  ∀ k, filter (λ a, key a = k) (sorted_by key l) = filter (λ a, key a = k) l.
Proof.
  unfold sorted_by. induction l as [|x l (IHp & IHs & IHf)]; [by repeat constructor|].
  simpl. split_and!.
  - by rewrite insert_by_perm, IHp.
  - by apply insert_by_sorted.
  - intros k. by rewrite insert_by_stable, !filter_cons, IHf.
Qed.

(** Ranking returns the same routes, ordered by the key of the criterion,
    routes of equal key in the order they came in; a criterion it does not
    know leaves the list as it is. *)
Theorem rank_routes_spec (ro : RouteOptimizer) (routes : list Route) (criterion : string) :
  rank_routes_by_criterion ro routes criterion ≡ₚ routes ∧
  Sorted (λ a b, ranking_key ro criterion a ≤ ranking_key ro criterion b)
    (rank_routes_by_criterion ro routes criterion) ∧
  (∀ k, filter (λ r, ranking_key ro criterion r = k)
          (rank_routes_by_criterion ro routes criterion)
        = filter (λ r, ranking_key ro criterion r = k) routes) ∧
  (criterion ≠ "safe" → criterion ≠ "fast" → criterion ≠ "balanced" →
   rank_routes_by_criterion ro routes criterion = routes).
Proof.
  unfold rank_routes_by_criterion, ranking_key.
  destruct (decide (criterion = "safe"));
    [|destruct (decide (criterion = "fast"));
      [|destruct (decide (criterion = "balanced"))]].
  - destruct (sorted_by_spec (route_crime_sum (ro_crime_data ro)) routes)
      as (Hp & Hs & Hf). done.
  - destruct (sorted_by_spec total_time_minutes routes) as (Hp & Hs & Hf). done.
  - destruct (sorted_by_spec total_transfers routes) as (Hp & Hs & Hf). done.
  - split_and!; [done | | done | done].
    induction routes as [|r routes IH]; constructor; [done|].
    destruct routes; constructor. lia.
Qed.

Lemma rank_routes_spec_witness :
  rank_routes_by_criterion example_optimizer
    [set_name "SafeRoute" example_route; set_name "FastRoute" example_route] "scenic"
  = [set_name "SafeRoute" example_route; set_name "FastRoute" example_route].
Proof.
  apply (rank_routes_spec example_optimizer
           [set_name "SafeRoute" example_route; set_name "FastRoute" example_route]
           "scenic"); discriminate.
Defined.

(** ** generate_routes at the edges *)

(** From a station to itself the result holds three routes, named
    "SafeRoute", "FastRoute" and "BalancedRoute" in this order, each with
    the station alone, no line, no segment, no time, no transfer and one
    stop. *)
Theorem generate_routes_same_station (ro : RouteOptimizer) (s : string) :
  validate_station (router ro) s = true →
  generate_routes ro s s
  = Some [ {| name := Some "SafeRoute";
              stations := [s]; lines := []; segments := [];
              total_time_minutes := 0; total_transfers := 0; total_stops := 1 |};
           {| name := Some "FastRoute";
              stations := [s]; lines := []; segments := [];
              total_time_minutes := 0; total_transfers := 0; total_stops := 1 |};
           {| name := Some "BalancedRoute";
              stations := [s]; lines := []; segments := [];
              total_time_minutes := 0; total_transfers := 0; total_stops := 1 |} ].
Proof.
  intros Hs. unfold generate_routes, _generate_safe_route, _generate_fast_route,
    _generate_balanced_route, find_shortest_path.
  rewrite Hs. cbn [negb]. by destruct (decide (s = s)).
Qed.

Lemma generate_routes_same_station_witness :
  generate_routes example_optimizer "Canal Street" "Canal Street"
  = Some [ {| name := Some "SafeRoute";
              stations := ["Canal Street"]; lines := []; segments := [];
              total_time_minutes := 0; total_transfers := 0; total_stops := 1 |};
           {| name := Some "FastRoute";
              stations := ["Canal Street"]; lines := []; segments := [];
              total_time_minutes := 0; total_transfers := 0; total_stops := 1 |};
           {| name := Some "BalancedRoute";
              stations := ["Canal Street"]; lines := []; segments := [];
              total_time_minutes := 0; total_transfers := 0; total_stops := 1 |} ].
Proof.
  apply (generate_routes_same_station example_optimizer "Canal Street").
  by vm_compute.
Defined.

(** A name that is not a station of the graph yields no route at all. *)
Theorem generate_routes_unknown_station (ro : RouteOptimizer) (origin destination : string) :
  validate_station (router ro) origin = false
  ∨ validate_station (router ro) destination = false →
  generate_routes ro origin destination = None.
Proof.
  intros H. unfold generate_routes, _generate_safe_route, _generate_fast_route,
    _generate_balanced_route, find_shortest_path.
  destruct (validate_station (router ro) origin); [|done].
  destruct H as [?| ->]; done.
Qed.

Lemma generate_routes_unknown_station_witness :
  generate_routes example_optimizer "Canal Street" "Atlantis" = None.
Proof.
  apply (generate_routes_unknown_station example_optimizer "Canal Street" "Atlantis").
  right. by vm_compute.
Defined.

(** ** Station names *)

Section ResolveProperties.

Context (lower : string → string).

(** Whatever it is given, [resolve_station] answers with a station of the
    graph or with nothing; the empty string resolves to nothing, and a
    station name resolves to itself. *)
Theorem resolve_station_spec (sg : SubwayGraph) (input : string) :
  (∀ s, resolve_station lower sg input = Some s → validate_station sg s = true) ∧
  resolve_station lower sg "" = None ∧
  (input ≠ "" → validate_station sg input = true →
   resolve_station lower sg input = Some input).
Proof.
  unfold resolve_station, validate_station. split_and!.
  - intros s. destruct (decide (input = "")); [done|].
    destruct (bool_decide (input ∈ all_stations sg)) eqn:E.
    { by intros [= <-]. }
    destruct (find _ _) as [s1|] eqn:E1.
    { intros [= <-]. apply find_some in E1 as [Hin _].
      by apply bool_decide_eq_true, list_elem_of_In. }
    intros E2. apply find_some in E2 as [Hin _].
    by apply bool_decide_eq_true, list_elem_of_In.
  - done.
  - intros Hne Hv. rewrite decide_False by done. by rewrite Hv.
Qed.

End ResolveProperties.

Lemma resolve_station_spec_witness :
  validate_station subway_graph "Canal Street" = true ∧
  resolve_station ascii_lower subway_graph "Canal Street" = Some "Canal Street".
Proof.
  split.
  - apply (proj1 (resolve_station_spec ascii_lower subway_graph "canal street")
             "Canal Street").
    by vm_compute.
  - apply (resolve_station_spec ascii_lower subway_graph "Canal Street").
    + discriminate.
    + by vm_compute.
Defined.

(** ** The router's own weight functions *)

(** The optimizer's fast weight is the router's transfer-penalty weight
    with a penalty of 8.  Its safe weight is the router's crime weight with
    the incident count capped at 20: the two agree up to 20 incidents, and
    beyond that the safe weight is the smaller one. *)
Theorem optimizer_weights_cap (crime_data : gmap string Z)
    (current next_station current_line next_line : string) (t : Z) (b : bool) :
  weight_fast current next_station current_line next_line t b
  == weight_with_transfer_penalty 8 current next_station current_line next_line t b ∧
  (crimes_at crime_data next_station ≤ 20 →
   weight_safe crime_data current next_station current_line next_line t b
   == weight_with_crime crime_data current next_station current_line next_line t b) ∧
  (0 ≤ t →
   (weight_safe crime_data current next_station current_line next_line t b
    <= weight_with_crime crime_data current next_station current_line next_line t b)%Q).
Proof.
  unfold weight_fast, weight_with_transfer_penalty, weight_safe, weight_with_crime.
  split; [by destruct b|]. split.
  - intros Hc. rewrite Z.min_l by done. by destruct b.
  - intros Ht.
    assert (Hx : (0 <= inject_Z t)%Q).
    { change 0%Q with (inject_Z 0). by rewrite <- Zle_Qle. }
    assert (Hm : (inject_Z (Z.min (crimes_at crime_data next_station) 20)
                  <= inject_Z (crimes_at crime_data next_station))%Q).
    { rewrite <- Zle_Qle. lia. }
    set (x := inject_Z t) in *.
    set (m := inject_Z (Z.min _ 20)) in *. set (k := inject_Z (crimes_at _ _)) in *.
    assert (x * (1 + m / 10) <= x * (1 + k / 10))%Q.
    { rewrite !(Qmult_comm x). apply Qmult_le_compat_r; [|done].
      unfold Qdiv. change (/ 10)%Q with (1 # 10)%Q. lra. }
    destruct b; lra.
Qed.

Lemma optimizer_weights_cap_witness :
  weight_safe (ro_crime_data example_optimizer) "a" "42nd Street-Times Square" "1" "1" 2 false
  == weight_with_crime (ro_crime_data example_optimizer) "a" "42nd Street-Times Square"
       "1" "1" 2 false ∧
  Qle (weight_safe toy_crime "H" "Y1" "A" "A" 2 false)
      (weight_with_crime toy_crime "H" "Y1" "A" "A" 2 false).
Proof.
  split.
  - apply (optimizer_weights_cap (ro_crime_data example_optimizer)
             "a" "42nd Street-Times Square" "1" "1" 2 false).
    by vm_compute.
  - apply (optimizer_weights_cap toy_crime "H" "Y1" "A" "A" 2 false). lia.
Defined.

(** ** The crime baseline *)

Lemma py_min_list_le (x : Z) (xs : list Z) :
  ∀ y, y ∈ x :: xs → py_min_list x xs ≤ y.
Proof.
  unfold py_min_list.
  assert (H : ∀ xs x, foldl Z.min x xs ≤ x ∧ ∀ y, y ∈ xs → foldl Z.min x xs ≤ y).
  { clear. induction xs as [|a xs IH]; intros x; simpl.
    - split; [lia|]. intros y Hy. by apply elem_of_nil in Hy.
    - destruct (IH (Z.min x a)) as [H1 H2]. split; [lia|].
      intros y [->|Hy]%elem_of_cons; [lia | by apply H2]. }
  destruct (H xs x) as [H1 H2]. intros y [->|Hy]%elem_of_cons; [done | by apply H2].
Qed.

Lemma py_max_list_ge (x : Z) (xs : list Z) :
  ∀ y, y ∈ x :: xs → y ≤ py_max_list x xs.
Proof.
  unfold py_max_list.
  assert (H : ∀ xs x, x ≤ foldl Z.max x xs ∧ ∀ y, y ∈ xs → y ≤ foldl Z.max x xs).
  { clear. induction xs as [|a xs IH]; intros x; simpl.
    - split; [lia|]. intros y Hy. by apply elem_of_nil in Hy.
    - destruct (IH (Z.max x a)) as [H1 H2]. split; [lia|].
      intros y [->|Hy]%elem_of_cons; [lia | by apply H2]. }
  destruct (H xs x) as [H1 H2]. intros y [->|Hy]%elem_of_cons; [done | by apply H2].
Qed.

Lemma sorted_lookup_le (l : list Z) (i j : nat) (a b : Z) :
  StronglySorted Z.le l → (i ≤ j)%nat →
  l !! i = Some a → l !! j = Some b → a ≤ b.
Proof.
  intros Hs. revert i j. induction Hs as [|x l Hs IH Hall]; intros i j Hij Ha Hb.
  - done.
  - destruct i as [|i], j as [|j]; simpl in *.
    + injection Ha as ->. injection Hb as ->. lia.
    + injection Ha as ->. rewrite Forall_forall in Hall. apply Hall.
      by eapply list_elem_of_lookup_2.
    + lia.
    + apply (IH i j); [lia | done | done].
Qed.

Lemma foldl_Qplus_bounds (lo hi : Z) (l : list Z) (acc : Q) :
  (∀ y, y ∈ l → lo ≤ y ≤ hi) →
  (acc + inject_Z lo * py_len l <= foldl Qplus acc (inject_Z <$> l))%Q ∧
  (foldl Qplus acc (inject_Z <$> l) <= acc + inject_Z hi * py_len l)%Q.
Proof.
  revert acc. induction l as [|x l IH]; intros acc Hb.
  - unfold py_len. simpl. change (inject_Z (Z.of_nat 0)) with 0%Q. split; lra.
  - assert (Hx : lo ≤ x ≤ hi) by (apply Hb; left).
    destruct (IH (acc + inject_Z x)%Q) as [H1 H2]; [intros y Hy; apply Hb; by right|].
    assert (El : py_len (x :: l) == py_len l + 1).
    { unfold py_len. simpl length. rewrite Nat2Z.inj_succ, <- Z.add_1_r, inject_Z_plus.
      reflexivity. }
    destruct Hx as [Hlo Hhi]. rewrite Zle_Qle in Hlo, Hhi.
    change (foldl Qplus acc (inject_Z <$> x :: l))
      with (foldl Qplus (acc + inject_Z x)%Q (inject_Z <$> l)).
    rewrite El. split; lra.
Qed.

(** The baseline is always found, no index leaves the list, and on a map
    that is not empty its statistics are in order: the quartiles ascend
    from the minimum to the maximum, and mean and median lie between those
    two.  The mean is the one the scores use. *)
Theorem crime_baseline_ordered (crime_data : gmap string Z) :
  ∃ b, _calculate_crime_baseline crime_data = Some b ∧
       cb_mean b == Score._calculate_crime_baseline_mean crime_data ∧
       cb_min b ≤ cb_p25 b ≤ cb_p50 b ∧ cb_p50 b ≤ cb_p75 b ≤ cb_max b ∧
       (inject_Z (cb_min b) <= cb_mean b <= inject_Z (cb_max b))%Q ∧
       (inject_Z (cb_min b) <= cb_median b <= inject_Z (cb_max b))%Q.
Proof.
  unfold _calculate_crime_baseline, Score._calculate_crime_baseline_mean.
  destruct (Score.values crime_data) as [|c cs] eqn:E.
  { eexists. split; [done|]. simpl. split_and!; try done; try lia; by vm_compute. }
  set (crimes := c :: cs).
  set (l := merge_sort Z.le crimes).
  assert (Hperm : l ≡ₚ crimes) by apply merge_sort_Permutation.
  assert (Hsorted : StronglySorted Z.le l) by apply (StronglySorted_merge_sort _).
  assert (Hlen : length l = S (length cs)) by (by rewrite Hperm).
  set (n := length l) in *.
  assert (Hn : length l = n) by reflexivity. clearbody n.
  assert (Hin : ∀ i a, l !! i = Some a → py_min_list c cs ≤ a ≤ py_max_list c cs).
  { intros i a Ha. apply list_elem_of_lookup_2 in Ha. rewrite Hperm in Ha.
    split; [by apply py_min_list_le | by apply py_max_list_ge]. }
  assert (Hdiv : ∀ a b, (0 < b)%nat → (a < b * n)%nat → (a / b < length l)%nat).
  { intros a b Hb Hab. rewrite Hn. by apply Nat.Div0.div_lt_upper_bound. }
  destruct (lookup_lt_is_Some_2 l (n / 4)) as [p25 H25]; [apply Hdiv; lia|].
  destruct (lookup_lt_is_Some_2 l (2 * n / 4)) as [p50 H50]; [apply Hdiv; lia|].
  destruct (lookup_lt_is_Some_2 l (3 * n / 4)) as [p75 H75]; [apply Hdiv; lia|].
  destruct (lookup_lt_is_Some_2 l (n / 2)) as [m1 Hm1]; [apply Hdiv; lia|].
  assert (Hmed : ∃ med, median l = Some med ∧
            (inject_Z (py_min_list c cs) <= med <= inject_Z (py_max_list c cs))%Q).
  { unfold median. rewrite Hn. destruct (Nat.even n) eqn:Heven.
    - destruct (lookup_lt_is_Some_2 l (n / 2 - 1)) as [m0 Hm0].
      { pose proof (Hdiv n 2%nat ltac:(lia) ltac:(lia)). lia. }
      rewrite Hm0, Hm1. simpl. eexists. split; [done|].
      destruct (Hin _ _ Hm0) as [A1 A2]. destruct (Hin _ _ Hm1) as [B1 B2].
      rewrite Zle_Qle in A1, A2, B1, B2.
      unfold Qdiv. change (/ 2)%Q with (1 # 2)%Q. split; lra.
    - rewrite Hm1. simpl. eexists. split; [done|].
      destruct (Hin _ _ Hm1) as [B1 B2]. rewrite Zle_Qle in B1, B2. split; lra. }
  destruct Hmed as (med & Hmed & Hmedb).
  assert (Hmean : (inject_Z (py_min_list c cs) <= Score.mean (inject_Z <$> crimes))%Q ∧
                  (Score.mean (inject_Z <$> crimes) <= inject_Z (py_max_list c cs))%Q).
  { unfold Score.mean, py_sum.
    destruct (foldl_Qplus_bounds (py_min_list c cs) (py_max_list c cs) crimes 0)
      as [Hlo Hhi].
    { intros y Hy. split; [by apply py_min_list_le | by apply py_max_list_ge]. }
    assert (Hl : py_len (inject_Z <$> crimes) = py_len crimes).
    { unfold py_len. by rewrite length_fmap. }
    rewrite Hl. pose proof (py_len_pos crimes ltac:(done)) as Hpos. split.
    - apply Qle_shift_div_l; [done|]. lra.
    - apply Qle_shift_div_r; [done|]. lra. }
  rewrite Hmed, H25, H50, H75. simpl. eexists. split; [done|]. simpl.
  destruct (Hin _ _ H25) as [? ?]. destruct (Hin _ _ H75) as [? ?].
  pose proof (sorted_lookup_le l _ _ _ _ Hsorted
                (Nat.Div0.div_le_mono n (2 * n) 4 ltac:(lia)) H25 H50).
  pose proof (sorted_lookup_le l _ _ _ _ Hsorted
                (Nat.Div0.div_le_mono (2 * n) (3 * n) 4 ltac:(lia)) H50 H75).
  split_and!; try done; try lia; try reflexivity.
  - exact (proj1 Hmean).
  - exact (proj2 Hmean).
  - apply Hmedb.
  - apply Hmedb.
Qed.
